(** * mediaPlayer.py: scheduled looping playback with on-demand interruption

    A shallow embedding of [src/mediaPlayer.py] (class [MainWindow] and the
    module-level time helpers) and the verification of its scheduling,
    playlist-persistence and interrupt/resume behaviour.

    Conventions of the embedding:
    - Python [int] is [Z]; [//] and [%] are [Z.div] and [Z.modulo] (both
      floor towards minus infinity, the sign of [%] follows the divisor).
    - Python [str] is [string]; a character is a code point below 256.
    - a [pathlib.Path] is the list of its components.
    - a [dict] is a [gmap]; a directory is a [gmap] from entry names to
      file contents.
    - handlers are computations in a state-and-exception monad over the
      [World]: the attributes of the window, the file system, the wall
      clock, and the log of calls made to the Qt collaborators (player,
      audio output, timer, dialogs). *)

From Stdlib Require Import ZArith Lia Ascii String List Sorting.Sorted DecimalString.
From Stdlib Require Import Sorting.Permutation.
From stdpp Require Import base decidable option list sorting gmap strings.

Local Open Scope Z_scope.

(** ** Python primitives *)

Module Py.

(** [l[i]] on a list: negative indices count from the end, anything else
    out of range raises [IndexError] (here: [None]). *)
Definition getitem {A} (l : list A) (i : Z) : option A :=
  let n := Z.of_nat (length l) in
  if decide (0 <= i < n) then l !! Z.to_nat i
  else if decide (- n <= i < 0) then l !! Z.to_nat (n + i)
  else None.

(** [len(l)] *)
Definition len {A} (l : list A) : Z := Z.of_nat (length l).

Definition LF : ascii := "010"%char.
Definition CR : ascii := "013"%char.

(** The line boundaries of [str.splitlines] among the code points below
    256: LF, VT, FF, CR, FS, GS, RS and NEL. *)
Definition is_linebreak (c : ascii) : bool :=
  match c with
  | "010" | "011" | "012" | "013" | "028" | "029" | "030" | "133" => true
  | _ => false
  end%char.

(** [str.isspace] for one code point below 256: TAB..CR, FS..US, space,
    NEL and NBSP. *)
Definition is_space (c : ascii) : bool :=
  match c with
  | "009" | "010" | "011" | "012" | "013"
  | "028" | "029" | "030" | "031" | " " | "133" | "160" => true
  | _ => false
  end%char.

(** [s.splitlines()]: [cur] is the line being read.  A boundary closes the
    line (CR LF counts as one boundary); the text after the last boundary is
    a line only when it is not empty. *)
Fixpoint splitlines_go (cur : string) (s : string) : list string :=
  match s with
  | EmptyString => if decide (cur = EmptyString) then [] else [cur]
  | String c s' =>
      if is_linebreak c then
        cur :: match s' with
               | String c' s'' =>
                   if decide (c = CR /\ c' = LF) then splitlines_go EmptyString s''
                   else splitlines_go EmptyString s'
               | EmptyString => []
               end
      else splitlines_go (cur +:+ String c EmptyString) s'
  end.
Definition splitlines (s : string) : list string := splitlines_go EmptyString s.

(** [s.lstrip()], [s.rstrip()] and [s.strip()] with no argument. *)
Fixpoint lstrip (s : string) : string :=
  match s with
  | String c s' => if is_space c then lstrip s' else s
  | EmptyString => EmptyString
  end.
Definition rstrip (s : string) : string := String.rev (lstrip (String.rev s)).
Definition strip (s : string) : string := rstrip (lstrip s).

(** [sep.join(ls)] *)
Fixpoint join (sep : string) (ls : list string) : string :=
  match ls with
  | [] => EmptyString
  | [x] => x
  | x :: ls' => x +:+ sep +:+ join sep ls'
  end.

(** [s.endswith(suffix)]: [suffix] is [s] or ends the tail of [s]. *)
Fixpoint endswith (s suffix : string) : bool :=
  if decide (s = suffix) then true
  else match s with
       | String _ s' => endswith s' suffix
       | EmptyString => false
       end.

(** No character of [s] is a line boundary. *)
Fixpoint one_line (s : string) : bool :=
  match s with
  | EmptyString => true
  | String c s' => negb (is_linebreak c) && one_line s'
  end.

End Py.

(** ** Time helpers *)

Definition Segment : Type := Z * Z.

(** [f"{n:02d}"]: the decimal numeral, zero-padded to two characters (a
    minus sign counts as one of them). *)
Definition format_02d (n : Z) : string :=
  let s := DecimalString.NilZero.string_of_int (Z.to_int n) in
  if decide (String.length s < 2)%nat then "0" +:+ s else s.

Definition min_to_hhmm (m : Z) : string :=
  format_02d (m / 60) +:+ ":" +:+ format_02d (m mod 60).

(** [s.replace(old, new)] for one-character [old] and [new]. *)
Fixpoint replace_char (old new : ascii) (s : string) : string :=
  match s with
  | EmptyString => EmptyString
  | String c s' =>
      String (if decide (c = old) then new else c) (replace_char old new s')
  end.

Definition segment_folder (s e : Z) : string :=
  replace_char ":" "_" (min_to_hhmm s) +:+ "-"
  +:+ replace_char ":" "_" (min_to_hhmm e).

(** [QTime]: only [hour()] and [minute()] are read. *)
Record QTime := { hour : Z; minute : Z }.

Definition qtime_to_min (t : QTime) : Z := hour t * 60 + minute t.

(** [any(max(s, ns) < min(e, ne) for s, e in ranges)] *)
Definition has_overlap (ranges : list Segment) (new_range : Segment) : bool :=
  let '(ns, ne) := new_range in
  existsb (fun '(s, e) => bool_decide (Z.max s ns < Z.min e ne)) ranges.

(** Tuples compare lexicographically; [list.sort()] is a stable sort for
    that order. *)
Definition seg_le (a b : Segment) : Prop :=
  a.1 < b.1 \/ (a.1 = b.1 /\ a.2 <= b.2).
#[global] Instance seg_le_dec : RelDecision seg_le.
Proof. intros a b. unfold seg_le. apply _. Defined.

Definition sort_segments (l : list Segment) : list Segment :=
  merge_sort seg_le l.

(** [sorted(names)] on strings: code-point lexicographic order. *)
Definition sorted_names (l : list string) : list string :=
  merge_sort String.le l.

(** ** The world of the main window *)

(** A [pathlib.Path], as its components. *)
Abbreviation Path := (list string).

Definition path_name (p : Path) : string := List.last p EmptyString.
Definition path_parent (p : Path) : Path := removelast p.
Definition path_div (d : Path) (n : string) : Path := d ++ [n].
Infix "</>" := path_div (at level 40, left associativity).

(** A directory maps the names of its files to their contents; the file
    system maps the path of a directory to the directory.  A directory
    below another one is a path of its own.  The file system holds the
    window directories and the places videos are picked from;
    [SEGMENTS_DIR] itself, which [__init__] makes, is taken to be there. *)
Abbreviation FileSys := (gmap (list string) (gmap string string)).

Definition CSV_FILE : string := "time_ranges.csv".
Definition SEGMENTS_DIR : Path := ["segments"].
Definition ORDER_FILE : string := "order.txt".

(** [(segment, playlist, index, position_ms, waiting_next_segment)] *)
Definition InterruptState : Type :=
  option Segment * list Path * Z * Z * option Segment.

(** The attributes of [MainWindow] that its handlers read and write.
    [ondemand_window] records whether an [OnDemandWindow] is referenced;
    [graceful_switch_box] is the state of the check box. *)
Record MainWindow := {
  volume : Z;
  muted : bool;
  time_ranges : list Segment;
  running : bool;
  current_segment : option Segment;
  current_playlist : list Path;
  current_index : Z;
  waiting_next_segment : option Segment;
  in_interrupt : bool;
  interrupt_state : option InterruptState;
  ondemand_window : bool;
  graceful_switch_box : bool;
}.

(** The texts of the message boxes. *)
Inductive Message :=
| MsgInvalidRange      (* warning: end time earlier than start time *)
| MsgOverlap           (* warning: the time segments overlap *)
| MsgNoSegments        (* warning, cannot run: there is no time segment *)
| MsgNoVideos          (* warning, cannot run: no segment has a video *)
| MsgSelectSegment.    (* information: select a time segment first *)

(** Calls made to the Qt collaborators, in the order they are made. *)
Inductive Call :=
| PlayerSetSource (p : Path)
| PlayerSetPosition (ms : Z)
| PlayerPlay
| PlayerPause
| PlayerStop
| AudioSetMuted (b : bool)
| AudioSetVolume (percent : Z)   (* setVolume(max(0.0, min(1.0, percent / 100.0))) *)
| ShowFullScreen
| LeftPanelHide
| TimerStart (ms : Z)
| TimerStop
| RunBtnSetText (is_running : bool)
| MessageBox (m : Message)
| OnDemandCreate
| OnDemandShow
| OnDemandToggle
| OnDemandSetVolume (percent : Z) (is_muted : bool).

Record World := {
  self : MainWindow;
  fs : FileSys;
  csv_rows : option (list (string * string));  (* rows of CSV_FILE *)
  now : Z * Z;                     (* datetime.now(): hour, minute *)
  player_position : Z;             (* what player.position() returns *)
  player_playing : bool;           (* playbackState() == PlayingState *)
  ondemand_visible : bool;         (* ondemand_window.isVisible() *)
  calls : list Call;
}.

Definition with_self (f : MainWindow -> MainWindow) (w : World) : World :=
  {| self := f (self w); fs := fs w; csv_rows := csv_rows w; now := now w;
     player_position := player_position w; player_playing := player_playing w;
     ondemand_visible := ondemand_visible w; calls := calls w |}.
Definition with_fs (f : FileSys -> FileSys) (w : World) : World :=
  {| self := self w; fs := f (fs w); csv_rows := csv_rows w; now := now w;
     player_position := player_position w; player_playing := player_playing w;
     ondemand_visible := ondemand_visible w; calls := calls w |}.
Definition with_csv_rows (r : option (list (string * string))) (w : World) : World :=
  {| self := self w; fs := fs w; csv_rows := r; now := now w;
     player_position := player_position w; player_playing := player_playing w;
     ondemand_visible := ondemand_visible w; calls := calls w |}.
Definition with_calls (f : list Call -> list Call) (w : World) : World :=
  {| self := self w; fs := fs w; csv_rows := csv_rows w; now := now w;
     player_position := player_position w; player_playing := player_playing w;
     ondemand_visible := ondemand_visible w; calls := f (calls w) |}.

Section Setters.
Variable m : MainWindow.
Definition set_volume_attr (v : Z) : MainWindow :=
  {| volume := v; muted := muted m; time_ranges := time_ranges m;
     running := running m; current_segment := current_segment m;
     current_playlist := current_playlist m; current_index := current_index m;
     waiting_next_segment := waiting_next_segment m;
     in_interrupt := in_interrupt m; interrupt_state := interrupt_state m;
     ondemand_window := ondemand_window m;
     graceful_switch_box := graceful_switch_box m |}.
Definition set_muted (v : bool) : MainWindow :=
  {| volume := volume m; muted := v; time_ranges := time_ranges m;
     running := running m; current_segment := current_segment m;
     current_playlist := current_playlist m; current_index := current_index m;
     waiting_next_segment := waiting_next_segment m;
     in_interrupt := in_interrupt m; interrupt_state := interrupt_state m;
     ondemand_window := ondemand_window m;
     graceful_switch_box := graceful_switch_box m |}.
Definition set_time_ranges (v : list Segment) : MainWindow :=
  {| volume := volume m; muted := muted m; time_ranges := v;
     running := running m; current_segment := current_segment m;
     current_playlist := current_playlist m; current_index := current_index m;
     waiting_next_segment := waiting_next_segment m;
     in_interrupt := in_interrupt m; interrupt_state := interrupt_state m;
     ondemand_window := ondemand_window m;
     graceful_switch_box := graceful_switch_box m |}.
Definition set_running (v : bool) : MainWindow :=
  {| volume := volume m; muted := muted m; time_ranges := time_ranges m;
     running := v; current_segment := current_segment m;
     current_playlist := current_playlist m; current_index := current_index m;
     waiting_next_segment := waiting_next_segment m;
     in_interrupt := in_interrupt m; interrupt_state := interrupt_state m;
     ondemand_window := ondemand_window m;
     graceful_switch_box := graceful_switch_box m |}.
Definition set_current_segment (v : option Segment) : MainWindow :=
  {| volume := volume m; muted := muted m; time_ranges := time_ranges m;
     running := running m; current_segment := v;
     current_playlist := current_playlist m; current_index := current_index m;
     waiting_next_segment := waiting_next_segment m;
     in_interrupt := in_interrupt m; interrupt_state := interrupt_state m;
     ondemand_window := ondemand_window m;
     graceful_switch_box := graceful_switch_box m |}.
Definition set_current_playlist (v : list Path) : MainWindow :=
  {| volume := volume m; muted := muted m; time_ranges := time_ranges m;
     running := running m; current_segment := current_segment m;
     current_playlist := v; current_index := current_index m;
     waiting_next_segment := waiting_next_segment m;
     in_interrupt := in_interrupt m; interrupt_state := interrupt_state m;
     ondemand_window := ondemand_window m;
     graceful_switch_box := graceful_switch_box m |}.
Definition set_current_index (v : Z) : MainWindow :=
  {| volume := volume m; muted := muted m; time_ranges := time_ranges m;
     running := running m; current_segment := current_segment m;
     current_playlist := current_playlist m; current_index := v;
     waiting_next_segment := waiting_next_segment m;
     in_interrupt := in_interrupt m; interrupt_state := interrupt_state m;
     ondemand_window := ondemand_window m;
     graceful_switch_box := graceful_switch_box m |}.
Definition set_waiting_next_segment (v : option Segment) : MainWindow :=
  {| volume := volume m; muted := muted m; time_ranges := time_ranges m;
     running := running m; current_segment := current_segment m;
     current_playlist := current_playlist m; current_index := current_index m;
     waiting_next_segment := v;
     in_interrupt := in_interrupt m; interrupt_state := interrupt_state m;
     ondemand_window := ondemand_window m;
     graceful_switch_box := graceful_switch_box m |}.
Definition set_in_interrupt (v : bool) : MainWindow :=
  {| volume := volume m; muted := muted m; time_ranges := time_ranges m;
     running := running m; current_segment := current_segment m;
     current_playlist := current_playlist m; current_index := current_index m;
     waiting_next_segment := waiting_next_segment m;
     in_interrupt := v; interrupt_state := interrupt_state m;
     ondemand_window := ondemand_window m;
     graceful_switch_box := graceful_switch_box m |}.
Definition set_interrupt_state (v : option InterruptState) : MainWindow :=
  {| volume := volume m; muted := muted m; time_ranges := time_ranges m;
     running := running m; current_segment := current_segment m;
     current_playlist := current_playlist m; current_index := current_index m;
     waiting_next_segment := waiting_next_segment m;
     in_interrupt := in_interrupt m; interrupt_state := v;
     ondemand_window := ondemand_window m;
     graceful_switch_box := graceful_switch_box m |}.
Definition set_ondemand_window (v : bool) : MainWindow :=
  {| volume := volume m; muted := muted m; time_ranges := time_ranges m;
     running := running m; current_segment := current_segment m;
     current_playlist := current_playlist m; current_index := current_index m;
     waiting_next_segment := waiting_next_segment m;
     in_interrupt := in_interrupt m; interrupt_state := interrupt_state m;
     ondemand_window := v;
     graceful_switch_box := graceful_switch_box m |}.
Definition set_graceful_switch_box (v : bool) : MainWindow :=
  {| volume := volume m; muted := muted m; time_ranges := time_ranges m;
     running := running m; current_segment := current_segment m;
     current_playlist := current_playlist m; current_index := current_index m;
     waiting_next_segment := waiting_next_segment m;
     in_interrupt := in_interrupt m; interrupt_state := interrupt_state m;
     ondemand_window := ondemand_window m;
     graceful_switch_box := v |}.
End Setters.

(** ** The monad of handlers: state and Python exceptions *)

Inductive Exn := IndexError | FileNotFoundError | ValueError.

Inductive Res (A : Type) :=
| Ok (a : A) (w : World)
| Raise (e : Exn) (w : World).
Arguments Ok {A} a w.
Arguments Raise {A} e w.

Definition M (A : Type) : Type := World -> Res A.

#[global] Instance M_ret : MRet M := fun A a w => Ok a w.
#[global] Instance M_bind : MBind M := fun A B f m w =>
  match m w with
  | Ok a w' => f a w'
  | Raise e w' => Raise e w'
  end.

(** The world a handler leaves behind, whether it returned or raised. *)
Definition world_of {A} (r : Res A) : World :=
  match r with Ok _ w => w | Raise _ w => w end.

Definition get : M World := fun w => Ok w w.
Definition gets {A} (f : MainWindow -> A) : M A := fun w => Ok (f (self w)) w.
Definition modify (f : World -> World) : M unit := fun w => Ok tt (f w).
Definition assign (f : MainWindow -> MainWindow) : M unit := modify (with_self f).
Definition raise {A} (e : Exn) : M A := fun w => Raise e w.
Definition call (c : Call) : M unit := modify (with_calls (fun l => l ++ [c])).
Definition pass : M unit := mret tt.

(** [for x in l: body x] *)
Fixpoint for_each {A} (l : list A) (body : A -> M unit) : M unit :=
  match l with
  | [] => pass
  | x :: l' => body x ;; for_each l' body
  end.

(** ** File-system operations *)

(** [d.mkdir(parents=True, exist_ok=True)] of [add_segment], and
    [d.mkdir(exist_ok=True)] of [load_ordered_files] with [SEGMENTS_DIR]
    in place: a directory that is there is left alone. *)
Definition mkdir (d : Path) : M unit :=
  modify (with_fs (fun f => match f !! d with
                            | Some _ => f
                            | None => <[d := ∅]> f
                            end)).

(** [p.exists()], asked of files only: [p] is an entry of its parent. *)
Definition path_exists (p : Path) : M bool :=
  w ← get;
  mret (bool_decide (is_Some (fs w !! path_parent p ≫= (.!! path_name p)))).

(** [p.write_text(text)]: the parent directory must exist. *)
Definition write_text (p : Path) (text : string) : M unit :=
  w ← get;
  match fs w !! path_parent p with
  | Some es => modify (with_fs <[path_parent p := <[path_name p := text]> es]>)
  | None => raise FileNotFoundError
  end.

(** [p.read_text()].  Universal newlines turn CR LF and CR into LF; the
    only reader takes [splitlines()] of the text, which does not see the
    difference, so the text is returned as stored. *)
Definition read_text (p : Path) : M string :=
  w ← get;
  match fs w !! path_parent p ≫= (.!! path_name p) with
  | Some text => mret text
  | None => raise FileNotFoundError
  end.

(** [d.glob("*.mp4")], keyed by entry name: the entries of [d] whose name
    ends in [.mp4], compared character by character as on a case-sensitive
    file system.  The order in which [glob] yields them is not observable:
    one caller builds a dict from them, the other asks whether there is
    any.  A window directory is taken to hold files only: a directory
    below [d] is not among its entries. *)
Definition glob_mp4 (d : Path) : M (gmap string Path) :=
  w ← get;
  mret (map_imap (fun n _ => if Py.endswith n ".mp4" then Some (d </> n) else None)
          (default ∅ (fs w !! d))).

(** [shutil.rmtree(d, ignore_errors=True)]: [d] goes, with every
    directory below it; a [d] that is not there is no error. *)
Definition rmtree (d : Path) : M unit :=
  modify (with_fs (filter (fun kv => ~ d `prefix_of` kv.1))).

(** [p.unlink()] *)
Definition unlink (p : Path) : M unit :=
  w ← get;
  match fs w !! path_parent p with
  | Some es =>
      if decide (is_Some (es !! path_name p))
      then modify (with_fs <[path_parent p := delete (path_name p) es]>)
      else raise FileNotFoundError
  | None => raise FileNotFoundError
  end.

(** [shutil.copy(src, dst)] *)
Definition copy (src dst : Path) : M unit :=
  text ← read_text src; write_text dst text.

(** ** MainWindow: volume and pause *)

Definition apply_volume_to_main_audio : M unit :=
  m ← gets muted;
  call (AudioSetMuted m);;
  if negb m then v ← gets volume; call (AudioSetVolume v) else pass.

Definition push_volume_to_ondemand : M unit :=
  od ← gets ondemand_window;
  if od : bool then
    v ← gets volume; m ← gets muted; call (OnDemandSetVolume v m)
  else pass.

Definition set_volume (v : Z) : M unit :=
  assign (fun s => set_volume_attr s (Z.max 0 (Z.min 100 v)));;
  apply_volume_to_main_audio;;
  push_volume_to_ondemand.

Definition toggle_mute : M unit :=
  assign (fun s => set_muted s (negb (muted s)));;
  apply_volume_to_main_audio;;
  push_volume_to_ondemand.

Definition toggle_main_pause : M unit :=
  w ← get;
  if player_playing w then call PlayerPause else call PlayerPlay.

Definition toggle_pause_dispatch : M unit :=
  w ← get;
  if ondemand_window (self w) && ondemand_visible w then call OnDemandToggle
  else toggle_main_pause.

(** ** MainWindow: directories and the order file *)

Definition segment_dir (seg : Segment) : Path :=
  SEGMENTS_DIR </> segment_folder seg.1 seg.2.

Definition order_path (seg : Segment) : Path := segment_dir seg </> ORDER_FILE.

Definition order_text (names : list string) : string :=
  Py.join (String Py.LF EmptyString) names
  +:+ (if decide (names = []) then EmptyString else String Py.LF EmptyString).

Definition write_order (seg : Segment) (names : list string) : M unit :=
  write_text (order_path seg) (order_text names).

(** [[line.strip() for line in text.splitlines() if line.strip()]] *)
Definition order_names (text : string) : list string :=
  Py.strip <$> filter (fun line => Py.strip line ≠ EmptyString) (Py.splitlines text).

(** One turn of [for n in names: if n in files: ordered.append(files.pop(n))] *)
Definition take_named (st : gmap string Path * list Path) (n : string)
  : gmap string Path * list Path :=
  match st.1 !! n with
  | Some p => (delete n st.1, st.2 ++ [p])
  | None => st
  end.

Definition load_ordered_files (seg : Segment) : M (list Path) :=
  let d := segment_dir seg in
  mkdir d;;
  files ← glob_mp4 d;
  let order_file := order_path seg in
  has_order ← path_exists order_file;
  st ← (if has_order : bool then
          text ← read_text order_file;
          mret (foldl take_named (files, []) (order_names text))
        else mret (files, []));
  let ordered :=
    st.2 ++ omap (fun n => st.1 !! n) (sorted_names (elements (dom st.1))) in
  write_order seg (path_name <$> ordered);;
  mret ordered.

(** ** MainWindow: the selected segment and the playlist view

    The combo box and the list widget belong to the user interface; the
    handlers below receive what they read from them: the current index of
    the combo box, the texts of the list widget and its current row. *)

Definition selected_segment (idx : Z) : M (option Segment) :=
  rs ← gets time_ranges;
  if decide (idx < 0 \/ idx >= Py.len rs) then mret (None : option Segment)
  else mret (rs !! Z.to_nat idx).

(** Returns the texts the list widget shows afterwards. *)
Definition refresh_playlist_view (idx : Z) : M (list string) :=
  seg ← selected_segment idx;
  match seg with
  | None => mret []
  | Some seg => ordered ← load_ordered_files seg; mret (path_name <$> ordered)
  end.

Definition save_ui_order_for_selected_segment (idx : Z) (view : list string)
  : M unit :=
  seg ← selected_segment idx;
  match seg with
  | None => pass
  | Some seg => write_order seg view
  end.

(** ** MainWindow: segments *)

Definition save_csv : M unit :=
  rs ← gets time_ranges;
  modify (with_csv_rows (Some ((fun '(s, e) => (min_to_hhmm s, min_to_hhmm e)) <$> rs))).

(** [l.remove(x)]: drops the first element equal to [x]. *)
Fixpoint list_remove (x : Segment) (l : list Segment) : option (list Segment) :=
  match l with
  | [] => None
  | y :: l' => if decide (y = x) then Some l' else cons y <$> list_remove x l'
  end.

Definition stop_playback_state : M unit :=
  assign (fun s => set_current_segment s None);;
  assign (fun s => set_current_playlist s []);;
  assign (fun s => set_current_index s 0);;
  assign (fun s => set_waiting_next_segment s None).

(** [refresh_segments] empties the combo box and fills it again.  Adding
    the first item makes it the current one, and the [currentIndexChanged]
    signal runs [refresh_playlist_view] on it, there and then; emptying the
    box runs it with no item selected, which resolves nothing. *)
Definition refresh_segments : M unit :=
  rs ← gets time_ranges;
  if decide (rs = []) then pass
  else refresh_playlist_view 0;; pass.

Definition add_segment (start_t end_t : QTime) : M unit :=
  let s := qtime_to_min start_t in
  let e := qtime_to_min end_t in
  rs ← gets time_ranges;
  if decide (e < s) then call (MessageBox MsgInvalidRange)
  else if has_overlap rs (s, e) then call (MessageBox MsgOverlap)
  else
    let seg := (s, e) in
    assign (fun m => set_time_ranges m (sort_segments (time_ranges m ++ [seg])));;
    mkdir (segment_dir seg);;
    write_order seg [];;
    save_csv;;
    refresh_segments.

Definition delete_segment (idx : Z) : M unit :=
  seg ← selected_segment idx;
  match seg with
  | None => pass
  | Some seg =>
      cur ← gets current_segment;
      (if decide (cur = Some seg) then
         call PlayerStop;;
         stop_playback_state
       else pass);;
      rs ← gets time_ranges;
      match list_remove seg rs with
      | None => raise ValueError
      | Some rs' =>
          assign (fun m => set_time_ranges m rs');;
          rmtree (segment_dir seg);;
          save_csv;;
          refresh_segments
      end
  end.

(** ** MainWindow: videos *)

(** [paths] is what the file dialog returned. *)
Definition add_video (idx : Z) (paths : list Path) : M unit :=
  seg ← selected_segment idx;
  match seg with
  | None => call (MessageBox MsgSelectSegment)
  | Some seg =>
      let d := segment_dir seg in
      if decide (paths = []) then pass
      else
        for_each paths (fun src =>
          let dst := d </> path_name src in
          ex ← path_exists dst;
          if ex : bool then pass else copy src dst);;
        load_ordered_files seg;;
        refresh_playlist_view idx;;
        pass
  end.

(** [view] holds the texts of the list widget and [r] its current row. *)
Definition delete_video (idx : Z) (view : list string) (r : Z) : M unit :=
  seg ← selected_segment idx;
  match seg with
  | None => pass
  | Some seg =>
      if decide (r < 0) then pass
      else
        match view !! Z.to_nat r with
        | None => raise IndexError
        | Some name =>
            let fp := segment_dir seg </> name in
            w ← get;
            (if decide (is_Some (fs w !! segment_dir seg ≫= (.!! name)))
             then unlink fp else pass);;
            save_ui_order_for_selected_segment idx (delete (Z.to_nat r) view)
        end
  end.

(** ** MainWindow: running, scheduling and looping *)

(** [for seg in time_ranges: if any(segment_dir(seg).glob("*.mp4")): return True] *)
Fixpoint any_segment_has_video_in (segs : list Segment) : M bool :=
  match segs with
  | [] => mret false
  | seg :: segs' =>
      found ← glob_mp4 (segment_dir seg);
      if decide (found = ∅) then any_segment_has_video_in segs' else mret true
  end.

Definition any_segment_has_video : M bool :=
  rs ← gets time_ranges; any_segment_has_video_in rs.

Definition enter_fullscreen : M unit :=
  call ShowFullScreen;; call LeftPanelHide.

Definition now_minutes : M Z :=
  w ← get; mret ((now w).1 * 60 + (now w).2).

Definition find_active_segment : M (option Segment) :=
  m ← now_minutes;
  rs ← gets time_ranges;
  mret (List.find (fun seg : Segment => bool_decide (seg.1 <= m < seg.2)) rs).

(** [l[i]] inside a handler *)
Definition item {A} (l : list A) (i : Z) : M A :=
  match Py.getitem l i with
  | Some x => mret x
  | None => raise IndexError
  end.

Definition play_current : M unit :=
  pl ← gets current_playlist;
  if decide (pl = []) then pass
  else
    apply_volume_to_main_audio;;
    i ← gets current_index;
    p ← item pl i;
    call (PlayerSetSource p);;
    call PlayerPlay.

Definition start_segment (seg : Segment) : M unit :=
  assign (fun s => set_current_segment s (Some seg));;
  assign (fun s => set_waiting_next_segment s None);;
  pl ← load_ordered_files seg;
  assign (fun s => set_current_playlist s pl);;
  assign (fun s => set_current_index s 0);;
  if decide (pl = []) then pass
  else enter_fullscreen;; play_current.

Definition check_real_time : M unit :=
  s ← gets id;
  if negb (running s) || in_interrupt s then pass
  else
    active ← find_active_segment;
    match active with
    | None => pass
    | Some a =>
        if decide (current_segment s ≠ Some a) then
          if bool_decide (is_Some (current_segment s)) && graceful_switch_box s
          then assign (fun s => set_waiting_next_segment s (Some a))
          else start_segment a
        else pass
    end.

(** What [toggle_run] does once the request is accepted. *)
Definition switch_run : M unit :=
  assign (fun s => set_running s (negb (running s)));;
  r ← gets running;
  call (RunBtnSetText r);;
  if r : bool then
    call (TimerStart 1000);;
    check_real_time
  else
    call TimerStop;;
    call PlayerStop;;
    stop_playback_state.

Definition toggle_run : M unit :=
  s ← gets id;
  if negb (running s) then
    if decide (time_ranges s = []) then call (MessageBox MsgNoSegments)
    else
      has ← any_segment_has_video;
      if has : bool then switch_run else call (MessageBox MsgNoVideos)
  else switch_run.

(** [QMediaPlayer.MediaStatus] *)
Inductive MediaStatus :=
| NoMedia | LoadingMedia | LoadedMedia | StalledMedia
| BufferingMedia | BufferedMedia | EndOfMedia | InvalidMedia.
#[global] Instance MediaStatus_eq_dec : EqDecision MediaStatus.
Proof. solve_decision. Defined.

Definition on_media_status (status : MediaStatus) : M unit :=
  if decide (status ≠ EndOfMedia) then pass
  else
    s ← gets id;
    if negb (running s) || in_interrupt s then pass
    else
      match waiting_next_segment s with
      | Some nxt => start_segment nxt
      | None =>
          let pl := current_playlist s in
          if decide (pl = []) then pass
          else
            assign (fun s => set_current_index s
                               ((current_index s + 1) mod Py.len pl));;
            play_current
      end.

(** ** MainWindow: on-demand interruption and resumption *)

Definition start_on_demand : M unit :=
  w ← get;
  let s := self w in
  if in_interrupt s then pass
  else
    let seg := current_segment s in
    let plist := current_playlist s in      (* list(...): a copy *)
    let idx := current_index s in
    let pos := player_position w in
    let wnext := waiting_next_segment s in
    assign (fun s => set_interrupt_state s (Some (seg, plist, idx, pos, wnext)));;
    assign (fun s => set_in_interrupt s true);;
    call PlayerStop;;
    call OnDemandCreate;;
    assign (fun s => set_ondemand_window s true);;
    call OnDemandShow.

Definition resume_from_interrupt (terminated : bool) : M unit :=
  assign (fun s => set_in_interrupt s false);;
  assign (fun s => set_ondemand_window s false);;
  s ← gets id;
  if negb (running s) then pass
  else
    match interrupt_state s with
    | None => check_real_time
    | Some (seg, plist, idx, pos, wnext) =>
        assign (fun s => set_interrupt_state s None);;
        active ← find_active_segment;
        if bool_decide (is_Some seg) && bool_decide (active = seg)
           && bool_decide (plist ≠ [])
        then
          assign (fun s => set_current_segment s seg);;
          assign (fun s => set_current_playlist s plist);;
          assign (fun s => set_current_index s (Z.min idx (Py.len plist - 1)));;
          assign (fun s => set_waiting_next_segment s wnext);;
          enter_fullscreen;;
          apply_volume_to_main_audio;;
          pl ← gets current_playlist;
          i ← gets current_index;
          p ← item pl i;
          call (PlayerSetSource p);;
          call (PlayerSetPosition pos);;
          call PlayerPlay
        else
          stop_playback_state;;
          check_real_time
    end.

(** ** Events: everything that runs a handler or changes its surroundings

    One event per slot of the window.  [playlist_view.clear()] only
    empties a widget and is left out of the handlers; the
    [currentIndexChanged] signal of the combo box, which runs
    [refresh_playlist_view], is the event [EvSelectSegment] when the user
    makes it and part of [refresh_segments] when a handler does; [rowsMoved]
    of the list widget is [EvRowsMoved].  The [on_finish] callback is
    [EvOnDemandFinish]; only an on-demand window that [ondemand_window]
    refers to can make it.  [EvSurroundings] is whatever happens outside:
    files, the clock, the progress of the player, the visibility of the
    on-demand window. *)

Inductive Event :=
| EvAddSegment (start_t end_t : QTime)
| EvDeleteSegment (idx : Z)
| EvSelectSegment (idx : Z)
| EvRowsMoved (idx : Z) (view : list string)
| EvAddVideo (idx : Z) (paths : list Path)
| EvDeleteVideo (idx : Z) (view : list string) (r : Z)
| EvToggleRun
| EvTick
| EvMediaStatus (status : MediaStatus)
| EvStartOnDemand
| EvOnDemandFinish (terminated : bool)
| EvSetVolume (v : Z)
| EvToggleMute
| EvTogglePause
| EvSetGraceful (checked : bool)
| EvSurroundings (f : FileSys) (t : Z * Z) (pos : Z) (playing visible : bool).

Definition handle (ev : Event) : M unit :=
  match ev with
  | EvAddSegment s e => add_segment s e
  | EvDeleteSegment idx => delete_segment idx
  | EvSelectSegment idx => refresh_playlist_view idx;; pass
  | EvRowsMoved idx view => save_ui_order_for_selected_segment idx view
  | EvAddVideo idx paths => add_video idx paths
  | EvDeleteVideo idx view r => delete_video idx view r
  | EvToggleRun => toggle_run
  | EvTick => check_real_time
  | EvMediaStatus st => on_media_status st
  | EvStartOnDemand => start_on_demand
  | EvOnDemandFinish t =>
      od ← gets ondemand_window;
      if od : bool then resume_from_interrupt t else pass
  | EvSetVolume v => set_volume v
  | EvToggleMute => toggle_mute
  | EvTogglePause => toggle_pause_dispatch
  | EvSetGraceful b => assign (fun s => set_graceful_switch_box s b)
  | EvSurroundings f t pos playing visible =>
      modify (fun w =>
        {| self := self w; fs := f; csv_rows := csv_rows w; now := t;
           player_position := pos; player_playing := playing;
           ondemand_visible := visible; calls := calls w |})
  end.

(** The world after a sequence of events; a handler that raises leaves
    the world as it was when it raised (Qt reports the exception and goes
    on with the event loop). *)
Definition run (evs : list Event) (w : World) : World :=
  foldl (fun w ev => world_of (handle ev w)) w evs.

(** The window as [__init__] leaves it, with the segments [load_csv] read. *)
Definition initial_window (ranges : list Segment) : MainWindow :=
  {| volume := 50; muted := false; time_ranges := ranges;
     running := false; current_segment := None; current_playlist := [];
     current_index := 0; waiting_next_segment := None;
     in_interrupt := false; interrupt_state := None;
     ondemand_window := false; graceful_switch_box := true |}.

Definition initial (w : World) : Prop :=
  exists ranges, self w = initial_window ranges.

Definition reachable (w : World) : Prop :=
  exists w0 evs, initial w0 /\ w = run evs w0.

(** * Specification vocabulary *)

(** The segment [find_active_segment] returns in world [w]. *)
Definition active_segment (w : World) : option Segment :=
  List.find (fun seg : Segment =>
               bool_decide (seg.1 <= (now w).1 * 60 + (now w).2 < seg.2))
    (time_ranges (self w)).

(** The entries of the storage location of [seg]. *)
Definition entries (w : World) (seg : Segment) : gmap string string :=
  default ∅ (fs w !! segment_dir seg).

(** [n] names a playable item of [seg]: an entry whose name ends in [.mp4]. *)
Definition playable (w : World) (seg : Segment) (n : string) : Prop :=
  is_Some (entries w seg !! n) /\ Py.endswith n ".mp4" = true.

(** No two windows at different places of the list overlap. *)
Definition no_overlap (l : list Segment) : Prop :=
  forall i j a b, i ≠ j -> l !! i = Some a -> l !! j = Some b ->
    ~ (Z.max a.1 b.1 < Z.min a.2 b.2).

(** [0 <= index < len(playlist)] whenever the playlist is not empty. *)
Definition index_in_bounds (playlist : list Path) (index : Z) : Prop :=
  playlist ≠ [] -> 0 <= index < Py.len playlist.

Definition snapshot_in_bounds (st : option InterruptState) : Prop :=
  match st with
  | Some (_, plist, idx, _, _) => index_in_bounds plist idx
  | None => True
  end.

(** The invariant of the playback state: the live index and the index of
    a pending snapshot are in bounds, and an open on-demand window has a
    snapshot to come back to. *)
Definition playback_inv (s : MainWindow) : Prop :=
  index_in_bounds (current_playlist s) (current_index s)
  /\ snapshot_in_bounds (interrupt_state s)
  /\ (ondemand_window s = true -> is_Some (interrupt_state s)).

(** A name that the order file gives back as it was written: not empty, no
    line boundary inside, no white space at either end. *)
Definition clean_name (n : string) : Prop :=
  n ≠ EmptyString /\ Py.strip n = n /\ Py.one_line n = true.

(** What the audio output is told when the volume state is applied. *)
Definition volume_calls (s : MainWindow) : list Call :=
  AudioSetMuted (muted s) :: (if muted s then [] else [AudioSetVolume (volume s)]).

(** What the player is told when item [p] is played from its start. *)
Definition play_calls (s : MainWindow) (p : Path) : list Call :=
  volume_calls s ++ [PlayerSetSource p; PlayerPlay].

(** What the collaborators are told when item [p] is resumed at [pos]. *)
Definition resume_calls (s : MainWindow) (p : Path) (pos : Z) : list Call :=
  [ShowFullScreen; LeftPanelHide] ++ volume_calls s
  ++ [PlayerSetSource p; PlayerSetPosition pos; PlayerPlay].

(** The window once the interruption is over and its snapshot consumed. *)
Definition interrupt_cleared (s : MainWindow) : MainWindow :=
  set_interrupt_state (set_ondemand_window (set_in_interrupt s false) false) None.

(** The playback state set to a given window, playlist, index and pending
    window. *)
Definition with_playback (seg : option Segment) (plist : list Path) (idx : Z)
    (wnext : option Segment) (s : MainWindow) : MainWindow :=
  set_waiting_next_segment
    (set_current_index (set_current_playlist (set_current_segment s seg) plist) idx)
    wnext.

(** The idle playback state: no window, nothing to play. *)
Definition idle : MainWindow -> MainWindow := with_playback None [] 0 None.

(** Ticks of the timer and changes of the surroundings that leave the
    check box and the run alone. *)
Definition is_tick (ev : Event) : Prop :=
  match ev with
  | EvTick | EvSurroundings _ _ _ _ _ => True
  | _ => False
  end.

(** The playable items of a directory [es] kept under [d], by name. *)
Definition mp4_files (d : Path) (es : gmap string string) : gmap string Path :=
  map_imap (fun n _ => if Py.endswith n ".mp4" then Some (d </> n) else None) es.

(** The names the order file of a directory holds. *)
Definition recorded_names (es : gmap string string) : list string :=
  match es !! ORDER_FILE with
  | Some text => order_names text
  | None => []
  end.

(** The playlist [load_ordered_files] builds from the directory [es]. *)
Definition merged (d : Path) (es : gmap string string) : list Path :=
  let st := foldl take_named (mp4_files d es, []) (recorded_names es) in
  st.2 ++ omap (fun n => st.1 !! n) (sorted_names (elements (dom st.1))).

(** The attributes that playback leaves alone. *)
Definition same_controls (s s' : MainWindow) : Prop :=
  volume s' = volume s /\ muted s' = muted s
  /\ time_ranges s' = time_ranges s /\ running s' = running s
  /\ in_interrupt s' = in_interrupt s
  /\ interrupt_state s' = interrupt_state s
  /\ ondemand_window s' = ondemand_window s
  /\ graceful_switch_box s' = graceful_switch_box s.

(** The surroundings other than the file system. *)
Definition same_surroundings (w w' : World) : Prop :=
  csv_rows w' = csv_rows w /\ now w' = now w
  /\ player_position w' = player_position w
  /\ player_playing w' = player_playing w
  /\ ondemand_visible w' = ondemand_visible w.

(** A computation keeps [I] when the world it leaves behind satisfies [I]
    whenever the world it started in did, whether it returns or raises. *)
Definition keeps {A} (I : World -> Prop) (m : M A) : Prop :=
  forall w, I w -> I (world_of (m w)).

(** ** A concrete schedule

    Two adjacent windows, 09:00-10:00 with three items and 10:00-11:00
    with one, and the clock at 09:59. *)

Definition demo_fs : gmap (list string) (gmap string string) :=
  {[ segment_dir (540, 600) := {[ "a.mp4" := "video"; "b.mp4" := "video"; "c.mp4" := "video" ]};
     segment_dir (600, 660) := {[ "n.mp4" := "video" ]} ]}.

Definition demo_world : World :=
  {| self := initial_window [(540, 600); (600, 660)];
     fs := demo_fs; csv_rows := None; now := (9, 59);
     player_position := 0; player_playing := false;
     ondemand_visible := false; calls := [] |}.

(** The run has been started at 09:59, ... *)
Definition demo_running : World := run [EvToggleRun] demo_world.

(** ... and the clock has reached 10:00. *)
Definition demo_at_ten : World :=
  run [EvSurroundings demo_fs (10, 0) 1500 true false] demo_running.

(** The scenario of the specification: window 09:00-10:00 at index 1, the
    player 30 s into its item, an on-demand session begun and then ended by
    the user while the window is still active. *)
Definition demo_interrupted : World :=
  run [EvMediaStatus EndOfMedia;
       EvSurroundings demo_fs (9, 59) 30000 true false;
       EvStartOnDemand;
       EvSurroundings demo_fs (9, 59) 0 false true] demo_running.


(** ** Resolving a playlist, on names *)

#[global] Instance playable_dec w seg n : Decision (playable w seg n).
Proof. unfold playable. apply _. Defined.

(** The names of the playable entries of a directory. *)
Definition mp4_names (es : gmap string string) : gset string :=
  filter (fun n => Py.endswith n ".mp4" = true) (dom es).

(** The names of [names] that are available, each at its first place. *)
Fixpoint take_names (avail : gset string) (names : list string) : list string :=
  match names with
  | [] => []
  | n :: names' =>
      if decide (n ∈ avail) then n :: take_names (avail ∖ {[n]}) names'
      else take_names avail names'
  end.

(** The recorded names that are still there, then the others in order. *)
Definition resolved_names (avail : gset string) (names : list string) : list string :=
  take_names avail names
  ++ sorted_names (elements (avail ∖ list_to_set names)).

(** A storage location with a name that starts with a space. *)
Definition spaced_world : World :=
  with_fs (fun _ => {[ segment_dir (540, 600) := {[ " z.mp4" := "video"; "b.mp4" := "video" ]} ]})
    demo_world.

(** A storage location that holds a Matroska file only, and a file to add. *)
Definition mkv_world : World :=
  with_fs (fun _ => {[ segment_dir (540, 600) := {[ "old.mkv" := "video" ]};
                       segment_dir (600, 660) := ∅;
                       ["home"; "videos"] := {[ "new.mkv" := "matroska" ]} ]})
    demo_world.

(** The values of the dict are the paths of its keys. *)
Definition keyed_by_name (d : list string) (files : gmap string (list string)) : Prop :=
  forall n p, files !! n = Some p -> p = d </> n.

(** * More of the program *)

From Stdlib Require DecimalPos.

(** ** Reading times and the schedule file *)

Module PyText.

(** [s.split(sep)] for a separator of one character: [cur] is the piece
    being read. *)
Fixpoint split_go (sep : ascii) (cur : string) (s : string) : list string :=
  match s with
  | EmptyString => [cur]
  | String c s' =>
      if decide (c = sep) then cur :: split_go sep EmptyString s'
      else split_go sep (cur +:+ String c EmptyString) s'
  end.
Definition split (sep : ascii) (s : string) : list string :=
  split_go sep EmptyString s.

Definition is_digit (c : ascii) : bool :=
  match c with
  | "0" | "1" | "2" | "3" | "4" | "5" | "6" | "7" | "8" | "9" => true
  | _ => false
  end%char.

(** The digits of a numeral, without the underscores that may stand, one
    at a time, between two digits; [None] when the text is not such a
    numeral.  [after_digit] tells whether the character before was a
    digit. *)
Fixpoint digits_go (after_digit : bool) (s : string) : option string :=
  match s with
  | EmptyString => if after_digit then Some EmptyString else None
  | String c s' =>
      if is_digit c then String c <$> digits_go true s'
      else if decide (c = "_"%char)
           then (if after_digit then digits_go false s' else None)
           else None
  end.

(** The most digits [int] converts (the default of
    [sys.set_int_max_str_digits]). *)
Definition max_str_digits : nat := 4300.

(** The white space [int] skips around a numeral: TAB to CR and the
    space, and NEL and NBSP, which it reads as spaces.  FS, GS, RS and US,
    which [str.strip] removes, are not skipped: [int] raises on them. *)
Definition is_int_space (c : ascii) : bool :=
  match c with
  | "009" | "010" | "011" | "012" | "013" | " " | "133" | "160" => true
  | _ => false
  end%char.

Fixpoint skip_spaces (s : string) : string :=
  match s with
  | String c s' => if is_int_space c then skip_spaces s' else s
  | EmptyString => EmptyString
  end.

Definition int_strip (s : string) : string :=
  String.rev (skip_spaces (String.rev (skip_spaces s))).

(** [int(s)] for a string: white space around, an optional sign, decimal
    digits with single underscores between them; [None] is [ValueError]. *)
Definition to_int (s : string) : option Z :=
  let t := int_strip s in
  let '(negative, body) :=
    match t with
    | String "-" r => (true, r)
    | String "+" r => (false, r)
    | _ => (false, t)
    end%char in
  ds ← digits_go false body;
  if decide (max_str_digits < String.length ds)%nat then None
  else
    u ← DecimalString.NilEmpty.uint_of_string ds;
    Some (if negative : bool then - Z.of_uint u else Z.of_uint u).

End PyText.

(** [h, m = map(int, s.split(":")); return h * 60 + m]; [None] is the
    [ValueError] of a text that is not two numerals around one colon. *)
Definition hhmm_to_min (s : string) : option Z :=
  match PyText.split ":" s with
  | [a; b] =>
      h ← PyText.to_int a;
      m ← PyText.to_int b;
      Some (h * 60 + m)
  | _ => None
  end.

(** One row of the schedule file, given by its [start] and [end] columns:
    the segment it holds, or [None] when reading it raises. *)
Definition row_segment (row : string * string) : option Segment :=
  s ← hhmm_to_min row.1;
  e ← hhmm_to_min row.2;
  Some (s, e).

(** [load_csv]: the rows that cannot be read are passed over. *)
Definition load_csv : M unit :=
  assign (fun m => set_time_ranges m []);;
  w ← get;
  match csv_rows w with
  | None => pass
  | Some rows =>
      for_each rows (fun row =>
        match row_segment row with
        | Some seg => assign (fun m => set_time_ranges m (time_ranges m ++ [seg]))
        | None => pass
        end);;
      assign (fun m => set_time_ranges m (sort_segments (time_ranges m)))
  end.

(** Every character of [s] satisfies [P]. *)
Fixpoint string_forall (P : ascii -> bool) (s : string) : bool :=
  match s with
  | EmptyString => true
  | String c s' => P c && string_forall P s'
  end.

(** The characters of a decimal numeral with its sign. *)
Definition numeral_char (c : ascii) : bool :=
  PyText.is_digit c || bool_decide (c = "-"%char).

(** The texts of both ends of a segment stay within the digits Python
    converts. *)
Definition fits_digits (seg : Segment) : Prop :=
  (String.length (min_to_hhmm seg.1) <= PyText.max_str_digits)%nat
  /\ (String.length (min_to_hhmm seg.2) <= PyText.max_str_digits)%nat.

(** ** Vocabulary for the rest *)

(** What the user sets: volume, mute, the schedule, the switching mode. *)
Definition settings (s : MainWindow) : Z * bool * list Segment * bool :=
  (volume s, muted s, time_ranges s, graceful_switch_box s).

(** The events whose handlers write one of the settings. *)
Definition writes_settings (ev : Event) : Prop :=
  match ev with
  | EvAddSegment _ _ | EvDeleteSegment _ | EvSetVolume _ | EvToggleMute
  | EvSetGraceful _ => True
  | _ => False
  end.

#[global] Instance writes_settings_dec ev : Decision (writes_settings ev).
Proof. destruct ev; cbn; apply _. Defined.

(** The window the combo box selects at index [idx]. *)
Definition selected (w : World) (idx : Z) : option Segment :=
  if decide (idx < 0 \/ idx >= Py.len (time_ranges (self w))) then None
  else time_ranges (self w) !! Z.to_nat idx.

(** The playback state: window, playlist, index, pending window. *)
Definition playback (s : MainWindow)
  : option Segment * list (list string) * Z * option Segment :=
  (current_segment s, current_playlist s, current_index s, waiting_next_segment s).

(** The state of run and interruption. *)
Definition run_state (s : MainWindow) : bool * bool * option InterruptState * bool :=
  (running s, in_interrupt s, interrupt_state s, ondemand_window s).

(** The rows [save_csv] writes for a schedule. *)
Definition schedule_rows (rs : list Segment) : list (string * string) :=
  (fun '(s, e) => (min_to_hhmm s, min_to_hhmm e)) <$> rs.


(** The attributes agree with each other: a run that is stopped has an
    idle playback state, no window means no playlist, no index and no
    pending window, and an interruption lasts as long as the on-demand
    window is referred to. *)
Definition coherent (s : MainWindow) : Prop :=
  (running s = false -> playback s = (None, [], 0, None))
  /\ (current_segment s = None ->
      current_playlist s = [] /\ current_index s = 0
      /\ waiting_next_segment s = None)
  /\ in_interrupt s = ondemand_window s.

(** The item a call hands to the player, if it hands one. *)
Definition source_of (c : Call) : option (list string) :=
  match c with
  | PlayerSetSource p => Some p
  | _ => None
  end.

(** The items the player was given, in the order of the calls. *)
Definition sources (cs : list Call) : list (list string) := omap source_of cs.

(** [p] is an entry of the directory of [seg] whose name ends in [.mp4]. *)
Definition window_item (seg : Segment) (p : list string) : Prop :=
  p = segment_dir seg </> path_name p /\ Py.endswith (path_name p) ".mp4" = true.

(** [pl] is a playlist of [seg]: distinct items of its directory; nothing
    at all without a window. *)
Definition playlist_of (seg : option Segment) (pl : list (list string)) : Prop :=
  NoDup pl
  /\ match seg with
     | Some sg => Forall (window_item sg) pl
     | None => pl = []
     end.

(** The live playlist and the one of the snapshot are playlists of their
    windows. *)
Definition playlists_ok (s : MainWindow) : Prop :=
  playlist_of (current_segment s) (current_playlist s)
  /\ match interrupt_state s with
     | Some (seg, pl, _, _, _) => playlist_of seg pl
     | None => True
     end.

(** The playlists are in order and, past the first [base] of them, the
    player was given window items only. *)
Definition well_sourced (base : nat) (w : World) : Prop :=
  playlists_ok (self w)
  /\ Forall (fun p => exists seg, window_item seg p) (drop base (sources (calls w))).

(** The events that neither start or stop the run, nor delete a window,
    nor close the on-demand window. *)
Definition quiet (ev : Event) : Prop :=
  match ev with
  | EvToggleRun | EvDeleteSegment _ | EvOnDemandFinish _ => False
  | _ => True
  end.

(** The file system without the directory [d] and those below it. *)
Definition without_tree (d : list string) (f : gmap (list string) (gmap string string))
  : gmap (list string) (gmap string string) :=
  filter (fun kv => ~ d `prefix_of` kv.1) f.

(** The directory [es] once [load_ordered_files] has resolved it: its
    order file holds the resolved names. *)
Definition resolved_dir (es : gmap string string) : gmap string string :=
  <[ORDER_FILE := order_text (resolved_names (mp4_names es) (recorded_names es))]> es.

(** The text of the entry [n] of the directory [d], if there is one. *)
Definition file_at (w : World) (d : list string) (n : string) : option string :=
  fs w !! d ≫= (.!! n).

(** A text that does not start with white space. *)
Definition head_ok (t : string) : Prop :=
  match t with
  | String c _ => Py.is_space c = false
  | EmptyString => True
  end.

(** ** The on-demand window

    [OnDemandWindow] has a playlist and an index of its own, a list widget
    that the user may reorder by dragging, and its own player.  The three
    callbacks it is made with are its surroundings: what [get_volume_0_100]
    and [get_muted] answer is part of the state, and a call of [on_finish]
    is recorded with the calls to the widgets. *)

Module OnDemandWindow.

Inductive Call :=
| AudioSetMuted (b : bool)
| AudioSetVolume (percent : Z)   (* setVolume(max(0.0, min(1.0, percent / 100.0))) *)
| PlayerSetSource (p : list string)
| PlayerPlay
| PlayerPause
| PlayerStop
| ShowFullScreen
| RightPanelHide
| Close
| OnFinish (terminated : bool).

Record Window := {
  playlist : list (list string);
  index : Z;
  list_view : list string;          (* the texts of the rows, top to bottom *)
  get_volume_0_100 : Z;
  get_muted : bool;
  calls : list Call
}.

Inductive Res :=
| Ok (w : Window)
| Raise (e : Exn) (w : Window).

Definition window_of (r : Res) : Window :=
  match r with Ok w => w | Raise _ w => w end.

Definition set_playlist (pl : list (list string)) (w : Window) : Window :=
  {| playlist := pl; index := index w; list_view := list_view w;
     get_volume_0_100 := get_volume_0_100 w; get_muted := get_muted w;
     calls := calls w |}.
Definition set_index (i : Z) (w : Window) : Window :=
  {| playlist := playlist w; index := i; list_view := list_view w;
     get_volume_0_100 := get_volume_0_100 w; get_muted := get_muted w;
     calls := calls w |}.
Definition set_list_view (v : list string) (w : Window) : Window :=
  {| playlist := playlist w; index := index w; list_view := v;
     get_volume_0_100 := get_volume_0_100 w; get_muted := get_muted w;
     calls := calls w |}.
Definition call (c : Call) (w : Window) : Window :=
  {| playlist := playlist w; index := index w; list_view := list_view w;
     get_volume_0_100 := get_volume_0_100 w; get_muted := get_muted w;
     calls := calls w ++ [c] |}.

(** The window as [__init__] leaves it. *)
Definition init (vol : Z) (is_muted : bool) : Window :=
  {| playlist := []; index := 0; list_view := [];
     get_volume_0_100 := vol; get_muted := is_muted;
     calls := AudioSetMuted is_muted :: (if is_muted then [] else [AudioSetVolume vol]) |}.

Definition apply_volume_state (w : Window) : Window :=
  let w1 := call (AudioSetMuted (get_muted w)) w in
  if get_muted w then w1 else call (AudioSetVolume (get_volume_0_100 w)) w1.

Definition set_volume_from_main (vol_0_100 : Z) (is_muted : bool) (w : Window) : Window :=
  let w1 := call (AudioSetMuted is_muted) w in
  if is_muted then w1 else call (AudioSetVolume vol_0_100) w1.

(** [playing] tells whether [playbackState()] is [PlayingState]. *)
Definition toggle_pause (playing : bool) (w : Window) : Window :=
  if playing then call PlayerPause w else call PlayerPlay w.

(** [paths] is what the file dialog returned. *)
Definition add_video (paths : list (list string)) (w : Window) : Window :=
  foldl (fun w fp =>
           set_list_view (list_view w ++ [path_name fp])
             (set_playlist (playlist w ++ [fp]) w))
    w paths.

(** [r] is the current row of the list widget.  [takeItem] of a row that
    is not there does nothing; [del] of an index that is not there
    raises. *)
Definition delete_selected (r : Z) (w : Window) : Res :=
  if decide (r < 0) then Ok w
  else
    let w1 := set_list_view (delete (Z.to_nat r) (list_view w)) w in
    if decide (r < Py.len (playlist w1)) then
      let w2 := set_playlist (delete (Z.to_nat r) (playlist w1)) w1 in
      if decide (index w2 >= Py.len (playlist w2))
      then Ok (set_index (Z.max 0 (Py.len (playlist w2) - 1)) w2)
      else Ok w2
    else Raise IndexError w1.

Definition enter_fullscreen (w : Window) : Window :=
  call RightPanelHide (call ShowFullScreen w).

Definition play_current (w : Window) : Res :=
  let w1 := apply_volume_state w in
  match Py.getitem (playlist w1) (index w1) with
  | Some p => Ok (call PlayerPlay (call (PlayerSetSource p) w1))
  | None => Raise IndexError w1
  end.

(** [{p.name: p for p in self.playlist}]: a later item replaces an earlier
    one of the same name. *)
Definition name_to_path (pl : list (list string)) : gmap string (list string) :=
  foldl (fun m p => <[path_name p := p]> m) ∅ pl.

Definition start_play (w : Window) : Res :=
  if decide (list_view w = []) then Ok w
  else
    let order := list_view w in
    let m := name_to_path (playlist w) in
    let w1 := set_playlist (omap (fun n => m !! n) order) w in
    if decide (playlist w1 = []) then Ok w1
    else play_current (enter_fullscreen (set_index 0 w1)).

Definition on_status (status : MediaStatus) (w : Window) : Res :=
  if decide (status ≠ EndOfMedia) then Ok w
  else
    let w1 := set_index (index w + 1) w in
    if decide (index w1 >= Py.len (playlist w1))
    then Ok (call (OnFinish false) (call Close w1))
    else play_current w1.

Definition stop_on_demand (w : Window) : Window :=
  call (OnFinish true) (call Close (call PlayerStop w)).

(** The media statuses in [sts] reported one after the other; a handler
    that raises leaves the window as it was when it raised, and the next
    report is handled all the same. *)
Definition reports (sts : list MediaStatus) (w : Window) : Window :=
  foldl (fun w st => window_of (on_status st w)) w sts.

(** What the collaborators are told when item [p] is played. *)
Definition play_calls (w : Window) (p : list string) : list Call :=
  AudioSetMuted (get_muted w)
  :: (if get_muted w then [] else [AudioSetVolume (get_volume_0_100 w)])
  ++ [PlayerSetSource p; PlayerPlay].

(** The items of the playlist that the rows of the list widget name, in
    the order of the rows: the playlist [start_play] builds. *)
Definition rows_playlist (w : Window) : list (list string) :=
  omap (fun n => name_to_path (playlist w) !! n) (list_view w).

(** The window with its index at [i] and the calls [cs] made. *)
Definition advanced (i : Z) (cs : list Call) (w : Window) : Window :=
  {| playlist := playlist w; index := i; list_view := list_view w;
     get_volume_0_100 := get_volume_0_100 w; get_muted := get_muted w;
     calls := calls w ++ cs |}.

(** The list widget shows the playlist, row by row. *)
Definition aligned (w : Window) : Prop :=
  list_view w = path_name <$> playlist w.

End OnDemandWindow.
(** * Verification *)

(** ** Running handlers symbolically *)

Ltac unfold_monad :=
  unfold pass, call, assign, modify, gets, get, raise, mret, mbind,
    M_ret, M_bind in *.

Lemma bind_ok {A B} (m : M A) (f : A -> M B) w a w' :
  m w = Ok a w' -> (m ≫= f) w = f a w'.
Proof. unfold mbind, M_bind. by intros ->. Qed.

(** ** The primitives on small inputs *)

Example segment_folder_nine_to_ten : segment_folder 540 600 = "09_00-10_00".
Proof. reflexivity. Qed.

Example min_to_hhmm_last_minute : min_to_hhmm 1439 = "23:59".
Proof. reflexivity. Qed.

Example splitlines_mixed_boundaries :
  Py.splitlines ("a" +:+ String Py.CR (String Py.LF ("b" +:+ String Py.LF
                   (String Py.LF ("c" +:+ String Py.LF EmptyString)))))
  = ["a"; "b"; EmptyString; "c"].
Proof. reflexivity. Qed.

Example strip_both_ends : Py.strip "  a b.mp4 " = "a b.mp4".
Proof. reflexivity. Qed.

Example order_file_round_trip :
  order_names (order_text ["b.mp4"; "a b.mp4"]) = ["b.mp4"; "a b.mp4"].
Proof. reflexivity. Qed.

Example order_file_strips_names :
  order_names (order_text [" z.mp4"; "b.mp4"]) = ["z.mp4"; "b.mp4"].
Proof. reflexivity. Qed.

Example getitem_from_the_end :
  Py.getitem [10; 20; 30] (-1) = Some 30 /\ Py.getitem [10; 20; 30] 3 = None.
Proof. split; reflexivity. Qed.

Example endswith_mp4 :
  Py.endswith "a.mp4" ".mp4" = true /\ Py.endswith ".mp4" ".mp4" = true
  /\ Py.endswith "a.MP4" ".mp4" = false /\ Py.endswith "a.mp4.txt" ".mp4" = false.
Proof. repeat split. Qed.

Example windows_are_half_open :
  active_segment demo_world = Some (540, 600)
  /\ active_segment demo_at_ten = Some (600, 660).
Proof. split; vm_compute; reflexivity. Qed.

(** ** Paths *)

#[global] Arguments path_parent : simpl never.
#[global] Arguments path_name : simpl never.
#[global] Arguments path_div : simpl never.
#[global] Arguments segment_dir : simpl never.
#[global] Arguments order_text : simpl never.
#[global] Arguments order_names : simpl never.
#[global] Arguments sorted_names : simpl never.
#[global] Arguments sort_segments : simpl never.

Lemma path_parent_div d n : path_parent (d </> n) = d.
Proof. unfold path_parent, path_div. apply removelast_last. Qed.

Lemma path_name_div d n : path_name (d </> n) = n.
Proof. unfold path_name, path_div. apply last_last. Qed.

(** ** [load_ordered_files] as one step on the directory *)

Lemma load_ordered_files_eq seg w :
  load_ordered_files seg w
  = Ok (merged (segment_dir seg) (entries w seg))
      (with_fs <[segment_dir seg :=
                   <[ORDER_FILE := order_text (path_name <$> merged (segment_dir seg) (entries w seg))]>
                     (entries w seg)]> w).
Proof.
  unfold load_ordered_files, entries, merged, recorded_names.
  unfold mkdir, glob_mp4, path_exists, read_text, write_order, write_text, order_path.
  unfold_monad. cbn.
  rewrite !path_parent_div, !path_name_div.
  destruct (fs w !! segment_dir seg) as [es|] eqn:Hd; cbn.
  - rewrite Hd. cbn. destruct (es !! ORDER_FILE) as [text|] eqn:Ho; cbn.
    + repeat (rewrite ?Hd, ?Ho; cbn). unfold with_fs; cbn. by rewrite Hd.
    + repeat (rewrite ?Hd, ?Ho; cbn). unfold with_fs; cbn. by rewrite Hd.
  - repeat (rewrite ?Hd, ?(lookup_insert_eq (fs w)), ?lookup_empty; cbn).
    unfold with_fs; cbn. rewrite Hd, insert_insert_eq. reflexivity.
Qed.

#[global] Arguments load_ordered_files : simpl never.

Lemma getitem_in_range {A} (l : list A) i :
  0 <= i < Py.len l -> Py.getitem l i = l !! Z.to_nat i.
Proof. intros H. unfold Py.getitem, Py.len in *. by rewrite decide_True. Qed.

Lemma getitem_is_Some {A} (l : list A) i :
  0 <= i < Py.len l -> is_Some (Py.getitem l i).
Proof.
  intros H. rewrite getitem_in_range by done.
  apply lookup_lt_is_Some. unfold Py.len in H. lia.
Qed.

Lemma len_pos {A} (l : list A) : l ≠ [] -> 0 < Py.len l.
Proof. destruct l; [done|]. unfold Py.len. cbn. lia. Qed.

Lemma apply_volume_eq w :
  apply_volume_to_main_audio w
  = Ok tt (with_calls (fun l => l ++ volume_calls (self w)) w).
Proof.
  unfold apply_volume_to_main_audio, volume_calls. unfold_monad. cbn.
  destruct (muted (self w)); cbn; unfold with_calls; cbn; [done|].
  by rewrite <- app_assoc.
Qed.

Lemma play_current_ok w p :
  Py.getitem (current_playlist (self w)) (current_index (self w)) = Some p ->
  play_current w = Ok tt (with_calls (fun l => l ++ play_calls (self w) p) w).
Proof.
  intros Hp. unfold play_current.
  rewrite (bind_ok _ _ w (current_playlist (self w)) w) by done.
  destruct (decide (current_playlist (self w) = [])) as [He|Hne].
  { rewrite He in Hp. by destruct (current_index (self w)). }
  rewrite (bind_ok _ _ _ _ _ (apply_volume_eq w)).
  unfold item. unfold_monad. cbn. rewrite Hp. cbn.
  unfold with_calls, play_calls; cbn. by rewrite <- !app_assoc.
Qed.

#[global] Arguments play_current : simpl never.
#[global] Arguments apply_volume_to_main_audio : simpl never.

Lemma start_segment_spec seg w :
  exists w',
    start_segment seg w = Ok tt w'
    /\ current_segment (self w') = Some seg
    /\ waiting_next_segment (self w') = None
    /\ current_playlist (self w') = merged (segment_dir seg) (entries w seg)
    /\ current_index (self w') = 0
    /\ same_controls (self w) (self w')
    /\ same_surroundings w w'
    /\ fs w' = <[segment_dir seg :=
                   <[ORDER_FILE := order_text (path_name <$> merged (segment_dir seg) (entries w seg))]>
                     (entries w seg)]> (fs w)
    /\ calls w' = calls w ++
         match merged (segment_dir seg) (entries w seg) with
         | [] => []
         | p :: _ => [ShowFullScreen; LeftPanelHide] ++ play_calls (self w) p
         end.
Proof.
  unfold start_segment, enter_fullscreen. unfold_monad. cbn.
  rewrite load_ordered_files_eq. cbn.
  unfold entries at 1 2. cbn. fold (entries w seg).
  set (pl := merged _ _).
  destruct pl as [|p pl'] eqn:Hpl; cbn.
  - eexists. split; [reflexivity|]. cbn. rewrite app_nil_r. by repeat split.
  - rewrite decide_False by done.
    erewrite play_current_ok by (cbn; reflexivity).
    eexists. split; [reflexivity|]. cbn.
    repeat split; try done. by rewrite <- !app_assoc.
Qed.

(** ** Computations that keep a property of the world *)

Section Keeps.
Context (I : World -> Prop).

Lemma keeps_ret {A} (a : A) : keeps I (mret a).
Proof. by intros w. Qed.

Lemma keeps_raise {A} e : keeps I (@raise A e).
Proof. by intros w. Qed.

Lemma keeps_bind {A B} (m : M A) (f : A -> M B) :
  keeps I m -> (forall a, keeps I (f a)) -> keeps I (m ≫= f).
Proof.
  intros Hm Hf w Hw. specialize (Hm w Hw).
  unfold mbind, M_bind. destruct (m w) as [a w'|e w']; cbn in *; [|done].
  by apply Hf.
Qed.

Lemma keeps_get : keeps I get.
Proof. by intros w. Qed.

Lemma keeps_gets {A} (f : MainWindow -> A) : keeps I (gets f).
Proof. by intros w. Qed.

Lemma keeps_modify f : (forall w, I w -> I (f w)) -> keeps I (modify f).
Proof. intros H w Hw. by apply H. Qed.

Lemma keeps_for_each {A} (l : list A) body :
  (forall x, keeps I (body x)) -> keeps I (for_each l body).
Proof.
  intros H. induction l as [|x l IH]; cbn; [apply keeps_ret|].
  apply keeps_bind; auto.
Qed.
End Keeps.

Lemma find_active_segment_eq w : find_active_segment w = Ok (active_segment w) w.
Proof. reflexivity. Qed.

#[global] Arguments find_active_segment : simpl never.
#[global] Arguments start_segment : simpl never.

Lemma check_real_time_eq w :
  check_real_time w =
    if negb (running (self w)) || in_interrupt (self w) then Ok tt w
    else match active_segment w with
         | None => Ok tt w
         | Some a =>
             if decide (current_segment (self w) ≠ Some a) then
               if bool_decide (is_Some (current_segment (self w)))
                  && graceful_switch_box (self w)
               then Ok tt (with_self (fun s => set_waiting_next_segment s (Some a)) w)
               else start_segment a w
             else Ok tt w
         end.
Proof.
  unfold check_real_time. unfold_monad. cbn.
  destruct (negb (running (self w)) || in_interrupt (self w)); [done|].
  rewrite find_active_segment_eq. destruct (active_segment w) as [a|]; [|done].
  destruct (decide _); [|done].
  by destruct (bool_decide _ && _).
Qed.

#[global] Arguments check_real_time : simpl never.

Lemma on_media_status_eq w :
  on_media_status EndOfMedia w =
    if negb (running (self w)) || in_interrupt (self w) then Ok tt w
    else match waiting_next_segment (self w) with
         | Some nxt => start_segment nxt w
         | None =>
             if decide (current_playlist (self w) = []) then Ok tt w
             else play_current
                    (with_self (fun s => set_current_index s
                       ((current_index s + 1) mod Py.len (current_playlist (self w)))) w)
         end.
Proof.
  unfold on_media_status.
  destruct (decide (EndOfMedia ≠ EndOfMedia)) as [?|_]; [done|].
  unfold_monad. cbn.
  destruct (negb (running (self w)) || in_interrupt (self w)); [done|].
  destruct (waiting_next_segment (self w)); [done|].
  by destruct (decide _).
Qed.

Lemma on_media_status_other st w :
  st ≠ EndOfMedia -> on_media_status st w = Ok tt w.
Proof.
  intros H. unfold on_media_status. destruct (decide (st ≠ EndOfMedia)); done.
Qed.

#[global] Arguments on_media_status : simpl never.

Lemma run_nil w : run [] w = w.
Proof. reflexivity. Qed.

Lemma run_cons ev evs w : run (ev :: evs) w = run evs (world_of (handle ev w)).
Proof. reflexivity. Qed.

Lemma run_app evs1 evs2 w : run (evs1 ++ evs2) w = run evs2 (run evs1 w).
Proof. unfold run. apply foldl_app. Qed.

#[global] Arguments run : simpl never.

(** ** Handlers that leave the window alone *)

Ltac keeps_step :=
  lazymatch goal with
  | |- keeps _ (mbind _ _) => apply keeps_bind; [|intros ?]
  | |- keeps _ (mret _) => apply keeps_ret
  | |- keeps _ pass => apply keeps_ret
  | |- keeps _ (raise _) => apply keeps_raise
  | |- keeps _ get => apply keeps_get
  | |- keeps _ (gets _) => apply keeps_gets
  | |- keeps _ (call _) => apply keeps_modify; intros ? ?; assumption
  | |- keeps _ (modify _) => apply keeps_modify; intros ? ?; assumption
  | |- keeps _ (for_each _ _) => apply keeps_for_each; intros ?
  | |- keeps _ (match ?x with _ => _ end) => destruct x
  | |- keeps _ _ => solve [auto with keeps]
  end.
Ltac solve_keeps := repeat keeps_step.

Create HintDb keeps.

Section SelfUnchanged.
Context (s : MainWindow).
Local Abbreviation I := (fun w => self w = s).

Lemma mkdir_self d : keeps I (mkdir d).
Proof. unfold mkdir. solve_keeps. Qed.
Lemma path_exists_self p : keeps I (path_exists p).
Proof. unfold path_exists. solve_keeps. Qed.
Lemma write_text_self p t : keeps I (write_text p t).
Proof. unfold write_text. solve_keeps. Qed.
Lemma read_text_self p : keeps I (read_text p).
Proof. unfold read_text. solve_keeps. Qed.
Lemma unlink_self p : keeps I (unlink p).
Proof. unfold unlink. solve_keeps. Qed.
Lemma rmtree_self p : keeps I (rmtree p).
Proof. unfold rmtree. solve_keeps. Qed.
Lemma save_csv_self : keeps I save_csv.
Proof. unfold save_csv. solve_keeps. Qed.
Hint Resolve mkdir_self path_exists_self write_text_self read_text_self
  unlink_self rmtree_self save_csv_self : keeps.

Lemma copy_self a b : keeps I (copy a b).
Proof. unfold copy. solve_keeps. Qed.
Lemma write_order_self seg names : keeps I (write_order seg names).
Proof. unfold write_order. solve_keeps. Qed.
Lemma load_ordered_files_self seg : keeps I (load_ordered_files seg).
Proof. intros w Hw. by rewrite load_ordered_files_eq. Qed.
Lemma selected_segment_self idx : keeps I (selected_segment idx).
Proof. unfold selected_segment. solve_keeps. Qed.
Hint Resolve copy_self write_order_self load_ordered_files_self
  selected_segment_self : keeps.

Lemma refresh_playlist_view_self idx : keeps I (refresh_playlist_view idx).
Proof. unfold refresh_playlist_view. solve_keeps. Qed.
Lemma save_ui_order_self idx view :
  keeps I (save_ui_order_for_selected_segment idx view).
Proof. unfold save_ui_order_for_selected_segment. solve_keeps. Qed.
Hint Resolve refresh_playlist_view_self save_ui_order_self : keeps.
Lemma refresh_segments_self : keeps I refresh_segments.
Proof. unfold refresh_segments. solve_keeps. Qed.

Lemma add_video_self idx paths : keeps I (add_video idx paths).
Proof. unfold add_video. solve_keeps. Qed.
Lemma delete_video_self idx view r : keeps I (delete_video idx view r).
Proof. unfold delete_video. solve_keeps. Qed.
Lemma toggle_pause_dispatch_self : keeps I toggle_pause_dispatch.
Proof. unfold toggle_pause_dispatch, toggle_main_pause. solve_keeps. Qed.
Lemma apply_volume_self : keeps I apply_volume_to_main_audio.
Proof. intros w Hw. by rewrite apply_volume_eq. Qed.
Lemma push_volume_self : keeps I push_volume_to_ondemand.
Proof. unfold push_volume_to_ondemand. solve_keeps. Qed.
Lemma enter_fullscreen_self : keeps I enter_fullscreen.
Proof. unfold enter_fullscreen. solve_keeps. Qed.
Lemma item_self {A} (l : list A) i : keeps I (item l i).
Proof. unfold item. solve_keeps. Qed.
Hint Resolve apply_volume_self item_self : keeps.
Lemma play_current_self : keeps I play_current.
Proof. unfold play_current. solve_keeps. Qed.
End SelfUnchanged.

#[global] Hint Resolve mkdir_self path_exists_self write_text_self
  read_text_self unlink_self rmtree_self save_csv_self copy_self
  write_order_self load_ordered_files_self selected_segment_self
  refresh_playlist_view_self save_ui_order_self add_video_self
  delete_video_self toggle_pause_dispatch_self apply_volume_self
  push_volume_self enter_fullscreen_self item_self play_current_self
  refresh_segments_self : keeps.

(** A computation that leaves the window alone keeps every property of it. *)
Lemma keeps_of_self {A} (m : M A) (P : MainWindow -> Prop) :
  (forall s, keeps (fun w => self w = s) m) -> keeps (fun w => P (self w)) m.
Proof. intros H w Hw. by rewrite (H (self w) w eq_refl). Qed.

Lemma world_eq w1 w2 :
  self w1 = self w2 -> fs w1 = fs w2 -> csv_rows w1 = csv_rows w2 ->
  now w1 = now w2 -> player_position w1 = player_position w2 ->
  player_playing w1 = player_playing w2 ->
  ondemand_visible w1 = ondemand_visible w2 -> calls w1 = calls w2 ->
  w1 = w2.
Proof. destruct w1, w2; cbn; intros; by subst. Qed.

Lemma stop_playback_state_eq w :
  stop_playback_state w = Ok tt (with_self idle w).
Proof. reflexivity. Qed.

#[global] Arguments stop_playback_state : simpl never.
#[global] Arguments enter_fullscreen : simpl never.

Lemma resume_from_interrupt_eq t w :
  resume_from_interrupt t w =
    let w1 := with_self (fun s => set_ondemand_window (set_in_interrupt s false) false) w in
    if negb (running (self w)) then Ok tt w1
    else match interrupt_state (self w) with
         | None => check_real_time w1
         | Some (seg, plist, idx, pos, wnext) =>
             if bool_decide (is_Some seg) && bool_decide (active_segment w = seg)
                && bool_decide (plist ≠ [])
             then
               let i := Z.min idx (Py.len plist - 1) in
               let s' := with_playback seg plist i wnext (interrupt_cleared (self w)) in
               match Py.getitem plist i with
               | Some p =>
                   Ok tt (with_calls (fun l => l ++ resume_calls (self w) p pos)
                            (with_self (fun _ => s') w))
               | None =>
                   Raise IndexError
                     (with_calls (fun l => l ++ [ShowFullScreen; LeftPanelHide]
                                             ++ volume_calls (self w))
                        (with_self (fun _ => s') w))
               end
             else check_real_time (with_self (fun s => idle (interrupt_cleared s)) w)
         end.
Proof.
  unfold resume_from_interrupt. unfold_monad. cbn.
  destruct (running (self w)); cbn; [|done].
  destruct (interrupt_state (self w)) as [[[[[seg plist] idx] pos] wnext]|]; [|done].
  cbn. rewrite find_active_segment_eq.
  change (active_segment (with_self _ _)) with (active_segment w).
  destruct (_ && _ && _); [|by rewrite stop_playback_state_eq].
  unfold enter_fullscreen. unfold_monad. cbn. rewrite apply_volume_eq. cbn.
  unfold item. destruct (Py.getitem plist _); cbn.
  - f_equal. apply world_eq; try reflexivity.
    cbn [calls with_calls with_self]. unfold resume_calls.
    rewrite <- !app_assoc. reflexivity.
  - f_equal. apply world_eq; try reflexivity.
    cbn [calls with_calls with_self]. rewrite <- !app_assoc. reflexivity.
Qed.

#[global] Arguments resume_from_interrupt : simpl never.

(** ** Graceful switch *)

Lemma tick_keeps_current c pl i cs ev :
  is_tick ev ->
  keeps (fun w =>
           running (self w) = true /\ in_interrupt (self w) = false
           /\ graceful_switch_box (self w) = true
           /\ current_segment (self w) = Some c
           /\ is_Some (waiting_next_segment (self w))
           /\ current_playlist (self w) = pl /\ current_index (self w) = i
           /\ calls w = cs) (handle ev).
Proof.
  intros Hev w (Hr & Hi & Hg & Hc & Hw & Hpl & Hidx & Hcs).
  destruct ev; try done; cbn.
  rewrite check_real_time_eq, Hr, Hi, Hc, Hg. cbn.
  destruct (active_segment w) as [a|]; [|done].
  destruct (decide _); cbn; [|done]. by repeat split.
Qed.

Lemma ticks_keep_current c pl i cs evs w :
  Forall is_tick evs ->
  running (self w) = true -> in_interrupt (self w) = false ->
  graceful_switch_box (self w) = true ->
  current_segment (self w) = Some c ->
  is_Some (waiting_next_segment (self w)) ->
  current_playlist (self w) = pl -> current_index (self w) = i ->
  calls w = cs ->
  let w' := run evs w in
  running (self w') = true /\ in_interrupt (self w') = false
  /\ graceful_switch_box (self w') = true
  /\ current_segment (self w') = Some c
  /\ is_Some (waiting_next_segment (self w'))
  /\ current_playlist (self w') = pl /\ current_index (self w') = i
  /\ calls w' = cs.
Proof.
  intros Hevs. revert w. induction Hevs as [|ev evs Hev _ IH]; intros w; cbn.
  - rewrite run_nil. by repeat split.
  - rewrite run_cons.
    intros. pose proof (tick_keeps_current c pl i cs ev Hev w) as H'.
    cbn beta in H'. destruct H' as (?&?&?&?&?&?&?&?); [by repeat split|].
    by apply IH.
Qed.

(** C3. Graceful switch deferral: when a tick finds the active window [a]
    different from the current window [c] while graceful-switch mode is on,
    the tick only records [a] as the pending window.  Through any further
    ticks and changes of the clock the current window, playlist, index and
    the calls made to the player stay as they were; the switch happens at
    the next end-of-media notification, which starts the pending window:
    that window becomes the current one and nothing is pending any more,
    the playlist is the one [load_ordered_files] resolves for it, the
    index is 0, and its first item is played, if it has one. *)
Theorem graceful_switch_deferral w a c evs :
  running (self w) = true -> in_interrupt (self w) = false ->
  graceful_switch_box (self w) = true ->
  active_segment w = Some a -> current_segment (self w) = Some c -> c ≠ a ->
  Forall is_tick evs ->
  check_real_time w
    = Ok tt (with_self (fun s => set_waiting_next_segment s (Some a)) w)
  /\ let w' := run (EvTick :: evs) w in
     current_segment (self w') = Some c
     /\ current_playlist (self w') = current_playlist (self w)
     /\ current_index (self w') = current_index (self w)
     /\ calls w' = calls w
     /\ exists p w'',
          waiting_next_segment (self w') = Some p
          /\ handle (EvMediaStatus EndOfMedia) w' = start_segment p w'
          /\ start_segment p w' = Ok tt w''
          /\ current_segment (self w'') = Some p
          /\ current_index (self w'') = 0
          /\ waiting_next_segment (self w'') = None
          /\ (exists wl,
                load_ordered_files p w' = Ok (current_playlist (self w'')) wl)
          /\ calls w''
             = calls w'
               ++ match current_playlist (self w'') with
                  | [] => []
                  | q :: _ => [ShowFullScreen; LeftPanelHide] ++ play_calls (self w') q
                  end.
Proof.
  intros Hr Hi Hg Ha Hc Hne Hevs.
  assert (check_real_time w
    = Ok tt (with_self (fun s => set_waiting_next_segment s (Some a)) w)) as Htick.
  { rewrite check_real_time_eq, Hr, Hi, Ha, Hc, Hg. cbn.
    rewrite decide_True by congruence. done. }
  split; [done|]. rewrite run_cons. cbn [handle]. rewrite Htick. cbn [world_of].
  set (w1 := with_self _ w).
  destruct (ticks_keep_current c (current_playlist (self w))
              (current_index (self w)) (calls w) evs w1)
    as (Hr' & Hi' & _ & Hc' & [p Hp] & Hpl' & Hidx' & Hcs'); try done.
  repeat split; try done.
  destruct (start_segment_spec p (run evs w1))
    as (w'' & Hs & Hcur & Hw & Hpl & Hz & _ & _ & _ & Hcalls).
  exists p, w''. split; [done|].
  split.
  { change (on_media_status EndOfMedia (run evs w1) = start_segment p (run evs w1)).
    by rewrite on_media_status_eq, Hr', Hi', Hp. }
  do 4 (split; [done|]). split.
  - rewrite Hpl, load_ordered_files_eq. by eexists.
  - by rewrite Hcalls, Hpl.
Qed.

Lemma graceful_switch_deferral_witness :
  let w' := run [EvTick; EvTick; EvTick] demo_at_ten in
  current_segment (self w') = Some (540, 600)
  /\ current_index (self w') = current_index (self demo_at_ten)
  /\ calls w' = calls demo_at_ten
  /\ exists w'',
       handle (EvMediaStatus EndOfMedia) w' = Ok tt w''
       /\ current_segment (self w'') = Some (600, 660)
       /\ waiting_next_segment (self w'') = None
       /\ current_playlist (self w'') = [segment_dir (600, 660) </> "n.mp4"]
       /\ current_index (self w'') = 0
       /\ calls w''
          = calls w' ++ [ShowFullScreen; LeftPanelHide]
            ++ play_calls (self w') (segment_dir (600, 660) </> "n.mp4").
Proof.
  assert (Forall is_tick [EvTick; EvTick]) as Hticks by (repeat constructor).
  assert ((540, 600) ≠ (600, 660)) as Hne by (intros [=]).
  pose proof (graceful_switch_deferral demo_at_ten (600, 660) (540, 600)
                [EvTick; EvTick]) as H.
  cbv zeta in H.
  destruct H as (_ & H1 & _ & H3 & H4 & p & w'' & Hp & Hh & Hs & Hc & Hz & Hw & [wl Hl] & Hcs);
    [vm_compute; reflexivity..|exact Hne|exact Hticks|].
  cbv zeta. split; [exact H1|]. split; [exact H3|]. split; [exact H4|].
  assert (p = (600, 660)) as -> by (vm_compute in Hp; by injection Hp as <-).
  assert (current_playlist (self w'') = [segment_dir (600, 660) </> "n.mp4"]) as Hpl.
  { remember (current_playlist (self w'')) as pl eqn:Epl. clear Epl.
    vm_compute in Hl. injection Hl as Hl _. rewrite <- Hl. vm_compute. reflexivity. }
  exists w''. split; [by rewrite Hh|]. do 2 (split; [done|]). split; [exact Hpl|].
  split; [done|]. rewrite Hcs, Hpl. reflexivity.
Defined.

(** ** Looping *)

Lemma end_of_media_advances w :
  running (self w) = true -> in_interrupt (self w) = false ->
  waiting_next_segment (self w) = None -> current_playlist (self w) ≠ [] ->
  let i' := (current_index (self w) + 1) mod Py.len (current_playlist (self w)) in
  exists p,
    Py.getitem (current_playlist (self w)) i' = Some p
    /\ on_media_status EndOfMedia w
       = Ok tt (with_calls (fun l => l ++ play_calls (self w) p)
                  (with_self (fun s => set_current_index s i') w)).
Proof.
  intros Hr Hi Hw Hne i'.
  assert (0 <= i' < Py.len (current_playlist (self w))) as Hi'.
  { apply Z.mod_pos_bound. by apply len_pos. }
  destruct (getitem_is_Some _ _ Hi') as [p Hp]. exists p. split; [done|].
  rewrite on_media_status_eq, Hr, Hi, Hw. cbn.
  rewrite decide_False by done.
  by erewrite play_current_ok by (cbn; exact Hp).
Qed.

(** C4. Looping: with a run in progress, no interruption and no pending
    window, an end-of-media notification on a playlist of [n >= 1] items
    moves the index to [(index + 1) mod n] and plays the item there; after
    [k >= 1] such notifications the index is [(index + k) mod n], so a
    three-item playlist started at 0 goes 0, 1, 2, 0, 1, 2, ... *)
Theorem end_of_media_loops w :
  running (self w) = true -> in_interrupt (self w) = false ->
  waiting_next_segment (self w) = None -> current_playlist (self w) ≠ [] ->
  let pl := current_playlist (self w) in
  let n := Py.len pl in
  (exists p,
     Py.getitem pl ((current_index (self w) + 1) mod n) = Some p
     /\ handle (EvMediaStatus EndOfMedia) w
        = Ok tt (with_calls (fun l => l ++ play_calls (self w) p)
                   (with_self (fun s =>
                      set_current_index s ((current_index (self w) + 1) mod n)) w)))
  /\ forall k : nat, (0 < k)%nat ->
       let w' := run (replicate k (EvMediaStatus EndOfMedia)) w in
       current_index (self w') = (current_index (self w) + Z.of_nat k) mod n
       /\ current_playlist (self w') = pl.
Proof.
  intros Hr Hi Hw Hne pl n. split.
  { destruct (end_of_media_advances w Hr Hi Hw Hne) as (p & Hp & Hs).
    exists p. by split. }
  assert (0 < n) as Hn by by apply len_pos.
  assert (forall k w1,
    running (self w1) = true -> in_interrupt (self w1) = false ->
    waiting_next_segment (self w1) = None -> current_playlist (self w1) = pl ->
    let w' := run (replicate k (EvMediaStatus EndOfMedia)) w1 in
    current_index (self w') mod n = (current_index (self w1) + Z.of_nat k) mod n
    /\ ((0 < k)%nat -> 0 <= current_index (self w') < n)
    /\ current_playlist (self w') = pl) as Hgen.
  { induction k as [|k IH]; intros w1 Hr1 Hi1 Hw1 Hpl1.
    { cbn. rewrite run_nil, Z.add_0_r. repeat split; [lia..|done]. }
    cbn [replicate]. rewrite run_cons.
    destruct (end_of_media_advances w1) as (p & _ & Hs); try done.
    { by rewrite Hpl1. }
    change (handle (EvMediaStatus EndOfMedia) w1) with (on_media_status EndOfMedia w1).
    rewrite Hs. cbn [world_of]. rewrite Hpl1 in *. fold n in Hs |- *.
    set (w2 := with_calls _ _).
    destruct (IH w2) as (Hm & Hb & Hp'); try done.
    assert (current_index (self w2) = (current_index (self w1) + 1) mod n) as Hw2 by done.
    rewrite Hw2 in Hm. split; [|split; [|done]].
    - rewrite Hm, Zplus_mod_idemp_l. f_equal. lia.
    - intros _. destruct k as [|k']; [|apply Hb; lia].
      cbn [replicate]. rewrite run_nil, Hw2. by apply Z.mod_pos_bound. }
  intros k Hk w'. destruct (Hgen k w) as (Hm & Hb & Hp'); try done.
  split; [|done]. rewrite <- Hm. symmetry. apply Z.mod_small. auto.
Qed.

Lemma end_of_media_loops_witness :
  current_index (self demo_running) = 0
  /\ Py.len (current_playlist (self demo_running)) = 3
  /\ forall k : nat, (0 < k)%nat ->
       current_index
         (self (run (replicate k (EvMediaStatus EndOfMedia)) demo_running))
       = Z.of_nat k mod 3.
Proof.
  pose proof (end_of_media_loops demo_running) as H. cbv zeta in H.
  destruct H as [_ Hk];
    [vm_compute; reflexivity..|vm_compute; intros [=]|].
  split; [vm_compute; reflexivity|]. split; [vm_compute; reflexivity|].
  intros k Hpos. destruct (Hk k Hpos) as [Hidx _]. exact Hidx.
Defined.

(** The index sequence of a three-item playlist, six notifications on. *)
Example looping_three_items :
  (fun k => current_index
              (self (run (replicate k (EvMediaStatus EndOfMedia)) demo_running)))
    <$> [0; 1; 2; 3; 4; 5; 6]%nat
  = [0; 1; 2; 0; 1; 2; 0].
Proof. vm_compute. reflexivity. Qed.

(** ** Starting a run *)

Lemma glob_mp4_eq seg w :
  glob_mp4 (segment_dir seg) w = Ok (mp4_files (segment_dir seg) (entries w seg)) w.
Proof. reflexivity. Qed.

#[global] Arguments glob_mp4 : simpl never.

Lemma mp4_files_lookup d es n :
  mp4_files d es !! n
  = if Py.endswith n ".mp4" then (fun _ => d </> n) <$> es !! n else None.
Proof.
  unfold mp4_files. rewrite map_lookup_imap.
  destruct (es !! n); cbn; by destruct (Py.endswith n ".mp4").
Qed.

Lemma mp4_files_empty_iff w seg :
  mp4_files (segment_dir seg) (entries w seg) = ∅ <-> forall n, ~ playable w seg n.
Proof.
  unfold playable. split.
  - intros He n [[x Hx] Hn].
    assert (mp4_files (segment_dir seg) (entries w seg) !! n = None) as Hl
      by (rewrite He; apply lookup_empty).
    rewrite mp4_files_lookup, Hn, Hx in Hl. done.
  - intros H. apply map_eq. intros n. rewrite lookup_empty, mp4_files_lookup.
    destruct (Py.endswith n ".mp4") eqn:Hn; [|done].
    destruct (entries w seg !! n) eqn:Hx; [|done].
    exfalso. apply (H n). split; [by eexists|done].
Qed.

Lemma any_segment_has_video_in_spec segs w :
  exists b, any_segment_has_video_in segs w = Ok b w
            /\ (b = true <-> exists seg n, seg ∈ segs /\ playable w seg n).
Proof.
  induction segs as [|seg segs (b & Hb & IH)]; cbn.
  - exists false. split; [done|]. split; [done|].
    intros (seg & n & Hin & _). by apply elem_of_nil in Hin.
  - unfold_monad. rewrite glob_mp4_eq.
    destruct (decide (mp4_files (segment_dir seg) (entries w seg) = ∅)) as [He|Hne].
    + exists b. split; [done|]. rewrite IH. split.
      * intros (s & n & Hin & Hp). exists s, n. split; [by right|done].
      * intros (s & n & Hin & Hp). apply elem_of_cons in Hin as [->|Hin].
        -- by apply mp4_files_empty_iff in Hp.
        -- by exists s, n.
    + exists true. split; [done|]. split; [|done]. intros _.
      destruct (map_choose _ Hne) as (n & p & Hl).
      rewrite mp4_files_lookup in Hl.
      destruct (Py.endswith n ".mp4") eqn:Hn; [|done].
      exists seg, n. split; [by left|]. split; [|done].
      destruct (entries w seg !! n); [by eexists|done].
Qed.

#[global] Arguments any_segment_has_video_in : simpl never.

(** C9. A rejected start request is atomic: with no run in progress, if no
    window is defined or no window has a playable item, [toggle_run] only
    shows a warning.  The attributes of the window ([running] stays false,
    the playback state), the file system and the surroundings are as
    before, and no call reaches the timer or the player. *)
Theorem rejected_start_is_atomic w :
  running (self w) = false ->
  time_ranges (self w) = []
  \/ (forall seg n, seg ∈ time_ranges (self w) -> ~ playable w seg n) ->
  exists msg,
    (msg = MsgNoSegments \/ msg = MsgNoVideos)
    /\ handle EvToggleRun w
       = Ok tt (with_calls (fun l => l ++ [MessageBox msg]) w).
Proof.
  intros Hr Hno. cbn [handle]. unfold toggle_run. unfold_monad. cbn. rewrite Hr. cbn.
  destruct (decide (time_ranges (self w) = [])) as [He|Hne].
  { exists MsgNoSegments. by split; [left|]. }
  destruct Hno as [?|Hno]; [done|].
  unfold any_segment_has_video. unfold_monad. cbn.
  destruct (any_segment_has_video_in_spec (time_ranges (self w)) w) as (b & -> & Hb).
  destruct b.
  - destruct Hb as [Hb _]. destruct (Hb eq_refl) as (seg & n & Hin & Hp).
    by destruct (Hno seg n).
  - exists MsgNoVideos. by split; [right|].
Qed.

Lemma rejected_start_is_atomic_witness :
  exists msg,
    handle EvToggleRun (with_fs (fun _ => ∅) demo_world)
    = Ok tt (with_calls (fun l => l ++ [MessageBox msg])
               (with_fs (fun _ => ∅) demo_world)).
Proof.
  destruct (rejected_start_is_atomic (with_fs (fun _ => ∅) demo_world))
    as (msg & _ & H).
  - vm_compute. reflexivity.
  - right. intros seg n _ [[x Hx] _]. unfold entries in Hx.
    cbn in Hx. rewrite lookup_empty in Hx. cbn in Hx.
    by rewrite lookup_empty in Hx.
  - by exists msg.
Defined.

(** ** Adding windows *)

Lemma has_overlap_true_iff rs s e :
  has_overlap rs (s, e) = true
  <-> exists a, a ∈ rs /\ Z.max a.1 s < Z.min a.2 e.
Proof.
  unfold has_overlap. rewrite existsb_exists. split.
  - intros ([s0 e0] & Hin & Hlt). apply bool_decide_eq_true in Hlt.
    exists (s0, e0). by rewrite list_elem_of_In.
  - intros ([s0 e0] & Hin & Hlt). exists (s0, e0).
    rewrite <- list_elem_of_In. split; [done|]. by apply bool_decide_eq_true.
Qed.

Lemma has_overlap_false_iff rs s e :
  has_overlap rs (s, e) = false
  <-> forall a, a ∈ rs -> ~ (Z.max a.1 s < Z.min a.2 e).
Proof.
  rewrite <- not_true_iff_false, has_overlap_true_iff. split.
  - intros H a Hin Hlt. apply H. by exists a.
  - intros H (a & Hin & Hlt). by apply (H a).
Qed.

#[global] Arguments has_overlap : simpl never.

Lemma add_segment_invalid st et w :
  qtime_to_min et < qtime_to_min st ->
  add_segment st et w = Ok tt (with_calls (fun l => l ++ [MessageBox MsgInvalidRange]) w).
Proof.
  intros H. unfold add_segment. unfold_monad. cbn. by rewrite decide_True.
Qed.

Lemma add_segment_overlap st et w :
  has_overlap (time_ranges (self w)) (qtime_to_min st, qtime_to_min et) = true ->
  add_segment st et w = Ok tt (with_calls (fun l => l ++ [MessageBox MsgOverlap]) w).
Proof.
  intros H. unfold add_segment. unfold_monad. cbn.
  destruct (decide (qtime_to_min et < qtime_to_min st)) as [Hlt|_].
  - apply has_overlap_true_iff in H as (a & _ & H). lia.
  - by rewrite H.
Qed.

(** What [refresh_segments] leaves behind: the order file of the first
    window of the schedule is written anew, and nothing else is touched. *)
Lemma refresh_segments_ok w :
  exists w',
    refresh_segments w = Ok tt w'
    /\ self w' = self w /\ calls w' = calls w
    /\ same_surroundings w w'
    /\ fs w' = match time_ranges (self w) with
               | [] => fs w
               | hd :: _ => fs (world_of (load_ordered_files hd w))
               end.
Proof.
  unfold refresh_segments, refresh_playlist_view, selected_segment. unfold_monad.
  cbn [self]. destruct (time_ranges (self w)) as [|hd rs] eqn:Hrs.
  - rewrite decide_True by done. by eexists.
  - rewrite decide_False by done. rewrite Hrs.
    rewrite decide_False by (unfold Py.len; cbn [length]; lia).
    change ((hd :: rs) !! Z.to_nat 0) with (Some hd).
    cbv beta iota. rewrite load_ordered_files_eq.
    eexists. split; [reflexivity|]. done.
Qed.

#[global] Arguments refresh_segments : simpl never.

Lemma add_segment_accepted st et w :
  ~ qtime_to_min et < qtime_to_min st ->
  has_overlap (time_ranges (self w)) (qtime_to_min st, qtime_to_min et) = false ->
  exists w',
    add_segment st et w = Ok tt w'
    /\ self w' = set_time_ranges (self w)
                   (sort_segments (time_ranges (self w)
                                   ++ [(qtime_to_min st, qtime_to_min et)]))
    /\ calls w' = calls w.
Proof.
  intros Hge Hno. unfold add_segment. unfold_monad. cbn.
  rewrite decide_False by done. rewrite Hno.
  unfold mkdir, write_order, write_text, save_csv, order_path. unfold_monad. cbn.
  rewrite path_parent_div.
  destruct (fs w !! segment_dir (qtime_to_min st, qtime_to_min et)) as [es|] eqn:Hd.
  - rewrite Hd. cbn.
    match goal with |- context [refresh_segments ?w1] =>
      destruct (refresh_segments_ok w1) as (w' & -> & Hs & Hc & _) end.
    exists w'. split; [done|]. by rewrite Hs, Hc.
  - rewrite (lookup_insert_eq (fs w)). cbn.
    match goal with |- context [refresh_segments ?w1] =>
      destruct (refresh_segments_ok w1) as (w' & -> & Hs & Hc & _) end.
    exists w'. split; [done|]. by rewrite Hs, Hc.
Qed.

#[global] Arguments add_segment : simpl never.

Lemma no_overlap_nil : no_overlap [].
Proof. intros i j a b _ H. by rewrite lookup_nil in H. Qed.

Lemma no_overlap_Permutation l1 l2 : l1 ≡ₚ l2 -> no_overlap l2 -> no_overlap l1.
Proof.
  intros Hp H i j a b Hij Hi Hj.
  apply Permutation_inj in Hp as (_ & f & Hf & Hl).
  apply (H (f i) (f j) a b); rewrite <- ?Hl; try done.
  intros Heq. by apply Hij, Hf.
Qed.

Lemma no_overlap_snoc l x :
  no_overlap l -> (forall a, a ∈ l -> ~ (Z.max a.1 x.1 < Z.min a.2 x.2)) ->
  no_overlap (l ++ [x]).
Proof.
  intros Hl Hx i j a b Hij Hi Hj.
  apply lookup_snoc_Some in Hi as [[Hi1 Hi2]|[Hi1 <-]];
    apply lookup_snoc_Some in Hj as [[Hj1 Hj2]|[Hj1 <-]].
  - by apply (Hl i j).
  - apply Hx. by eapply list_elem_of_lookup_2.
  - intros H. apply (Hx b); [by eapply list_elem_of_lookup_2|]. lia.
  - lia.
Qed.

Lemma add_segment_no_overlap st et w :
  no_overlap (time_ranges (self w)) ->
  no_overlap (time_ranges (self (world_of (add_segment st et w)))).
Proof.
  intros H.
  destruct (decide (qtime_to_min et < qtime_to_min st)) as [Hlt|Hge].
  { by rewrite add_segment_invalid. }
  destruct (has_overlap (time_ranges (self w)) (qtime_to_min st, qtime_to_min et)) eqn:Ho.
  { by rewrite add_segment_overlap. }
  destruct (add_segment_accepted st et w Hge Ho) as (w' & -> & Hs & _).
  cbn [world_of]. rewrite Hs. cbn.
  eapply no_overlap_Permutation; [apply merge_sort_Permutation|].
  apply no_overlap_snoc; [done|]. by apply has_overlap_false_iff.
Qed.

(** C2. Non-overlap invariant: whatever windows are added, in whatever
    order, no two windows at different places of the store satisfy
    [max(s1, s2) < min(e1, e2)]; and adding a range for which that holds
    against a stored window only shows the overlap warning and leaves the
    window, the file system and the surroundings as they were. *)
Theorem add_keeps_windows_disjoint w (adds : list (QTime * QTime)) :
  no_overlap (time_ranges (self w)) ->
  no_overlap (time_ranges (self (run ((fun '(s, e) => EvAddSegment s e) <$> adds) w)))
  /\ forall st et a,
       a ∈ time_ranges (self w) ->
       Z.max a.1 (qtime_to_min st) < Z.min a.2 (qtime_to_min et) ->
       handle (EvAddSegment st et) w
       = Ok tt (with_calls (fun l => l ++ [MessageBox MsgOverlap]) w).
Proof.
  intros H. split.
  - revert w H. induction adds as [|[st et] adds IH]; intros w H; [done|].
    cbn [fmap list_fmap]. rewrite run_cons. apply IH. cbn [handle].
    by apply add_segment_no_overlap.
  - intros st et a Hin Hlt. cbn [handle]. apply add_segment_overlap.
    apply has_overlap_true_iff. by exists a.
Qed.

Lemma add_keeps_windows_disjoint_witness :
  no_overlap
    (time_ranges
       (self (run [EvAddSegment {| hour := 11; minute := 0 |} {| hour := 12; minute := 0 |};
                   EvAddSegment {| hour := 9; minute := 30 |} {| hour := 10; minute := 30 |};
                   EvAddSegment {| hour := 8; minute := 0 |} {| hour := 9; minute := 0 |}]
                demo_world))).
Proof.
  apply (add_keeps_windows_disjoint demo_world
           [({| hour := 11; minute := 0 |}, {| hour := 12; minute := 0 |});
            ({| hour := 9; minute := 30 |}, {| hour := 10; minute := 30 |});
            ({| hour := 8; minute := 0 |}, {| hour := 9; minute := 0 |})]).
  intros i j a b Hij Hi Hj.
  destruct i as [|[|[|i]]]; destruct j as [|[|[|j]]];
    vm_compute in Hi, Hj; try done; simplify_eq; vm_compute; by intros [=].
Defined.

(** The windows of the witness: the second request overlaps and is refused. *)
Example add_three_windows :
  time_ranges
    (self (run [EvAddSegment {| hour := 11; minute := 0 |} {| hour := 12; minute := 0 |};
                EvAddSegment {| hour := 9; minute := 30 |} {| hour := 10; minute := 30 |};
                EvAddSegment {| hour := 8; minute := 0 |} {| hour := 9; minute := 0 |}]
             demo_world))
  = [(480, 540); (540, 600); (600, 660); (660, 720)].
Proof. vm_compute. reflexivity. Qed.

(** ** Range validation *)

Lemma degenerate_never_overlaps rs s : has_overlap rs (s, s) = false.
Proof. apply has_overlap_false_iff. intros a _. cbn. lia. Qed.

(** C8, as stated, fails: a window whose end equals its start is stored.
    With the time edits at their initial 00:00 and 00:00, adding gives the
    schedule a window (0, 0). *)
Lemma degenerate_window_is_stored :
  ~ (forall w st et,
       qtime_to_min et <= qtime_to_min st ->
       time_ranges (self (world_of (handle (EvAddSegment st et) w)))
       = time_ranges (self w)).
Proof.
  intros H.
  specialize (H demo_world {| hour := 0; minute := 0 |} {| hour := 0; minute := 0 |}).
  vm_compute in H. specialize (H ltac:(by intros [=])). by inversion H.
Qed.

(** C8, amended. Range validation: a request with [end < start] only shows
    the invalid-range warning and leaves the window, the file system and
    the surroundings as they were.  A request with [end = start] is not
    refused: such a range overlaps nothing, and it is stored. *)
Theorem range_validation w st et :
  qtime_to_min et <= qtime_to_min st ->
  if decide (qtime_to_min et < qtime_to_min st) then
    handle (EvAddSegment st et) w
    = Ok tt (with_calls (fun l => l ++ [MessageBox MsgInvalidRange]) w)
  else
    exists w',
      handle (EvAddSegment st et) w = Ok tt w'
      /\ time_ranges (self w')
         = sort_segments (time_ranges (self w) ++ [(qtime_to_min st, qtime_to_min st)])
      /\ (qtime_to_min st, qtime_to_min st) ∈ time_ranges (self w')
      /\ calls w' = calls w.
Proof.
  intros Hle. cbn [handle]. destruct (decide _) as [Hlt|Hge].
  - by apply add_segment_invalid.
  - assert (qtime_to_min et = qtime_to_min st) as Heq by lia.
    destruct (add_segment_accepted st et w Hge) as (w' & Hw & Hs & Hc).
    { rewrite Heq. apply degenerate_never_overlaps. }
    exists w'. rewrite Hs, Heq in *. cbn. repeat split; try done.
    unfold sort_segments. rewrite merge_sort_Permutation.
    apply elem_of_app. right. by left.
Qed.

Lemma range_validation_witness :
  handle (EvAddSegment {| hour := 10; minute := 0 |} {| hour := 9; minute := 0 |})
    demo_world
  = Ok tt (with_calls (fun l => l ++ [MessageBox MsgInvalidRange]) demo_world).
Proof.
  pose proof (range_validation demo_world {| hour := 10; minute := 0 |}
                {| hour := 9; minute := 0 |}) as H.
  rewrite decide_True in H by (vm_compute; reflexivity).
  apply H. vm_compute. by intros [=].
Defined.

(** ** The invariant of the playback state *)

Section PlaybackInv.
Local Abbreviation I := (fun w => playback_inv (self w)).

Ltac inv_assign :=
  let w := fresh "w" in let Hw := fresh "Hw" in
  apply keeps_modify; intros w Hw; unfold playback_inv, index_in_bounds in *;
  cbn; destruct Hw as (? & ? & ?); (split; [|by split]); try done;
  try (let Hne := fresh in intros Hne; apply len_pos in Hne; lia).

Lemma keeps_inv_of_self {A} (m : M A) :
  (forall s, keeps (fun w => self w = s) m) -> keeps I m.
Proof. apply (keeps_of_self m playback_inv). Qed.

Lemma start_segment_inv seg : keeps I (start_segment seg).
Proof.
  intros w (Hidx & Hsnap & Hod).
  destruct (start_segment_spec seg w)
    as (w' & -> & _ & _ & Hpl & Hi & (_&_&_&_&_&His&Hood&_) & _).
  cbn. unfold playback_inv, index_in_bounds. rewrite Hi, His, Hood.
  split; [|done]. intros Hne. apply len_pos in Hne. lia.
Qed.

Lemma check_real_time_inv : keeps I check_real_time.
Proof.
  intros w Hw. rewrite check_real_time_eq.
  destruct (_ || _); [done|]. destruct (active_segment w) as [a|]; [|done].
  destruct (decide _); [|done]. destruct (_ && _); [done|].
  by apply start_segment_inv.
Qed.

Lemma stop_playback_state_inv : keeps I stop_playback_state.
Proof.
  unfold stop_playback_state.
  do 3 (apply keeps_bind; [inv_assign|intros _]). inv_assign.
Qed.

Lemma on_media_status_inv st : keeps I (on_media_status st).
Proof.
  intros w Hw. destruct (decide (st = EndOfMedia)) as [->|Hne];
    [|by rewrite on_media_status_other].
  rewrite on_media_status_eq.
  destruct (_ || _); [done|].
  destruct (waiting_next_segment (self w)); [by apply start_segment_inv|].
  destruct (decide _) as [|Hne]; [done|].
  apply (keeps_inv_of_self play_current); [auto with keeps|].
  destruct Hw as (_ & Hsnap & Hod). split; [|by split].
  intros _. cbn. apply Z.mod_pos_bound. by apply len_pos.
Qed.

Lemma switch_run_inv : keeps I switch_run.
Proof.
  unfold switch_run. apply keeps_bind; [inv_assign|intros _].
  apply keeps_bind; [apply keeps_gets|intros r].
  apply keeps_bind; [apply keeps_modify; by intros|intros _].
  destruct r.
  - apply keeps_bind; [apply keeps_modify; by intros|intros _].
    apply check_real_time_inv.
  - repeat (apply keeps_bind; [apply keeps_modify; by intros|intros _]).
    apply stop_playback_state_inv.
Qed.

Lemma any_segment_has_video_inv : keeps I any_segment_has_video.
Proof.
  intros w Hw. unfold any_segment_has_video. unfold_monad. cbn.
  by destruct (any_segment_has_video_in_spec (time_ranges (self w)) w) as (b & -> & _).
Qed.

Lemma toggle_run_inv : keeps I toggle_run.
Proof.
  unfold toggle_run. apply keeps_bind; [apply keeps_gets|intros s].
  destruct (negb (running s)); [|apply switch_run_inv].
  destruct (decide _); [apply keeps_modify; by intros|].
  apply keeps_bind; [apply any_segment_has_video_inv|intros []].
  - apply switch_run_inv.
  - apply keeps_modify; by intros.
Qed.

Lemma add_segment_inv st et : keeps I (add_segment st et).
Proof.
  intros w Hw.
  destruct (decide (qtime_to_min et < qtime_to_min st)) as [Hlt|Hge].
  { by rewrite add_segment_invalid. }
  destruct (has_overlap (time_ranges (self w)) (qtime_to_min st, qtime_to_min et)) eqn:Ho.
  { by rewrite add_segment_overlap. }
  destruct (add_segment_accepted st et w Hge Ho) as (w' & -> & Hs & _).
  cbn [world_of]. by rewrite Hs.
Qed.

Lemma delete_segment_inv idx : keeps I (delete_segment idx).
Proof.
  unfold delete_segment.
  apply keeps_bind; [apply keeps_inv_of_self; auto with keeps|intros [seg|]];
    [|apply keeps_ret].
  apply keeps_bind; [apply keeps_gets|intros cur].
  apply keeps_bind.
  { destruct (decide _); [|apply keeps_ret].
    apply keeps_bind; [apply keeps_modify; by intros|intros _].
    apply stop_playback_state_inv. }
  intros _. apply keeps_bind; [apply keeps_gets|intros rs].
  destruct (list_remove seg rs); [|apply keeps_raise].
  apply keeps_bind; [inv_assign|intros _].
  apply keeps_bind; [apply keeps_inv_of_self; auto with keeps|intros _].
  apply keeps_bind; [|intros _]; apply keeps_inv_of_self; auto with keeps.
Qed.

Lemma set_volume_inv v : keeps I (set_volume v).
Proof.
  unfold set_volume. apply keeps_bind; [inv_assign|intros _].
  apply keeps_bind; [|intros _]; apply keeps_inv_of_self; auto with keeps.
Qed.

Lemma toggle_mute_inv : keeps I toggle_mute.
Proof.
  unfold toggle_mute. apply keeps_bind; [inv_assign|intros _].
  apply keeps_bind; [|intros _]; apply keeps_inv_of_self; auto with keeps.
Qed.

Lemma start_on_demand_inv : keeps I start_on_demand.
Proof.
  intros w (Hidx & Hsnap & Hod). unfold start_on_demand. unfold_monad. cbn.
  destruct (in_interrupt (self w)); [done|]. cbn.
  split; [done|]. split; [done|]. intros _. by eexists.
Qed.

Lemma resume_from_interrupt_inv t : keeps I (resume_from_interrupt t).
Proof.
  intros w (Hidx & Hsnap & Hod). rewrite resume_from_interrupt_eq. cbv zeta.
  destruct (negb (running (self w))); [done|].
  destruct (interrupt_state (self w)) as [[[[[seg plist] idx] pos] wnext]|] eqn:Hst.
  - destruct (_ && _ && bool_decide (plist ≠ [])) eqn:Hc.
    + apply andb_prop in Hc as [_ Hne]. apply bool_decide_eq_true in Hne.
      assert (0 <= Z.min idx (Py.len plist - 1) < Py.len plist) as Hb.
      { specialize (Hsnap Hne). lia. }
      destruct (Py.getitem plist _); unfold playback_inv; cbn;
        (split; [by intros _|]); by split.
    + apply check_real_time_inv. unfold playback_inv. cbn.
      split; [done|]. by split.
  - apply check_real_time_inv. unfold playback_inv. cbn. rewrite Hst.
    split; [done|]. by split.
Qed.

Lemma handle_inv ev : keeps I (handle ev).
Proof.
  destruct ev; cbn [handle].
  - apply add_segment_inv.
  - apply delete_segment_inv.
  - apply keeps_inv_of_self. intros s. solve_keeps.
  - apply keeps_inv_of_self. auto with keeps.
  - apply keeps_inv_of_self. auto with keeps.
  - apply keeps_inv_of_self. auto with keeps.
  - apply toggle_run_inv.
  - apply check_real_time_inv.
  - apply on_media_status_inv.
  - apply start_on_demand_inv.
  - apply keeps_bind; [apply keeps_gets|intros []];
      [apply resume_from_interrupt_inv|apply keeps_ret].
  - apply set_volume_inv.
  - apply toggle_mute_inv.
  - apply keeps_inv_of_self. auto with keeps.
  - inv_assign.
  - apply keeps_modify. by intros.
Qed.
End PlaybackInv.

(** C7. Index-bounds invariant: every handler - starting a window, the
    end-of-media advance, stopping the run, deleting the current window,
    resuming from an interruption, and all the others - keeps
    [0 <= index < len(playlist)] whenever the playlist is not empty, for
    the live playback state and for the snapshot an interruption took,
    whether the handler returns or raises. *)
Theorem index_bounds_invariant ev w :
  playback_inv (self w) ->
  playback_inv (self (world_of (handle ev w)))
  /\ index_in_bounds (current_playlist (self (world_of (handle ev w))))
       (current_index (self (world_of (handle ev w)))).
Proof.
  intros Hw. pose proof (handle_inv ev w Hw) as Hk.
  split; [exact Hk|]. by destruct Hk.
Qed.

Lemma index_bounds_invariant_witness :
  index_in_bounds
    (current_playlist (self (world_of (handle (EvMediaStatus EndOfMedia) demo_running))))
    (current_index (self (world_of (handle (EvMediaStatus EndOfMedia) demo_running)))).
Proof.
  apply (index_bounds_invariant (EvMediaStatus EndOfMedia) demo_running).
  split; [|split].
  - intros _. vm_compute. split; [by intros [=]|reflexivity].
  - vm_compute. exact Logic.I.
  - vm_compute. by intros [=].
Defined.

Lemma initial_playback_inv w : initial w -> playback_inv (self w).
Proof.
  intros [ranges ->]. split; [done|]. split; [done|]. by intros [=].
Qed.

Lemma run_playback_inv evs w :
  playback_inv (self w) -> playback_inv (self (run evs w)).
Proof.
  revert w. induction evs as [|ev evs IH]; intros w Hw; [done|].
  rewrite run_cons. apply IH. by apply handle_inv.
Qed.

Lemma reachable_playback_inv w : reachable w -> playback_inv (self w).
Proof.
  intros (w0 & evs & Hinit & ->). by apply run_playback_inv, initial_playback_inv.
Qed.

(** ** Interruption and resumption *)

(** What [start_on_demand] captures: the playback state and the offset of
    the player, as they are when the interruption begins. *)
Lemma start_on_demand_snapshot w :
  in_interrupt (self w) = false ->
  exists w',
    start_on_demand w = Ok tt w'
    /\ interrupt_state (self w')
       = Some (current_segment (self w), current_playlist (self w),
               current_index (self w), player_position w,
               waiting_next_segment (self w))
    /\ in_interrupt (self w') = true /\ ondemand_window (self w') = true
    /\ running (self w') = running (self w)
    /\ calls w' = calls w ++ [PlayerStop; OnDemandCreate; OnDemandShow].
Proof.
  intros Hi. unfold start_on_demand. unfold_monad. cbn. rewrite Hi.
  eexists. split; [reflexivity|]. cbn. repeat split. by rewrite <- !app_assoc.
Qed.

(** C1. Interrupt/resume continuity: when the on-demand window reports its
    end while a run is in progress, there is a snapshot to come back to.  If
    its window is set, is the window active now, and its playlist is not
    empty, the playback state becomes exactly the window, playlist, index
    and pending window of the snapshot, and the player is given the item at
    that index, sought to the offset of the snapshot and told to play.
    Otherwise the playback state is made idle, with no window, and the
    tick logic runs at once on it. *)
Theorem interrupt_resume_continuity w terminated :
  reachable w -> running (self w) = true -> ondemand_window (self w) = true ->
  exists seg plist idx pos wnext,
    interrupt_state (self w) = Some (seg, plist, idx, pos, wnext)
    /\ (is_Some seg -> active_segment w = seg -> plist ≠ [] ->
        exists p,
          Py.getitem plist idx = Some p
          /\ handle (EvOnDemandFinish terminated) w
             = Ok tt (with_calls (fun l => l ++ resume_calls (self w) p pos)
                        (with_self (fun s => with_playback seg plist idx wnext
                                               (interrupt_cleared s)) w)))
    /\ (~ (is_Some seg /\ active_segment w = seg /\ plist ≠ []) ->
        handle (EvOnDemandFinish terminated) w
        = check_real_time (with_self (fun s => idle (interrupt_cleared s)) w)).
Proof.
  intros Hreach Hrun Hod.
  destruct (reachable_playback_inv w Hreach) as (_ & Hsnap & Hst).
  destruct (Hst Hod) as [[[[[seg plist] idx] pos] wnext] Hs].
  exists seg, plist, idx, pos, wnext. split; [done|].
  assert (handle (EvOnDemandFinish terminated) w
          = resume_from_interrupt terminated w) as ->.
  { cbn [handle]. unfold_monad. cbn. by rewrite Hod. }
  rewrite resume_from_interrupt_eq, Hrun, Hs. cbv zeta. cbn [negb].
  split.
  - intros Hseg Hact Hne. rewrite Hs in Hsnap. specialize (Hsnap Hne).
    rewrite !bool_decide_eq_true_2 by done. cbn [andb].
    replace (Z.min idx (Py.len plist - 1)) with idx by lia.
    destruct (getitem_is_Some plist idx Hsnap) as [p Hp]. exists p.
    by rewrite Hp.
  - intros Hn.
    destruct (bool_decide (is_Some seg) && bool_decide (active_segment w = seg)
              && bool_decide (plist ≠ [])) eqn:Hc; [|done].
    apply andb_prop in Hc as [Hc H3]. apply andb_prop in Hc as [H1 H2].
    apply bool_decide_eq_true in H1, H2, H3. by destruct Hn.
Qed.

Lemma interrupt_resume_continuity_witness :
  exists w',
    handle (EvOnDemandFinish true) demo_interrupted = Ok tt w'
    /\ current_segment (self w') = Some (540, 600)
    /\ current_index (self w') = 1
    /\ calls w' = calls demo_interrupted ++
         [ShowFullScreen; LeftPanelHide; AudioSetMuted false; AudioSetVolume 50;
          PlayerSetSource (segment_dir (540, 600) </> "b.mp4");
          PlayerSetPosition 30000; PlayerPlay].
Proof.
  destruct (interrupt_resume_continuity demo_interrupted true)
    as (seg & plist & idx & pos & wnext & Hs & Hyes & _).
  - exists demo_world, [EvToggleRun; EvMediaStatus EndOfMedia;
       EvSurroundings demo_fs (9, 59) 30000 true false;
       EvStartOnDemand;
       EvSurroundings demo_fs (9, 59) 0 false true].
    split; [by exists [(540, 600); (600, 660)]|].
    unfold demo_interrupted, demo_running. rewrite <- run_app. reflexivity.
  - vm_compute. reflexivity.
  - vm_compute. reflexivity.
  - vm_compute in Hs. injection Hs as <- <- <- <- <-.
    destruct Hyes as (p & Hp & Hh).
    + by eexists.
    + vm_compute. reflexivity.
    + by intros [=].
    + vm_compute in Hp. injection Hp as <-.
      eexists. split; [exact Hh|]. split; [reflexivity|]. split; [reflexivity|].
      vm_compute. reflexivity.
Defined.

(** ** Strings *)

Lemma append_nil_r s : s +:+ EmptyString = s.
Proof. induction s as [|c s IH]; [done|]. unfold String.app in *. cbn. by rewrite IH. Qed.

Lemma append_cons c s t : String c s +:+ t = String c (s +:+ t).
Proof. reflexivity. Qed.

Lemma append_assoc s t u : (s +:+ t) +:+ u = s +:+ (t +:+ u).
Proof.
  induction s as [|c s IH]; [done|]. rewrite !append_cons. by rewrite IH.
Qed.

Lemma endswith_iff s suffix :
  Py.endswith s suffix = true <-> exists pre, s = pre +:+ suffix.
Proof.
  induction s as [|c s IH]; cbn.
  - destruct (decide (EmptyString = suffix)) as [<-|Hne].
    + split; [by exists EmptyString|done].
    + split; [done|]. intros ([|? ?] & H); [done|]. by rewrite append_cons in H.
  - destruct (decide (String c s = suffix)) as [<-|Hne].
    + split; [by exists EmptyString|done].
    + rewrite IH. split.
      * intros (pre & ->). by exists (String c pre).
      * intros ([|c' pre] & H); [done|]. rewrite append_cons in H.
        injection H as -> ->. by exists pre.
Qed.

Lemma endswith_length s suffix :
  Py.endswith s suffix = true -> (String.length suffix <= String.length s)%nat.
Proof.
  induction s as [|c s IH]; cbn.
  - destruct (decide _) as [<-|]; [done|done].
  - destruct (decide _) as [<-|]; [done|]. intros H. specialize (IH H). lia.
Qed.

(** Two suffixes of one string that have the same length are the same. *)
Lemma endswith_same_length s a b :
  Py.endswith s a = true -> Py.endswith s b = true ->
  String.length a = String.length b -> a = b.
Proof.
  induction s as [|c s IH]; cbn.
  - destruct (decide _) as [<-|]; [|done]. destruct (decide _) as [<-|]; done.
  - destruct (decide (String c s = a)) as [<-|Ha];
      destruct (decide (String c s = b)) as [<-|Hb]; [done| | |apply IH].
    + intros _ H Hl. apply endswith_length in H. cbn in Hl. lia.
    + intros H _ Hl. apply endswith_length in H. cbn in Hl. lia.
Qed.

Lemma mkv_is_not_mp4 n : Py.endswith n ".mkv" = true -> Py.endswith n ".mp4" = false.
Proof.
  intros H. destruct (Py.endswith n ".mp4") eqn:H'; [|done].
  by pose proof (endswith_same_length _ _ _ H H' eq_refl).
Qed.

Lemma avi_is_not_mp4 n : Py.endswith n ".avi" = true -> Py.endswith n ".mp4" = false.
Proof.
  intros H. destruct (Py.endswith n ".mp4") eqn:H'; [|done].
  by pose proof (endswith_same_length _ _ _ H H' eq_refl).
Qed.

(** *** The order file gives back clean names *)

Lemma splitlines_go_line cur n rest :
  Py.one_line n = true ->
  Py.splitlines_go cur (n +:+ String Py.LF rest)
  = (cur +:+ n) :: Py.splitlines_go EmptyString rest.
Proof.
  revert cur. induction n as [|c n IH]; intros cur Hn.
  - rewrite append_nil_r. cbn. by destruct rest.
  - cbn in Hn. apply andb_prop in Hn as [Hc Hn].
    rewrite append_cons. cbn. apply negb_true_iff in Hc. rewrite Hc.
    rewrite IH by done. by rewrite append_assoc.
Qed.

Lemma order_text_cons n names :
  order_text (n :: names) = n +:+ String Py.LF (order_text names).
Proof.
  unfold order_text. destruct names as [|n' names]; cbn.
  - by rewrite append_nil_r.
  - rewrite !append_assoc. done.
Qed.

Lemma splitlines_order_text names :
  Forall (fun n => Py.one_line n = true) names ->
  Py.splitlines (order_text names) = names.
Proof.
  unfold Py.splitlines. induction 1 as [|n names Hn _ IH]; [done|].
  rewrite order_text_cons, splitlines_go_line by done. by rewrite IH.
Qed.

Lemma order_names_order_text names :
  Forall clean_name names -> order_names (order_text names) = names.
Proof.
  intros H. unfold order_names. rewrite splitlines_order_text.
  2: { eapply Forall_impl; [exact H|]. by intros n (_ & _ & ?). }
  induction H as [|n names (Hne & Hs & _) _ IH]; [done|].
  rewrite filter_cons_True by by rewrite Hs.
  cbn. by rewrite Hs, IH.
Qed.

(** ** Resolving a playlist *)

Lemma path_name_div_fmap d (l : list string) :
  path_name <$> ((fun n => d </> n) <$> l) = l.
Proof.
  induction l as [|n l IH]; [done|]. cbn. by rewrite path_name_div, IH.
Qed.

Lemma path_div_inj d : Inj (=) (=) (fun n => d </> n).
Proof. intros n1 n2 H. unfold path_div in H. by simplify_list_eq. Qed.

Lemma elem_of_mp4_names es n :
  n ∈ mp4_names es <-> is_Some (es !! n) /\ Py.endswith n ".mp4" = true.
Proof. unfold mp4_names. rewrite elem_of_filter, elem_of_dom. tauto. Qed.

Lemma playable_iff w seg n : playable w seg n <-> n ∈ mp4_names (entries w seg).
Proof. by rewrite elem_of_mp4_names. Qed.

Lemma dom_mp4_files d es : dom (mp4_files d es) = mp4_names es.
Proof.
  apply set_eq. intros n.
  rewrite elem_of_mp4_names, elem_of_dom, mp4_files_lookup.
  destruct (Py.endswith n ".mp4"); [|split; [by intros [??]|by intros [_ ?]]].
  rewrite fmap_is_Some. tauto.
Qed.

Lemma mp4_names_insert_order es text :
  mp4_names (<[ORDER_FILE := text]> es) = mp4_names es.
Proof.
  apply set_eq. intros n. rewrite !elem_of_mp4_names.
  destruct (decide (n = ORDER_FILE)) as [->|Hne].
  - split; intros [_ H]; by vm_compute in H.
  - by rewrite lookup_insert_ne.
Qed.

Lemma mp4_files_keyed d es : keyed_by_name d (mp4_files d es).
Proof.
  intros n p. rewrite mp4_files_lookup.
  destruct (Py.endswith n ".mp4"); [|done]. destruct (es !! n); [|done].
  cbn. by intros [= <-].
Qed.

Lemma foldl_take_named d files acc names :
  keyed_by_name d files ->
  exists files',
    foldl take_named (files, acc) names
    = (files', acc ++ ((fun n => d </> n) <$> take_names (dom files) names))
    /\ dom files' = dom files ∖ list_to_set names
    /\ keyed_by_name d files'.
Proof.
  revert files acc. induction names as [|n names IH]; intros files acc Hk.
  - exists files. cbn. rewrite app_nil_r. split; [done|]. split; [|done].
    apply set_eq. intros k. rewrite elem_of_difference, elem_of_empty. tauto.
  - cbn [foldl take_names]. unfold take_named at 2. cbn [fst snd].
    destruct (files !! n) as [p|] eqn:Hn.
    + assert (n ∈ dom files) as Hin by (apply elem_of_dom; by eexists).
      rewrite decide_True by done.
      destruct (IH (delete n files) (acc ++ [p])) as (files' & -> & Hd & Hk').
      { intros k q Hq. apply lookup_delete_Some in Hq as [_ Hq]. by apply Hk. }
      exists files'. rewrite dom_delete_L in *. rewrite (Hk n p Hn).
      rewrite <- app_assoc. split; [done|]. split; [|done].
      rewrite Hd. apply set_eq. intros k.
      rewrite !elem_of_difference, elem_of_singleton, !elem_of_list_to_set, elem_of_cons.
      tauto.
    + assert (n ∉ dom files) as Hin by (by apply not_elem_of_dom).
      rewrite decide_False by done.
      destruct (IH files acc Hk) as (files' & -> & Hd & Hk').
      exists files'. split; [done|]. split; [|done]. rewrite Hd.
      apply set_eq. intros k.
      rewrite !elem_of_difference, !elem_of_list_to_set, elem_of_cons.
      destruct (decide (k = n)) as [->|]; tauto.
Qed.

Lemma omap_keyed d files (l : list string) :
  keyed_by_name d files -> Forall (fun n => n ∈ dom files) l ->
  omap (fun n => files !! n) l = (fun n => d </> n) <$> l.
Proof.
  intros Hk. induction 1 as [|n l Hn _ IH]; [done|].
  apply elem_of_dom in Hn as [p Hp]. cbn. rewrite Hp, IH. by rewrite (Hk n p Hp).
Qed.

Lemma elem_of_sorted_names n l : n ∈ sorted_names l <-> n ∈ l.
Proof. unfold sorted_names. by rewrite merge_sort_Permutation. Qed.

Lemma merged_eq d es :
  merged d es = (fun n => d </> n) <$> resolved_names (mp4_names es) (recorded_names es).
Proof.
  unfold merged, resolved_names.
  destruct (foldl_take_named d (mp4_files d es) [] (recorded_names es))
    as (files' & -> & Hd & Hk); [apply mp4_files_keyed|].
  cbn [fst snd app]. rewrite dom_mp4_files in *. rewrite fmap_app. f_equal.
  rewrite (omap_keyed d); [by rewrite Hd|done|].
  apply Forall_forall. intros n. by rewrite elem_of_sorted_names, elem_of_elements.
Qed.

(** *** The recorded part *)

Lemma elem_of_take_names avail names n :
  n ∈ take_names avail names <-> n ∈ avail /\ n ∈ names.
Proof.
  revert avail. induction names as [|m names IH]; intros avail; cbn.
  - rewrite !elem_of_nil. tauto.
  - destruct (decide (m ∈ avail)).
    + rewrite !elem_of_cons, IH, elem_of_difference, elem_of_singleton.
      destruct (decide (n = m)) as [->|]; tauto.
    + rewrite IH, elem_of_cons. destruct (decide (n = m)) as [->|]; tauto.
Qed.

Lemma NoDup_take_names avail names : NoDup (take_names avail names).
Proof.
  revert avail. induction names as [|m names IH]; intros avail; cbn.
  - constructor.
  - destruct (decide (m ∈ avail)); [|done].
    constructor; [|done]. rewrite elem_of_take_names, elem_of_difference, elem_of_singleton. tauto.
Qed.

Lemma filter_ext_elem_of {A} (P Q : A -> Prop)
    `{!forall x, Decision (P x), !forall x, Decision (Q x)} (l : list A) :
  (forall x, x ∈ l -> P x <-> Q x) -> filter P l = filter Q l.
Proof.
  induction l as [|x l IH]; intros Hall; [done|].
  assert (filter P l = filter Q l) as IH'.
  { apply IH. intros y Hy. apply Hall. by right. }
  destruct (decide (P x)) as [Hp|Hp].
  - rewrite !filter_cons_True; [by rewrite IH'|by apply Hall; [left|]|done].
  - rewrite !filter_cons_False; [done| |done].
    intros Hq. apply Hp, Hall; [by left|done].
Qed.

Lemma take_names_filter avail names :
  NoDup names -> take_names avail names = filter (fun n => n ∈ avail) names.
Proof.
  intros Hnd. revert avail. induction Hnd as [|m names Hm _ IH]; intros avail; [done|].
  cbn [take_names]. destruct (decide (m ∈ avail)).
  - rewrite filter_cons_True by done. f_equal. rewrite IH.
    apply filter_ext_elem_of. intros n Hn.
    rewrite elem_of_difference, elem_of_singleton.
    destruct (decide (n = m)) as [->|]; [done|tauto].
  - by rewrite filter_cons_False.
Qed.

Lemma take_names_all avail names :
  NoDup names -> (forall n, n ∈ names -> n ∈ avail) -> take_names avail names = names.
Proof.
  intros Hnd Hall. rewrite take_names_filter by done.
  induction names as [|m names IH]; [done|].
  apply NoDup_cons in Hnd as [_ Hnd].
  rewrite filter_cons_True by (apply Hall; by left).
  f_equal. apply IH; [done|]. intros n Hn. apply Hall. by right.
Qed.

(** *** The whole list *)

Lemma elem_of_resolved_names avail names n :
  n ∈ resolved_names avail names <-> n ∈ avail.
Proof.
  unfold resolved_names.
  rewrite elem_of_app, elem_of_take_names, elem_of_sorted_names, elem_of_elements,
    elem_of_difference, elem_of_list_to_set.
  destruct (decide (n ∈ names)); tauto.
Qed.

Lemma NoDup_sorted_names (X : gset string) : NoDup (sorted_names (elements X)).
Proof. unfold sorted_names. rewrite merge_sort_Permutation. apply NoDup_elements. Qed.

Lemma NoDup_resolved_names avail names : NoDup (resolved_names avail names).
Proof.
  unfold resolved_names. apply NoDup_app. split; [apply NoDup_take_names|].
  split; [|apply NoDup_sorted_names].
  intros n. rewrite elem_of_take_names, elem_of_sorted_names, elem_of_elements,
    elem_of_difference, elem_of_list_to_set. tauto.
Qed.

Lemma sorted_names_sorted l : StronglySorted String.le (sorted_names l).
Proof. unfold sorted_names. apply StronglySorted_merge_sort; apply _. Qed.

Lemma resolved_names_fixpoint avail names :
  NoDup names -> (forall n, n ∈ names <-> n ∈ avail) ->
  resolved_names avail names = names.
Proof.
  intros Hnd Hiff. unfold resolved_names.
  rewrite take_names_all; [|done|by intros n ?%Hiff].
  assert (avail ∖ list_to_set names = ∅) as ->.
  { apply set_eq. intros n. rewrite elem_of_difference, elem_of_list_to_set, Hiff.
    rewrite elem_of_empty. tauto. }
  rewrite elements_empty. by rewrite app_nil_r.
Qed.

Lemma entries_after_load seg w :
  entries (world_of (load_ordered_files seg w)) seg
  = <[ORDER_FILE := order_text (resolved_names (mp4_names (entries w seg))
                                  (recorded_names (entries w seg)))]>
      (entries w seg).
Proof.
  rewrite load_ordered_files_eq. cbn [world_of]. unfold entries at 1. cbn.
  rewrite (lookup_insert_eq (fs w)). cbn.
  by rewrite merged_eq, path_name_div_fmap.
Qed.

Lemma recorded_names_insert es text :
  recorded_names (<[ORDER_FILE := text]> es) = order_names text.
Proof. unfold recorded_names. by rewrite lookup_insert_eq. Qed.

Lemma resolved_names_clean avail names :
  (forall n, n ∈ avail -> clean_name n) ->
  Forall clean_name (resolved_names avail names).
Proof.
  intros H. apply Forall_forall. intros n Hn. apply H.
  by apply elem_of_resolved_names in Hn.
Qed.

(** ** Idempotence of resolving *)

(** C6, as stated, fails: with the items [" z.mp4"] and ["b.mp4"] and no
    order file, the first call returns them in that order and writes them
    down; the second call reads the first line back without its space,
    finds no such item, and returns ["b.mp4"] before [" z.mp4"]. *)
Lemma resolve_twice_differs :
  ~ (forall seg w, exists pl w1 w2,
       load_ordered_files seg w = Ok pl w1 /\ load_ordered_files seg w1 = Ok pl w2).
Proof.
  intros H. destruct (H (540, 600) spaced_world) as (pl & w1 & w2 & H1 & H2).
  vm_compute in H1. injection H1 as <- <-. vm_compute in H2. discriminate H2.
Qed.

(** C6, amended. Idempotence of resolving: when every playable name of
    the window is clean - not empty, without a line boundary, without white
    space at either end - a call of [load_ordered_files] returns a list
    that the next call, on the storage as the first left it, returns
    again, leaving the storage as it is. *)
Theorem resolve_idempotent seg w :
  (forall n, playable w seg n -> clean_name n) ->
  exists pl w1,
    load_ordered_files seg w = Ok pl w1
    /\ load_ordered_files seg w1 = Ok pl w1.
Proof.
  intros Hclean.
  set (M := mp4_names (entries w seg)).
  set (R := resolved_names M (recorded_names (entries w seg))).
  exists ((fun n => segment_dir seg </> n) <$> R), (world_of (load_ordered_files seg w)).
  assert (load_ordered_files seg w
          = Ok ((fun n => segment_dir seg </> n) <$> R)
              (world_of (load_ordered_files seg w))) as H1.
  { rewrite load_ordered_files_eq. cbn [world_of]. by rewrite merged_eq. }
  split; [exact H1|].
  set (w1 := world_of (load_ordered_files seg w)) in *.
  assert (entries w1 seg = <[ORDER_FILE := order_text R]> (entries w seg)) as He
    by apply entries_after_load.
  assert (resolved_names (mp4_names (entries w1 seg)) (recorded_names (entries w1 seg)) = R)
    as HR.
  { rewrite He, mp4_names_insert_order, recorded_names_insert.
    rewrite order_names_order_text.
    2: { apply resolved_names_clean. intros n Hn. by apply Hclean, playable_iff. }
    apply resolved_names_fixpoint; [apply NoDup_resolved_names|].
    intros n. apply elem_of_resolved_names. }
  rewrite load_ordered_files_eq, merged_eq, HR. f_equal.
  rewrite path_name_div_fmap, He.
  apply world_eq; try reflexivity. cbn [fs with_fs].
  rewrite insert_insert_eq.
  unfold w1. rewrite load_ordered_files_eq. cbn [world_of fs with_fs].
  rewrite merged_eq, path_name_div_fmap. fold M R.
  by rewrite insert_insert_eq.
Qed.

Lemma clean_mp4_names_of_demo n : playable demo_world (540, 600) n -> clean_name n.
Proof.
  intros [[x Hx] _]. unfold entries in Hx. vm_compute default in Hx.
  assert (n = "a.mp4" \/ n = "b.mp4" \/ n = "c.mp4") as Hn.
  { change (({[ "a.mp4" := "video"; "b.mp4" := "video"; "c.mp4" := "video" ]} : gmap string string) !! n = Some x) in Hx.
    apply lookup_insert_Some in Hx as [[<- _]|[_ Hx]]; [by left|].
    apply lookup_insert_Some in Hx as [[<- _]|[_ Hx]]; [right; by left|].
    apply lookup_singleton_Some in Hx as [<- _]. right. by right. }
  destruct Hn as [-> | [-> | ->]]; repeat split; try (by intros [=]);
    vm_compute; reflexivity.
Qed.

Lemma resolve_idempotent_witness :
  exists pl w1,
    load_ordered_files (540, 600) demo_world = Ok pl w1
    /\ load_ordered_files (540, 600) w1 = Ok pl w1.
Proof.
  apply (resolve_idempotent (540, 600) demo_world).
  exact clean_mp4_names_of_demo.
Defined.

(** ** Round trip of the order *)

Lemma write_order_existing seg names w es :
  fs w !! segment_dir seg = Some es ->
  write_order seg names w
  = Ok tt (with_fs <[segment_dir seg := <[ORDER_FILE := order_text names]> es]> w).
Proof.
  intros Hd. unfold write_order, write_text, order_path. unfold_monad. cbn.
  rewrite path_parent_div, path_name_div, Hd. done.
Qed.

Lemma write_order_missing seg names w :
  fs w !! segment_dir seg = None ->
  write_order seg names w = Raise FileNotFoundError w.
Proof.
  intros Hd. unfold write_order, write_text, order_path. unfold_monad. cbn.
  rewrite path_parent_div, Hd. done.
Qed.

Lemma mp4_names_empty : mp4_names ∅ = ∅.
Proof.
  apply set_eq. intros n. rewrite elem_of_mp4_names, lookup_empty, elem_of_empty.
  split; [by intros [[? ?] _]|done].
Qed.

(** C5, as stated, fails: with the items [" z.mp4"] and ["b.mp4"], the
    order [" z.mp4"], ["b.mp4"] is written down and read back as
    ["z.mp4"], ["b.mp4"]; the answer is ["b.mp4"] before [" z.mp4"]. *)
Lemma order_round_trip_fails :
  ~ (forall seg names w, exists rest w2,
       load_ordered_files seg (world_of (write_order seg names w))
       = Ok ((fun n => segment_dir seg </> n)
               <$> (filter (playable w seg) names ++ rest)) w2
       /\ forall n, n ∈ rest <-> playable w seg n /\ n ∉ names).
Proof.
  intros H.
  destruct (H (540, 600) [" z.mp4"; "b.mp4"] spaced_world) as (rest & w2 & H1 & _).
  vm_compute in H1. discriminate H1.
Qed.

(** C5, amended. Round trip of the order: for a list of names without
    repetition, each of them clean - not empty, without a line boundary,
    without white space at either end - [write_order] followed by
    [load_ordered_files] returns the names that are playable items of the
    window (entries whose name ends in [.mp4]), in the order given, followed
    by the playable items that were not named, in lexicographic order. *)
Theorem order_round_trip seg names w :
  NoDup names -> Forall clean_name names ->
  exists rest w2,
    load_ordered_files seg (world_of (write_order seg names w))
    = Ok ((fun n => segment_dir seg </> n)
            <$> (filter (playable w seg) names ++ rest)) w2
    /\ StronglySorted String.le rest /\ NoDup rest
    /\ forall n, n ∈ rest <-> playable w seg n /\ n ∉ names.
Proof.
  intros Hnd Hclean.
  set (w1 := world_of (write_order seg names w)).
  assert (mp4_names (entries w1 seg) = mp4_names (entries w seg)
          /\ (recorded_names (entries w1 seg) = names
              \/ mp4_names (entries w seg) = ∅)) as [HM Hrec].
  { unfold w1, entries. destruct (fs w !! segment_dir seg) as [es|] eqn:Hd.
    - rewrite (write_order_existing _ _ _ es) by done. cbn.
      rewrite (lookup_insert_eq (fs w)). cbn.
      rewrite mp4_names_insert_order, recorded_names_insert.
      split; [done|]. left. by apply order_names_order_text.
    - rewrite write_order_missing by done. cbn. rewrite Hd. cbn.
      split; [done|]. right. apply mp4_names_empty. }
  exists (sorted_names (elements (mp4_names (entries w seg) ∖ list_to_set names))).
  eexists. split; [|split; [apply sorted_names_sorted|split; [apply NoDup_sorted_names|]]].
  - rewrite load_ordered_files_eq, merged_eq, HM. f_equal. f_equal.
    unfold resolved_names. destruct Hrec as [->|He].
    + rewrite take_names_filter by done. f_equal.
      apply list_filter_iff. intros n. by rewrite playable_iff.
    + rewrite He. f_equal.
      * rewrite (filter_ext_elem_of (playable w seg) (fun _ => False)).
        2: { intros n _. rewrite playable_iff, He, elem_of_empty. tauto. }
        assert (forall l : list string, take_names ∅ l = []) as ->.
        { induction l as [|x l IH]; [done|]. cbn. by rewrite decide_False. }
        clear. induction names as [|x l IH]; [done|].
        by rewrite filter_cons_False by tauto.
      * f_equal. f_equal. apply set_eq. intros n.
        rewrite !elem_of_difference, elem_of_empty. tauto.
  - intros n. rewrite elem_of_sorted_names, elem_of_elements, elem_of_difference,
      elem_of_list_to_set. by rewrite playable_iff.
Qed.

Lemma order_round_trip_witness :
  exists rest w2,
    load_ordered_files (540, 600)
      (world_of (write_order (540, 600) ["c.mp4"; "gone.mp4"; "a.mp4"] demo_world))
    = Ok ((fun n => segment_dir (540, 600) </> n)
            <$> (filter (playable demo_world (540, 600))
                   ["c.mp4"; "gone.mp4"; "a.mp4"] ++ rest)) w2
    /\ StronglySorted String.le rest /\ NoDup rest
    /\ forall n, n ∈ rest <-> playable demo_world (540, 600) n
                              /\ n ∉ ["c.mp4"; "gone.mp4"; "a.mp4"].
Proof.
  apply (order_round_trip (540, 600) ["c.mp4"; "gone.mp4"; "a.mp4"] demo_world).
  - repeat constructor; rewrite ?elem_of_cons, ?elem_of_nil; intros H;
      repeat destruct H as [H|H]; done.
  - repeat constructor; try (by intros [=]); vm_compute; reflexivity.
Defined.

(** The order of the witness: the stale name is dropped, the item that was
    not named comes last. *)
Example order_round_trip_demo :
  path_name <$>
    match load_ordered_files (540, 600)
            (world_of (write_order (540, 600) ["c.mp4"; "gone.mp4"; "a.mp4"] demo_world))
    with Ok pl _ => pl | Raise _ _ => [] end
  = ["c.mp4"; "a.mp4"; "b.mp4"].
Proof. vm_compute. reflexivity. Qed.

(** ** Only [.mp4] entries are played *)

Lemma merged_elem_of d es p :
  p ∈ merged d es ->
  exists n, p = d </> n /\ is_Some (es !! n) /\ Py.endswith n ".mp4" = true.
Proof.
  rewrite merged_eq, list_elem_of_fmap. intros (n & -> & Hn).
  apply elem_of_resolved_names, elem_of_mp4_names in Hn. by exists n.
Qed.

Lemma load_ordered_files_mp4 seg w :
  exists pl w1,
    load_ordered_files seg w = Ok pl w1
    /\ forall p, p ∈ pl ->
         p = segment_dir seg </> path_name p
         /\ playable w seg (path_name p).
Proof.
  rewrite load_ordered_files_eq. eexists _, _. split; [reflexivity|].
  intros p (n & -> & Hn)%merged_elem_of. by rewrite path_name_div.
Qed.

Lemma selected_segment_in_range idx seg w :
  0 <= idx < Py.len (time_ranges (self w)) ->
  time_ranges (self w) !! Z.to_nat idx = Some seg ->
  selected_segment idx w = Ok (Some seg) w.
Proof.
  intros Hr Hs. unfold selected_segment. unfold_monad. cbn.
  rewrite decide_False by lia. by rewrite Hs.
Qed.

#[global] Arguments selected_segment : simpl never.

Lemma entries_after_load_is_Some seg w n :
  is_Some (entries w seg !! n) ->
  is_Some (entries (world_of (load_ordered_files seg w)) seg !! n).
Proof.
  intros H. rewrite entries_after_load. rewrite lookup_insert_is_Some.
  destruct (decide (ORDER_FILE = n)); [by left|by right].
Qed.

Lemma add_video_stores idx seg src text w :
  0 <= idx < Py.len (time_ranges (self w)) ->
  time_ranges (self w) !! Z.to_nat idx = Some seg ->
  is_Some (fs w !! segment_dir seg) ->
  fs w !! path_parent src ≫= (.!! path_name src) = Some text ->
  exists w',
    add_video idx [src] w = Ok tt w'
    /\ is_Some (entries w' seg !! path_name src)
    /\ self w' = self w.
Proof.
  intros Hr Hs [es Hd] Hsrc. unfold add_video.
  rewrite (bind_ok _ _ _ _ _ (selected_segment_in_range idx seg w Hr Hs)).
  rewrite decide_False by done. cbn [for_each].
  assert (exists w1,
    (path_exists (segment_dir seg </> path_name src) ≫=
       (fun ex : bool => if ex then pass
                         else copy src (segment_dir seg </> path_name src))) w
    = Ok tt w1
    /\ is_Some (entries w1 seg !! path_name src) /\ self w1 = self w
    /\ time_ranges (self w1) = time_ranges (self w)) as (w1 & H1 & Hin & Hself & Htr).
  { unfold path_exists, copy, read_text, write_text. unfold_monad. cbn.
    rewrite path_parent_div, path_name_div, Hd. cbn.
    destruct (es !! path_name src) as [x|] eqn:Hx; cbn.
    - exists w. split; [done|]. unfold entries. rewrite Hd. cbn. rewrite Hx.
      split; [by eexists|done].
    - rewrite Hsrc, Hd. eexists. split; [reflexivity|]. unfold entries. cbn.
      rewrite (lookup_insert_eq (fs w)). cbn. rewrite lookup_insert_eq.
      split; [by eexists|done]. }
  unfold_monad. rewrite H1. cbn.
  rewrite (load_ordered_files_eq seg w1).
  set (w2 := with_fs _ w1).
  assert (w2 = world_of (load_ordered_files seg w1)) as Hw2
    by by rewrite load_ordered_files_eq.
  unfold refresh_playlist_view. unfold_monad.
  rewrite (selected_segment_in_range idx seg w2);
    [|unfold w2; cbn [self with_fs]; by rewrite Htr..].
  rewrite (load_ordered_files_eq seg w2).
  set (w3 := with_fs _ w2).
  assert (w3 = world_of (load_ordered_files seg w2)) as Hw3
    by by rewrite load_ordered_files_eq.
  exists w3. split; [done|]. split; [|done].
  rewrite Hw3. apply entries_after_load_is_Some.
  rewrite Hw2. by apply entries_after_load_is_Some.
Qed.

(** C10. Only [.mp4] entries are playable.  A file picked in the dialog is
    copied into the storage location of the selected window whatever its
    name, for instance one ending in [.mkv] or [.avi].  Every playlist that
    [load_ordered_files] resolves, for any window in any world, holds only
    paths of entries of that window whose name ends in [.mp4]; so the name
    of the copied file is in none.  And [any_segment_has_video], which
    decides whether a run may start, answers yes exactly when some window
    has an entry whose name ends in [.mp4]. *)
Theorem only_mp4_is_playable idx seg src text w :
  0 <= idx < Py.len (time_ranges (self w)) ->
  time_ranges (self w) !! Z.to_nat idx = Some seg ->
  is_Some (fs w !! segment_dir seg) ->
  fs w !! path_parent src ≫= (.!! path_name src) = Some text ->
  Py.endswith (path_name src) ".mkv" = true
  \/ Py.endswith (path_name src) ".avi" = true ->
  (exists w',
     handle (EvAddVideo idx [src]) w = Ok tt w'
     /\ is_Some (entries w' seg !! path_name src))
  /\ (forall seg0 w0, exists pl w1,
        load_ordered_files seg0 w0 = Ok pl w1
        /\ forall p, p ∈ pl ->
             p = segment_dir seg0 </> path_name p
             /\ is_Some (entries w0 seg0 !! path_name p)
             /\ Py.endswith (path_name p) ".mp4" = true
             /\ path_name p ≠ path_name src)
  /\ (forall w0, exists b,
        any_segment_has_video w0 = Ok b w0
        /\ (b = true <-> exists seg0 n, seg0 ∈ time_ranges (self w0)
                                        /\ is_Some (entries w0 seg0 !! n)
                                        /\ Py.endswith n ".mp4" = true)).
Proof.
  intros Hr Hs Hd Hsrc Hext.
  assert (Py.endswith (path_name src) ".mp4" = false) as Hnot.
  { destruct Hext; [by apply mkv_is_not_mp4|by apply avi_is_not_mp4]. }
  split; [|split].
  - destruct (add_video_stores idx seg src text w Hr Hs Hd Hsrc) as (w' & H1 & H2 & _).
    by exists w'.
  - intros seg0 w0. destruct (load_ordered_files_mp4 seg0 w0) as (pl & w1 & Hl & Hpl).
    exists pl, w1. split; [done|]. intros p Hp.
    destruct (Hpl p Hp) as (Hpath & Hex & Hmp4). repeat split; try done.
    intros Heq. rewrite Heq in Hmp4. congruence.
  - intros w0. unfold any_segment_has_video. unfold_monad. cbn.
    destruct (any_segment_has_video_in_spec (time_ranges (self w0)) w0) as (b & -> & Hb).
    exists b. split; [done|]. rewrite Hb. unfold playable. split.
    + intros (s & n & Hin & Hx & Hn). by exists s, n.
    + intros (s & n & Hin & Hx & Hn). by exists s, n.
Qed.

Lemma only_mp4_is_playable_witness :
  exists w',
    handle (EvAddVideo 0 [["home"; "videos"; "new.mkv"]]) mkv_world = Ok tt w'
    /\ is_Some (entries w' (540, 600) !! "new.mkv")
    /\ exists pl w1, load_ordered_files (540, 600) w' = Ok pl w1
                     /\ forall p, p ∈ pl -> path_name p ≠ "new.mkv".
Proof.
  destruct (only_mp4_is_playable 0 (540, 600) ["home"; "videos"; "new.mkv"]
              "matroska" mkv_world) as [(w' & H1 & H2) [H3 _]].
  - vm_compute. split; [by intros [=]|reflexivity].
  - vm_compute. reflexivity.
  - vm_compute. by eexists.
  - vm_compute. reflexivity.
  - left. vm_compute. reflexivity.
  - exists w'. split; [exact H1|]. split; [exact H2|].
    destruct (H3 (540, 600) w') as (pl & w1 & Hl & Hpl).
    exists pl, w1. split; [exact Hl|]. intros p Hp. by destruct (Hpl p Hp) as (_ & _ & _ & ?).
Defined.

(** A window that holds Matroska files only has nothing to play: the
    added file is stored, the playlist stays empty, and a run is refused. *)
Example mkv_only_cannot_run :
  let w' := run [EvAddVideo 0 [["home"; "videos"; "new.mkv"]]] mkv_world in
  dom (entries w' (540, 600)) = {[ "new.mkv"; "old.mkv"; "order.txt" ]}
  /\ load_ordered_files (540, 600) w' = Ok [] w'
  /\ handle EvToggleRun w' = Ok tt (with_calls (fun l => l ++ [MessageBox MsgNoVideos]) w').
Proof.
  cbv zeta. split; [|split]; vm_compute; reflexivity.
Qed.

(** ** Two scenarios of the schedule *)

(** With graceful switching off, the tick at 10:00 cuts to the second
    window and starts it at index 0. *)
Example immediate_switch_at_ten :
  let w := run [EvMediaStatus EndOfMedia; EvSetGraceful false;
                EvSurroundings demo_fs (10, 0) 1500 true false; EvTick]
             demo_running in
  current_segment (self w) = Some (600, 660)
  /\ current_index (self w) = 0
  /\ current_playlist (self w) = [segment_dir (600, 660) </> "n.mp4"].
Proof. cbv zeta. split; [|split]; vm_compute; reflexivity. Qed.

(** An interruption that ends after the clock has passed into the second
    window does not resume the first: the second window starts. *)
Example resume_across_boundary :
  let w := run [EvSurroundings demo_fs (10, 0) 0 false true;
                EvOnDemandFinish false] demo_interrupted in
  current_segment (self w) = Some (600, 660)
  /\ current_index (self w) = 0
  /\ interrupt_state (self w) = None
  /\ in_interrupt (self w) = false.
Proof. cbv zeta. split; [|split; [|split]]; vm_compute; reflexivity. Qed.

(** * More of the program, verified *)

(** ** Reading times *)

Example split_on_colon :
  PyText.split ":" "09:05" = ["09"; "05"]
  /\ PyText.split ":" "9" = ["9"]
  /\ PyText.split ":" "1:2:" = ["1"; "2"; EmptyString].
Proof. repeat split. Qed.

Example to_int_accepts_and_refuses :
  PyText.to_int " 007 " = Some 7 /\ PyText.to_int "-1_0" = Some (-10)
  /\ PyText.to_int "+5" = Some 5 /\ PyText.to_int "1__0" = None
  /\ PyText.to_int "_1" = None /\ PyText.to_int "- 1" = None
  /\ PyText.to_int EmptyString = None /\ PyText.to_int "12a" = None
  /\ PyText.to_int (String "028" "5") = None
  /\ PyText.to_int (String "160" "5") = Some 5.
Proof. repeat split. Qed.

Example hhmm_to_min_examples :
  hhmm_to_min "09:30" = Some 570 /\ hhmm_to_min "24:00" = Some 1440
  /\ hhmm_to_min "9.30" = None /\ hhmm_to_min "09:30:00" = None.
Proof. repeat split. Qed.

(** *** Strings, once more *)

Lemma string_forall_app P s t :
  string_forall P (s +:+ t) = string_forall P s && string_forall P t.
Proof.
  induction s as [|c s IH]; [done|]. rewrite append_cons. cbn.
  by rewrite IH, andb_assoc.
Qed.

Lemma string_forall_impl (P Q : ascii -> bool) s :
  (forall c, P c = true -> Q c = true) ->
  string_forall P s = true -> string_forall Q s = true.
Proof.
  intros H. induction s as [|c s IH]; [done|]. cbn.
  intros [Hc Hs]%andb_prop. by rewrite (H c Hc), IH.
Qed.

Lemma length_append s t :
  String.length (s +:+ t) = (String.length s + String.length t)%nat.
Proof. induction s as [|c s IH]; [done|]. rewrite append_cons. cbn. by rewrite IH. Qed.

Lemma rev_app_eq s t : String.rev_app s t = String.rev s +:+ t.
Proof.
  unfold String.rev. revert t. induction s as [|c s IH]; intros t; [done|].
  cbn. rewrite IH, (IH (String c EmptyString)). by rewrite append_assoc.
Qed.

Lemma rev_cons c s : String.rev (String c s) = String.rev s +:+ String c EmptyString.
Proof. unfold String.rev at 1. cbn. apply rev_app_eq. Qed.

Lemma rev_append s t : String.rev (s +:+ t) = String.rev t +:+ String.rev s.
Proof.
  induction s as [|c s IH].
  - by rewrite append_nil_r.
  - rewrite append_cons, !rev_cons, IH. by rewrite append_assoc.
Qed.

Lemma rev_involutive s : String.rev (String.rev s) = s.
Proof.
  induction s as [|c s IH]; [done|]. by rewrite rev_cons, rev_append, IH.
Qed.

Lemma string_forall_rev P s : string_forall P (String.rev s) = string_forall P s.
Proof.
  induction s as [|c s IH]; [done|].
  rewrite rev_cons, string_forall_app, IH. cbn.
  by rewrite andb_true_r, andb_comm.
Qed.

Lemma lstrip_no_space s :
  string_forall (fun c => negb (Py.is_space c)) s = true -> Py.lstrip s = s.
Proof.
  destruct s as [|c s]; [done|]. cbn. intros [Hc _]%andb_prop.
  apply negb_true_iff in Hc. by rewrite Hc.
Qed.

Lemma strip_no_space s :
  string_forall (fun c => negb (Py.is_space c)) s = true -> Py.strip s = s.
Proof.
  intros H. unfold Py.strip, Py.rstrip. rewrite (lstrip_no_space s H).
  rewrite lstrip_no_space by by rewrite string_forall_rev.
  apply rev_involutive.
Qed.

(** *** Numerals *)

Lemma string_of_uint_digits d :
  string_forall PyText.is_digit (NilEmpty.string_of_uint d) = true.
Proof. induction d; cbn; by rewrite ?IHd. Qed.

Lemma digits_go_digits b s :
  string_forall PyText.is_digit s = true -> s ≠ EmptyString \/ b = true ->
  PyText.digits_go b s = Some s.
Proof.
  revert b. induction s as [|c s IH]; intros b Hd Hb; cbn.
  - destruct Hb as [?| ->]; done.
  - cbn in Hd. apply andb_prop in Hd as [Hc Hs]. rewrite Hc.
    by rewrite IH by (done || by right).
Qed.

Lemma of_uint_to_uint p : Z.of_uint (Pos.to_uint p) = Z.pos p.
Proof. unfold Z.of_uint. by rewrite DecimalPos.Unsigned.of_to. Qed.

Lemma to_uint_string_nonempty p :
  NilEmpty.string_of_uint (Pos.to_uint p) ≠ EmptyString.
Proof.
  pose proof (DecimalPos.Unsigned.to_uint_nonnil p) as H.
  by destruct (Pos.to_uint p).
Qed.

(** The text of [format_02d]: a numeral of at least two characters. *)
Lemma format_02d_nonneg n :
  0 <= n ->
  exists ds u,
    format_02d n = ds /\ string_forall PyText.is_digit ds = true
    /\ ds ≠ EmptyString
    /\ NilEmpty.uint_of_string ds = Some u /\ Z.of_uint u = n.
Proof.
  intros Hn. unfold format_02d. destruct n as [|p|p]; [| |lia].
  - cbn. by exists "00", (Decimal.D0 (Decimal.D0 Decimal.Nil)).
  - cbn [Z.to_int NilZero.string_of_int].
    assert (NilZero.string_of_uint (Pos.to_uint p)
            = NilEmpty.string_of_uint (Pos.to_uint p)) as ->.
    { pose proof (DecimalPos.Unsigned.to_uint_nonnil p). by destruct (Pos.to_uint p). }
    pose proof (string_of_uint_digits (Pos.to_uint p)) as Hds.
    pose proof (to_uint_string_nonempty p) as Hne.
    pose proof (NilEmpty.usu (Pos.to_uint p)) as Hu.
    destruct (decide _).
    + exists (String "0" (NilEmpty.string_of_uint (Pos.to_uint p))),
        (Decimal.D0 (Pos.to_uint p)).
      split; [done|]. split; [done|]. split; [done|].
      split; [cbn; by rewrite Hu|]. apply of_uint_to_uint.
    + exists (NilEmpty.string_of_uint (Pos.to_uint p)), (Pos.to_uint p).
      repeat split; try done. apply of_uint_to_uint.
Qed.

Lemma format_02d_neg n :
  n < 0 ->
  exists ds u,
    format_02d n = String "-" ds /\ string_forall PyText.is_digit ds = true
    /\ ds ≠ EmptyString
    /\ NilEmpty.uint_of_string ds = Some u /\ - Z.of_uint u = n.
Proof.
  intros Hn. unfold format_02d. destruct n as [|p|p]; [lia|lia|].
  cbn [Z.to_int NilZero.string_of_int].
  assert (NilZero.string_of_uint (Pos.to_uint p)
          = NilEmpty.string_of_uint (Pos.to_uint p)) as ->.
  { pose proof (DecimalPos.Unsigned.to_uint_nonnil p). by destruct (Pos.to_uint p). }
  pose proof (to_uint_string_nonempty p) as Hne.
  exists (NilEmpty.string_of_uint (Pos.to_uint p)), (Pos.to_uint p).
  split.
  { destruct (decide _) as [Hl|]; [|done]. cbn in Hl.
    destruct (NilEmpty.string_of_uint (Pos.to_uint p)); [done|cbn in Hl; lia]. }
  split; [apply string_of_uint_digits|]. split; [done|].
  split; [apply NilEmpty.usu|]. by rewrite of_uint_to_uint.
Qed.

Lemma format_02d_chars n : string_forall numeral_char (format_02d n) = true.
Proof.
  destruct (decide (0 <= n)) as [Hn|Hn].
  - destruct (format_02d_nonneg n Hn) as (ds & u & -> & Hd & _).
    eapply string_forall_impl; [|exact Hd]. intros c Hc. unfold numeral_char. by rewrite Hc.
  - destruct (format_02d_neg n) as (ds & u & -> & Hd & _); [lia|]. cbn.
    eapply string_forall_impl; [|exact Hd]. intros c Hc. unfold numeral_char. by rewrite Hc.
Qed.

Lemma int_strip_no_space s :
  string_forall (fun c => negb (PyText.is_int_space c)) s = true ->
  PyText.int_strip s = s.
Proof.
  assert (forall t, string_forall (fun c => negb (PyText.is_int_space c)) t = true ->
                    PyText.skip_spaces t = t) as Hskip.
  { intros [|c t]; [done|]. cbn [string_forall PyText.skip_spaces].
    intros [Hc _]%andb_prop. apply negb_true_iff in Hc. by rewrite Hc. }
  intros H. unfold PyText.int_strip. rewrite (Hskip s H).
  rewrite Hskip by by rewrite string_forall_rev.
  apply rev_involutive.
Qed.

Lemma to_int_format_02d n :
  (String.length (format_02d n) <= PyText.max_str_digits)%nat ->
  PyText.to_int (format_02d n) = Some n.
Proof.
  intros Hlen. unfold PyText.to_int.
  rewrite int_strip_no_space.
  2: { eapply string_forall_impl; [|apply format_02d_chars].
       intros c. unfold numeral_char.
       destruct c as [[|] [|] [|] [|] [|] [|] [|] [|]]; done. }
  destruct (decide (0 <= n)) as [Hn|Hn].
  - destruct (format_02d_nonneg n Hn) as (ds & u & Hf & Hd & Hne & Hu & Hz).
    rewrite Hf in *.
    assert ((let '(negative, body) :=
               match ds with
               | String "-" r => (true, r)
               | String "+" r => (false, r)
               | _ => (false, ds)
               end%char in
             (negative, body)) = (false, ds)) as Hsign.
    { destruct ds as [|c r]; [done|]. cbn in Hd. apply andb_prop in Hd as [Hc _].
      destruct c as [[|] [|] [|] [|] [|] [|] [|] [|]]; done. }
    destruct ds as [|c r]; [done|].
    destruct c as [[|] [|] [|] [|] [|] [|] [|] [|]]; try done;
      (rewrite digits_go_digits by (done || by left);
       cbn [mbind option_bind]; rewrite decide_False by lia;
       rewrite Hu; cbn; by rewrite Hz).
  - destruct (format_02d_neg n) as (ds & u & Hf & Hd & Hne & Hu & Hz); [lia|].
    rewrite Hf in *. rewrite digits_go_digits by (done || by left).
    cbn [mbind option_bind]. cbn in Hlen. rewrite decide_False by lia.
    rewrite Hu. cbn. by rewrite Hz.
Qed.

(** *** Splitting at a separator *)

Lemma split_go_no_sep sep cur s :
  string_forall (fun c => bool_decide (c ≠ sep)) s = true ->
  PyText.split_go sep cur s = [cur +:+ s].
Proof.
  revert cur. induction s as [|c s IH]; intros cur H; cbn.
  - by rewrite append_nil_r.
  - cbn in H. apply andb_prop in H as [Hc Hs]. apply bool_decide_eq_true in Hc.
    rewrite decide_False by done. rewrite IH by done. by rewrite append_assoc.
Qed.

Lemma split_go_at_sep sep cur a b :
  string_forall (fun c => bool_decide (c ≠ sep)) a = true ->
  PyText.split_go sep cur (a +:+ String sep b)
  = (cur +:+ a) :: PyText.split_go sep EmptyString b.
Proof.
  revert cur. induction a as [|c a IH]; intros cur H.
  - change (EmptyString +:+ String sep b) with (String sep b).
    rewrite append_nil_r. cbn. by rewrite decide_True.
  - cbn in H. apply andb_prop in H as [Hc Hs]. apply bool_decide_eq_true in Hc.
    rewrite append_cons. cbn. rewrite decide_False by done.
    rewrite IH by done. by rewrite append_assoc.
Qed.

Lemma append_sep_inj sep a a' b b' :
  string_forall (fun c => bool_decide (c ≠ sep)) a = true ->
  string_forall (fun c => bool_decide (c ≠ sep)) a' = true ->
  a +:+ String sep b = a' +:+ String sep b' -> a = a' /\ b = b'.
Proof.
  revert a'. induction a as [|c a IH]; intros [|c' a'] Ha Ha' Heq.
  - by injection Heq as ->.
  - rewrite append_cons in Heq. injection Heq as <- _.
    cbn in Ha'. apply andb_prop in Ha' as [Hc _]. by apply bool_decide_eq_true in Hc.
  - rewrite append_cons in Heq. injection Heq as -> _.
    cbn in Ha. apply andb_prop in Ha as [Hc _]. by apply bool_decide_eq_true in Hc.
  - rewrite !append_cons in Heq. injection Heq as <- Heq.
    cbn in Ha, Ha'. apply andb_prop in Ha as [_ Ha]. apply andb_prop in Ha' as [_ Ha'].
    destruct (IH a' Ha Ha' Heq) as [-> ->]. done.
Qed.

Lemma append_nil_l s : EmptyString +:+ s = s.
Proof. reflexivity. Qed.

Lemma min_to_hhmm_eq m :
  min_to_hhmm m = format_02d (m / 60) +:+ String ":" (format_02d (m mod 60)).
Proof. reflexivity. Qed.

Lemma format_02d_no c n :
  numeral_char c = false ->
  string_forall (fun x => bool_decide (x ≠ c)) (format_02d n) = true.
Proof.
  intros Hc. eapply string_forall_impl; [|apply format_02d_chars].
  intros x Hx. apply bool_decide_eq_true. intros ->. congruence.
Qed.

Lemma hhmm_to_min_of_text m :
  (String.length (min_to_hhmm m) <= PyText.max_str_digits)%nat ->
  hhmm_to_min (min_to_hhmm m) = Some m.
Proof.
  intros Hlen. rewrite min_to_hhmm_eq in *. rewrite length_append in Hlen. cbn in Hlen.
  unfold hhmm_to_min, PyText.split.
  rewrite split_go_at_sep by by apply format_02d_no.
  rewrite split_go_no_sep by by apply format_02d_no.
  rewrite !append_nil_l. rewrite !to_int_format_02d by lia. cbn. f_equal.
  pose proof (Z.div_mod m 60). lia.
Qed.

(** X1. The text of a minute count reads back as that minute count:
    [hhmm_to_min] inverts [min_to_hhmm], for every integer whose text stays
    within the number of digits Python converts. *)
Theorem hhmm_round_trip m :
  (String.length (min_to_hhmm m) <= PyText.max_str_digits)%nat ->
  hhmm_to_min (min_to_hhmm m) = Some m.
Proof. apply hhmm_to_min_of_text. Qed.

Lemma hhmm_round_trip_witness : hhmm_to_min (min_to_hhmm 1439) = Some 1439.
Proof.
  apply (hhmm_round_trip 1439).
  change (String.length (min_to_hhmm 1439)) with 5%nat.
  unfold PyText.max_str_digits. lia.
Defined.

(** ** Storage locations *)

Lemma format_02d_inj n n' : format_02d n = format_02d n' -> n = n'.
Proof.
  intros Heq.
  destruct (decide (0 <= n)) as [Hn|Hn]; destruct (decide (0 <= n')) as [Hn'|Hn'].
  - destruct (format_02d_nonneg n Hn) as (ds & u & Hf & _ & _ & Hu & Hz).
    destruct (format_02d_nonneg n' Hn') as (ds' & u' & Hf' & _ & _ & Hu' & Hz').
    congruence.
  - destruct (format_02d_nonneg n Hn) as (ds & u & Hf & Hd & Hne & _).
    destruct (format_02d_neg n') as (ds' & u' & Hf' & _); [lia|].
    rewrite Hf, Hf' in Heq. subst ds. cbn in Hd. done.
  - destruct (format_02d_nonneg n' Hn') as (ds & u & Hf & Hd & Hne & _).
    destruct (format_02d_neg n) as (ds' & u' & Hf' & _); [lia|].
    rewrite Hf, Hf' in Heq. subst ds. cbn in Hd. done.
  - destruct (format_02d_neg n) as (ds & u & Hf & _ & _ & Hu & Hz); [lia|].
    destruct (format_02d_neg n') as (ds' & u' & Hf' & _ & _ & Hu' & Hz'); [lia|].
    rewrite Hf, Hf' in Heq. injection Heq as ->. congruence.
Qed.

Lemma min_to_hhmm_inj m m' : min_to_hhmm m = min_to_hhmm m' -> m = m'.
Proof.
  rewrite !min_to_hhmm_eq. intros Heq.
  apply append_sep_inj in Heq as [H1 H2]; try by apply format_02d_no.
  apply format_02d_inj in H1, H2.
  pose proof (Z.div_mod m 60). pose proof (Z.div_mod m' 60). lia.
Qed.

Lemma replace_char_inj old new s t :
  string_forall (fun c => bool_decide (c ≠ new)) s = true ->
  string_forall (fun c => bool_decide (c ≠ new)) t = true ->
  replace_char old new s = replace_char old new t -> s = t.
Proof.
  revert t. induction s as [|c s IH]; intros [|c' t] Hs Ht Heq; try done.
  cbn in *. apply andb_prop in Hs as [Hc Hs]. apply andb_prop in Ht as [Hc' Ht].
  apply bool_decide_eq_true in Hc, Hc'.
  injection Heq as Hh Heq. rewrite (IH t Hs Ht Heq). f_equal.
  destruct (decide (c = old)), (decide (c' = old)); congruence.
Qed.

Lemma replace_char_keeps_out old new x s :
  new ≠ x ->
  string_forall (fun c => bool_decide (c ≠ x)) s = true ->
  string_forall (fun c => bool_decide (c ≠ x)) (replace_char old new s) = true.
Proof.
  intros Hnew. induction s as [|c s IH]; [done|]. cbn.
  intros [Hc Hs]%andb_prop. rewrite IH by done.
  destruct (decide (c = old)); [|by rewrite Hc]. by rewrite bool_decide_eq_true_2.
Qed.

Lemma min_to_hhmm_no c m :
  numeral_char c = false -> c ≠ ":"%char ->
  string_forall (fun x => bool_decide (x ≠ c)) (min_to_hhmm m) = true.
Proof.
  intros Hc Hcolon. rewrite min_to_hhmm_eq, string_forall_app. cbn.
  rewrite !format_02d_no by done. by rewrite bool_decide_eq_true_2.
Qed.

Lemma min_to_hhmm_no_minus m :
  0 <= m -> string_forall (fun x => bool_decide (x ≠ "-"%char)) (min_to_hhmm m) = true.
Proof.
  intros Hm. rewrite min_to_hhmm_eq, string_forall_app. cbn.
  assert (forall n, 0 <= n ->
            string_forall (fun x => bool_decide (x ≠ "-"%char)) (format_02d n) = true) as H.
  { intros n Hn. destruct (format_02d_nonneg n Hn) as (ds & u & -> & Hd & _).
    eapply string_forall_impl; [|exact Hd].
    intros c Hc. apply bool_decide_eq_true. by intros ->. }
  rewrite !H; [done|..].
  - apply Z.mod_pos_bound. lia.
  - apply Z.div_pos; lia.
Qed.

(** X2. Different windows have different storage locations: on minute
    counts that are not negative, [segment_folder], and so [segment_dir],
    is injective. *)
Theorem segment_dir_injective (a b : Segment) :
  0 <= a.1 -> 0 <= a.2 -> 0 <= b.1 -> 0 <= b.2 ->
  a ≠ b -> segment_dir a ≠ segment_dir b.
Proof.
  destruct a as [s e], b as [s' e']. cbn [fst snd]. intros Hs He Hs' He' Hne Heq.
  apply Hne.
  unfold segment_dir, path_div in Heq. cbn [fst snd] in Heq.
  apply app_inj_tail in Heq as [_ Heq].
  unfold segment_folder in Heq.
  change ("-" +:+ ?x) with (String "-" x) in Heq.
  apply append_sep_inj in Heq as [H1 H2];
    try (apply replace_char_keeps_out; [done|by apply min_to_hhmm_no_minus]).
  apply replace_char_inj in H1, H2; try by apply min_to_hhmm_no.
  apply min_to_hhmm_inj in H1, H2. by subst.
Qed.

Lemma segment_dir_injective_witness :
  segment_dir (540, 600) ≠ segment_dir (600, 660).
Proof.
  apply (segment_dir_injective (540, 600) (600, 660)); cbn; try lia. by intros [=].
Defined.

(** ** The schedule file *)

#[global] Instance seg_le_trans : Transitive seg_le.
Proof. intros a b c. unfold seg_le. lia. Qed.
#[global] Instance seg_le_total : Total seg_le.
Proof. intros a b. unfold seg_le. lia. Qed.
#[global] Instance seg_le_antisymm : AntiSymm (=) seg_le.
Proof.
  intros [a1 a2] [b1 b2]. unfold seg_le. cbn. intros H1 H2.
  f_equal; lia.
Qed.

Lemma sort_segments_sorted l : StronglySorted seg_le (sort_segments l).
Proof. apply StronglySorted_merge_sort; apply _. Qed.

Lemma sort_segments_perm l : sort_segments l ≡ₚ l.
Proof. apply merge_sort_Permutation. Qed.

Lemma sort_segments_of_sorted l : StronglySorted seg_le l -> sort_segments l = l.
Proof.
  intros H. apply (StronglySorted_unique seg_le); [apply sort_segments_sorted|done|].
  apply sort_segments_perm.
Qed.

Lemma mainwindow_eq (a b : MainWindow) :
  volume a = volume b -> muted a = muted b -> time_ranges a = time_ranges b ->
  running a = running b -> current_segment a = current_segment b ->
  current_playlist a = current_playlist b -> current_index a = current_index b ->
  waiting_next_segment a = waiting_next_segment b ->
  in_interrupt a = in_interrupt b -> interrupt_state a = interrupt_state b ->
  ondemand_window a = ondemand_window b ->
  graceful_switch_box a = graceful_switch_box b -> a = b.
Proof. destruct a, b; cbn; intros; by subst. Qed.

Lemma for_each_rows rows w :
  for_each rows (fun row =>
    match row_segment row with
    | Some seg => assign (fun m => set_time_ranges m (time_ranges m ++ [seg]))
    | None => pass
    end) w
  = Ok tt (with_self (fun m => set_time_ranges m
                                 (time_ranges m ++ omap row_segment rows)) w).
Proof.
  revert w. induction rows as [|row rows IH]; intros w.
  - cbn. f_equal. apply world_eq; try reflexivity.
    apply mainwindow_eq; try reflexivity. cbn. by rewrite app_nil_r.
  - cbn [for_each omap list_omap]. unfold_monad.
    destruct (row_segment row) as [seg|]; cbn.
    + rewrite IH. f_equal. apply world_eq; try reflexivity.
      apply mainwindow_eq; try reflexivity. cbn. by rewrite <- app_assoc.
    + apply IH.
Qed.

Lemma load_csv_eq w :
  load_csv w
  = Ok tt (with_self (fun m => set_time_ranges m
             match csv_rows w with
             | None => []
             | Some rows => sort_segments (omap row_segment rows)
             end) w).
Proof.
  unfold load_csv. unfold_monad. cbn. destruct (csv_rows w) as [rows|]; [|done].
  rewrite for_each_rows. cbn. reflexivity.
Qed.

#[global] Arguments load_csv : simpl never.

Lemma save_csv_eq w :
  save_csv w
  = Ok tt (with_csv_rows
             (Some ((fun '(s, e) => (min_to_hhmm s, min_to_hhmm e))
                      <$> time_ranges (self w))) w).
Proof. reflexivity. Qed.

#[global] Arguments save_csv : simpl never.

Lemma omap_row_segment_saved rs :
  Forall fits_digits rs ->
  omap row_segment ((fun '(s, e) => (min_to_hhmm s, min_to_hhmm e)) <$> rs) = rs.
Proof.
  induction 1 as [|[s e] rs [H1 H2] _ IH]; [done|].
  cbn. unfold row_segment at 1. cbn in *.
  rewrite !hhmm_to_min_of_text by done. cbn. by rewrite IH.
Qed.

(** X3. The schedule survives its file: [save_csv] followed by [load_csv]
    gives back the schedule, sorted; a schedule that was sorted comes back
    as it was, and nothing else of the window changes. *)
Theorem schedule_file_round_trip w :
  Forall fits_digits (time_ranges (self w)) ->
  exists w',
    (save_csv ≫= fun _ => load_csv) w = Ok tt w'
    /\ self w' = set_time_ranges (self w) (sort_segments (time_ranges (self w)))
    /\ (StronglySorted seg_le (time_ranges (self w)) ->
        time_ranges (self w') = time_ranges (self w)).
Proof.
  intros Hfit. unfold mbind, M_bind. rewrite save_csv_eq, load_csv_eq.
  cbn [csv_rows with_csv_rows]. rewrite omap_row_segment_saved by done.
  eexists. split; [reflexivity|]. split; [reflexivity|].
  intros Hs. cbn. by apply sort_segments_of_sorted.
Qed.

Lemma schedule_file_round_trip_witness :
  exists w',
    (save_csv ≫= fun _ => load_csv) demo_world = Ok tt w'
    /\ time_ranges (self w') = [(540, 600); (600, 660)].
Proof.
  destruct (schedule_file_round_trip demo_world) as (w' & H1 & H2 & _).
  - unfold demo_world. cbn [self time_ranges initial_window].
    do 2 (constructor; [split; apply Nat.leb_le; vm_compute; reflexivity|]).
    constructor.
  - exists w'. split; [exact H1|]. rewrite H2. reflexivity.
Defined.

(** ** Handlers that leave the settings alone *)

Section SettingsFrame.
Context (s0 : Z * bool * list Segment * bool).
Local Abbreviation I := (fun w => settings (self w) = s0).

Lemma start_segment_settings seg : keeps I (start_segment seg).
Proof.
  intros w Hw.
  destruct (start_segment_spec seg w)
    as (w' & -> & _ & _ & _ & _ & (Hv & Hm & Ht & _ & _ & _ & _ & Hg) & _).
  cbn. unfold settings in *. by rewrite Hv, Hm, Ht, Hg.
Qed.

Lemma check_real_time_settings : keeps I check_real_time.
Proof.
  intros w Hw. rewrite check_real_time_eq.
  destruct (_ || _); [done|]. destruct (active_segment w) as [a|]; [|done].
  destruct (decide _); [|done]. destruct (_ && _); [done|].
  by apply start_segment_settings.
Qed.

Lemma on_media_status_settings st : keeps I (on_media_status st).
Proof.
  intros w Hw. destruct (decide (st = EndOfMedia)) as [->|Hne];
    [|by rewrite on_media_status_other].
  rewrite on_media_status_eq.
  destruct (_ || _); [done|].
  destruct (waiting_next_segment (self w)); [by apply start_segment_settings|].
  destruct (decide _) as [|Hne]; [done|].
  apply (keeps_of_self play_current (fun s => settings s = s0)); auto with keeps.
Qed.

Lemma toggle_run_settings : keeps I toggle_run.
Proof.
  assert (keeps I switch_run) as Hsw.
  { unfold switch_run.
    apply keeps_bind; [by apply keeps_modify|intros _].
    apply keeps_bind; [apply keeps_gets|intros r].
    apply keeps_bind; [by apply keeps_modify|intros _].
    destruct r.
    - apply keeps_bind; [by apply keeps_modify|intros _].
      apply check_real_time_settings.
    - do 2 (apply keeps_bind; [by apply keeps_modify|intros _]).
      intros w Hw. by rewrite stop_playback_state_eq. }
  unfold toggle_run. apply keeps_bind; [apply keeps_gets|intros s].
  destruct (negb (running s)); [|done].
  destruct (decide _); [by apply keeps_modify|].
  apply keeps_bind; [|intros []; [done|by apply keeps_modify]].
  intros w Hw. unfold any_segment_has_video. unfold_monad. cbn.
  by destruct (any_segment_has_video_in_spec (time_ranges (self w)) w) as (b & -> & _).
Qed.

Lemma start_on_demand_settings : keeps I start_on_demand.
Proof.
  intros w Hw. unfold start_on_demand. unfold_monad. cbn.
  by destruct (in_interrupt (self w)).
Qed.

Lemma resume_from_interrupt_settings t : keeps I (resume_from_interrupt t).
Proof.
  intros w Hw. rewrite resume_from_interrupt_eq. cbv zeta.
  destruct (negb (running (self w))); [done|].
  destruct (interrupt_state (self w)) as [[[[[seg plist] idx] pos] wnext]|].
  - destruct (_ && _ && _).
    + by destruct (Py.getitem plist _).
    + by apply check_real_time_settings.
  - by apply check_real_time_settings.
Qed.

Lemma handle_settings ev : ~ writes_settings ev -> keeps I (handle ev).
Proof.
  intros Hev. destruct ev; cbn [handle]; try (by destruct Hev).
  - apply (keeps_of_self _ (fun s => settings s = s0)). intros s. solve_keeps.
  - apply (keeps_of_self _ (fun s => settings s = s0)). auto with keeps.
  - apply (keeps_of_self _ (fun s => settings s = s0)). auto with keeps.
  - apply (keeps_of_self _ (fun s => settings s = s0)). auto with keeps.
  - apply toggle_run_settings.
  - apply check_real_time_settings.
  - apply on_media_status_settings.
  - apply start_on_demand_settings.
  - apply keeps_bind; [apply keeps_gets|intros []];
      [apply resume_from_interrupt_settings|apply keeps_ret].
  - apply (keeps_of_self _ (fun s => settings s = s0)). auto with keeps.
  - by apply keeps_modify.
Qed.
End SettingsFrame.

(** ** Deleting a window *)

Lemma selected_segment_eq idx w : selected_segment idx w = Ok (selected w idx) w.
Proof.
  unfold selected_segment, selected. unfold_monad. cbn. by destruct (decide _).
Qed.

Lemma selected_elem_of w idx seg :
  selected w idx = Some seg -> seg ∈ time_ranges (self w).
Proof.
  unfold selected. destruct (decide _); [done|]. apply list_elem_of_lookup_2.
Qed.

Lemma list_remove_elem_of x l :
  x ∈ l -> exists l', list_remove x l = Some l' /\ l ≡ₚ x :: l'.
Proof.
  induction l as [|y l IH]; [by intros ?%elem_of_nil|]. intros Hin. cbn.
  destruct (decide (y = x)) as [->|Hne]; [by exists l|].
  apply elem_of_cons in Hin as [->|Hin]; [done|].
  destruct (IH Hin) as (l' & -> & Hp). exists (y :: l'). split; [done|].
  rewrite Hp. apply perm_swap.
Qed.

Lemma list_remove_sublist x l l' : list_remove x l = Some l' -> l' `sublist_of` l.
Proof.
  revert l'. induction l as [|y l IH]; intros l'; [done|]. cbn.
  destruct (decide (y = x)) as [->|Hne].
  - intros [= <-]. by apply sublist_cons.
  - destruct (list_remove x l) as [t|]; [|done]. cbn. intros [= <-].
    apply sublist_skip. by apply IH.
Qed.

Lemma StronglySorted_of_sublist {A} (R : relation A) (l l' : list A) :
  l' `sublist_of` l -> StronglySorted R l -> StronglySorted R l'.
Proof.
  induction 1 as [|x l1 l2 Hs IH|x l1 l2 Hs IH]; intros Hl; [done|..].
  - apply StronglySorted_inv in Hl as [Hl Hx]. constructor; [by apply IH|].
    apply Forall_forall. intros y Hy. rewrite Forall_forall in Hx.
    apply Hx. by eapply elem_of_sublist.
  - apply StronglySorted_inv in Hl as [Hl _]. by apply IH.
Qed.

Lemma no_overlap_tail x l : no_overlap (x :: l) -> no_overlap l.
Proof. intros H i j a b Hij Hi Hj. apply (H (S i) (S j) a b); [lia|done..]. Qed.

Lemma delete_segment_none idx w :
  selected w idx = None -> delete_segment idx w = Ok tt w.
Proof.
  intros H. unfold delete_segment.
  rewrite (bind_ok _ _ _ _ _ (selected_segment_eq idx w)). by rewrite H.
Qed.

Lemma delete_segment_some idx seg w :
  selected w idx = Some seg ->
  exists rs' w',
    delete_segment idx w = Ok tt w'
    /\ list_remove seg (time_ranges (self w)) = Some rs'
    /\ time_ranges (self w') = rs'
    /\ fs w' = match rs' with
               | [] => without_tree (segment_dir seg) (fs w)
               | hd :: _ =>
                   <[segment_dir hd :=
                       resolved_dir (default ∅ (without_tree (segment_dir seg) (fs w)
                                                  !! segment_dir hd))]>
                     (without_tree (segment_dir seg) (fs w))
               end
    /\ csv_rows w' = Some (schedule_rows rs')
    /\ (volume (self w'), muted (self w'), graceful_switch_box (self w'))
       = (volume (self w), muted (self w), graceful_switch_box (self w))
    /\ run_state (self w') = run_state (self w)
    /\ (if decide (current_segment (self w) = Some seg)
        then playback (self w') = (None, [], 0, None)
             /\ calls w' = calls w ++ [PlayerStop]
        else playback (self w') = playback (self w) /\ calls w' = calls w).
Proof.
  intros Hsel. unfold delete_segment.
  rewrite (bind_ok _ _ _ _ _ (selected_segment_eq idx w)). rewrite Hsel.
  destruct (list_remove_elem_of seg (time_ranges (self w)))
    as (rs' & Hrm & _); [by eapply selected_elem_of|].
  exists rs'.
  assert (forall w0 : World,
            time_ranges (self w0) = time_ranges (self w) -> fs w0 = fs w ->
            exists w',
              (rs ← gets time_ranges;
               match list_remove seg rs with
               | Some rs1 =>
                   assign (fun m => set_time_ranges m rs1);;
                   rmtree (segment_dir seg);; save_csv;; refresh_segments
               | None => raise ValueError
               end) w0 = Ok tt w'
              /\ self w' = set_time_ranges (self w0) rs'
              /\ calls w' = calls w0
              /\ csv_rows w' = Some (schedule_rows rs')
              /\ fs w' = match rs' with
                         | [] => without_tree (segment_dir seg) (fs w)
                         | hd :: _ =>
                             <[segment_dir hd :=
                                 resolved_dir (default ∅ (without_tree (segment_dir seg) (fs w)
                                                            !! segment_dir hd))]>
                               (without_tree (segment_dir seg) (fs w))
                         end) as Htail.
  { intros w0 Ht Hf. unfold mbind at 1, M_bind, gets. rewrite Ht, Hrm.
    unfold rmtree, assign. unfold mbind, M_bind, modify. rewrite save_csv_eq.
    match goal with |- context [refresh_segments ?w1] =>
      destruct (refresh_segments_ok w1) as (w' & -> & Hs & Hc & (Hcsv & _) & Hfs) end.
    exists w'. split; [done|]. split; [by rewrite Hs|]. split; [by rewrite Hc|].
    split; [by rewrite Hcsv|]. rewrite Hfs. cbn [self with_csv_rows with_fs with_self
      time_ranges set_time_ranges].
    unfold without_tree.
    destruct rs' as [|hd rs1]; [cbn [fs with_csv_rows with_fs with_self]; by rewrite Hf|].
    rewrite load_ordered_files_eq. cbn [world_of fs with_fs with_csv_rows with_self].
    unfold entries. cbn [fs with_fs with_csv_rows with_self]. rewrite Hf.
    by rewrite merged_eq, path_name_div_fmap. }
  rewrite (bind_ok (gets current_segment) _ w (current_segment (self w)) w eq_refl).
  cbv beta.
  destruct (decide (current_segment (self w) = Some seg)) as [Hc|Hc].
  - rewrite (bind_ok (call PlayerStop ≫= fun _ => stop_playback_state) _ w tt
               (with_self idle (with_calls (fun l => l ++ [PlayerStop]) w)) eq_refl).
    destruct (Htail (with_self idle (with_calls (fun l => l ++ [PlayerStop]) w)))
      as (w' & Hw' & Hs & Hcl & Hcsv & Hfs); [done|done|].
    exists w'. split; [exact Hw'|]. rewrite Hs, Hcl. cbn. by repeat split.
  - rewrite (bind_ok pass _ w tt w eq_refl).
    destruct (Htail w) as (w' & Hw' & Hs & Hcl & Hcsv & Hfs); [done|done|].
    exists w'. split; [exact Hw'|]. rewrite Hs, Hcl. cbn. by repeat split.
Qed.

#[global] Arguments delete_segment : simpl never.

(** ** What the settings go through *)

Lemma set_volume_self v w :
  self (world_of (set_volume v w)) = set_volume_attr (self w) (Z.max 0 (Z.min 100 v)).
Proof.
  unfold set_volume.
  assert (keeps (fun w' => self w' = set_volume_attr (self w) (Z.max 0 (Z.min 100 v)))
            (apply_volume_to_main_audio ≫= fun _ => push_volume_to_ondemand)) as Hk.
  { apply keeps_bind; [|intros _]; auto with keeps. }
  unfold mbind at 1, M_bind, assign, modify. by apply Hk.
Qed.

Lemma toggle_mute_self w :
  self (world_of (toggle_mute w)) = set_muted (self w) (negb (muted (self w))).
Proof.
  unfold toggle_mute.
  assert (keeps (fun w' => self w' = set_muted (self w) (negb (muted (self w))))
            (apply_volume_to_main_audio ≫= fun _ => push_volume_to_ondemand)) as Hk.
  { apply keeps_bind; [|intros _]; auto with keeps. }
  unfold mbind at 1, M_bind, assign, modify. by apply Hk.
Qed.

Lemma add_segment_time_ranges st et w :
  let rs' := time_ranges (self (world_of (add_segment st et w))) in
  (rs' = time_ranges (self w)
   \/ rs' = sort_segments (time_ranges (self w) ++ [(qtime_to_min st, qtime_to_min et)]))
  /\ volume (self (world_of (add_segment st et w))) = volume (self w).
Proof.
  cbv zeta.
  destruct (decide (qtime_to_min et < qtime_to_min st)) as [Hlt|Hge].
  { rewrite add_segment_invalid by done. split; [by left|done]. }
  destruct (has_overlap (time_ranges (self w)) (qtime_to_min st, qtime_to_min et)) eqn:Ho.
  { rewrite add_segment_overlap by done. split; [by left|done]. }
  destruct (add_segment_accepted st et w Hge Ho) as (w' & -> & Hs & _).
  cbn [world_of]. rewrite Hs. split; [by right|done].
Qed.

Lemma delete_segment_time_ranges idx w :
  time_ranges (self (world_of (delete_segment idx w))) `sublist_of` time_ranges (self w)
  /\ volume (self (world_of (delete_segment idx w))) = volume (self w).
Proof.
  destruct (selected w idx) as [seg|] eqn:Hsel.
  - destruct (delete_segment_some idx seg w Hsel)
      as (rs' & w' & -> & Hrm & Ht & _ & _ & Hv & _).
    cbn [world_of]. rewrite Ht. split; [by eapply list_remove_sublist|congruence].
  - by rewrite delete_segment_none.
Qed.

Lemma handle_keeps_sorted ev w :
  StronglySorted seg_le (time_ranges (self w)) ->
  StronglySorted seg_le (time_ranges (self (world_of (handle ev w)))).
Proof.
  intros Hs. destruct (decide (writes_settings ev)) as [Hev|Hev].
  - destruct ev; try done; cbn [handle].
    + destruct (add_segment_time_ranges start_t end_t w) as [[-> | ->] _];
        [done|apply sort_segments_sorted].
    + destruct (delete_segment_time_ranges idx w) as [Hsub _].
      by eapply StronglySorted_of_sublist.
    + by rewrite set_volume_self.
    + by rewrite toggle_mute_self.
  - pose proof (handle_settings (settings (self w)) ev Hev w eq_refl) as H.
    cbv beta in H. unfold settings in H. by injection H as _ _ -> _.
Qed.

Lemma handle_keeps_volume ev w :
  0 <= volume (self w) <= 100 ->
  0 <= volume (self (world_of (handle ev w))) <= 100.
Proof.
  intros Hs. destruct (decide (writes_settings ev)) as [Hev|Hev].
  - destruct ev; try done; cbn [handle].
    + by destruct (add_segment_time_ranges start_t end_t w) as [_ ->].
    + by destruct (delete_segment_time_ranges idx w) as [_ ->].
    + rewrite set_volume_self. cbn. lia.
    + by rewrite toggle_mute_self.
  - pose proof (handle_settings (settings (self w)) ev Hev w eq_refl) as H.
    cbv beta in H. unfold settings in H. by injection H as -> _ _ _.
Qed.

(** X4. The schedule is sorted: [load_csv] leaves it sorted by start, then
    end, and every handler keeps it so - an accepted window is put in its
    place, a deleted one leaves the others in order. *)
Theorem schedule_stays_sorted evs w :
  StronglySorted seg_le (time_ranges (self (run evs (world_of (load_csv w))))).
Proof.
  assert (StronglySorted seg_le (time_ranges (self (world_of (load_csv w))))) as H0.
  { rewrite load_csv_eq. cbn. destruct (csv_rows w); [apply sort_segments_sorted|constructor]. }
  revert H0. generalize (world_of (load_csv w)). clear w.
  induction evs as [|ev evs IH]; intros w Hw; [done|].
  rewrite run_cons. by apply IH, handle_keeps_sorted.
Qed.

(** X5. The volume stays between 0 and 100: whatever value the slider or
    the shortcuts ask for, in every reachable world. *)
Theorem volume_stays_in_range w :
  reachable w -> 0 <= volume (self w) <= 100.
Proof.
  intros (w0 & evs & [ranges Hinit] & ->).
  assert (0 <= volume (self w0) <= 100) as H0 by (rewrite Hinit; cbn; lia).
  revert H0. clear Hinit. revert w0.
  induction evs as [|ev evs IH]; intros w Hw; [done|].
  rewrite run_cons. by apply IH, handle_keeps_volume.
Qed.

Lemma volume_stays_in_range_witness :
  0 <= volume (self (run [EvSetVolume 250; EvToggleMute; EvSetVolume (-3)] demo_world)) <= 100.
Proof.
  apply volume_stays_in_range.
  exists demo_world, [EvSetVolume 250; EvToggleMute; EvSetVolume (-3)].
  split; [by exists [(540, 600); (600, 660)]|reflexivity].
Defined.

Lemma list_remove_Some x l l' :
  list_remove x l = Some l' ->
  exists l1 l2, l = l1 ++ x :: l2 /\ (x ∉ l1) /\ l' = l1 ++ l2.
Proof.
  revert l'. induction l as [|y l IH]; intros l'; [done|]. cbn.
  destruct (decide (y = x)) as [->|Hne].
  - intros [= <-]. exists [], l. split; [done|]. split; [apply not_elem_of_nil|done].
  - destruct (list_remove x l) as [t|]; [|done]. cbn. intros [= <-].
    destruct (IH t eq_refl) as (l1 & l2 & -> & Hx & ->).
    exists (y :: l1), l2. split; [done|]. split; [|done].
    rewrite elem_of_cons. intros [->|?]; done.
Qed.

Lemma lookup_without_tree (d : list string)
    (f : gmap (list string) (gmap string string)) (k : list string) :
  without_tree d f !! k = if decide (d `prefix_of` k) then None else f !! k.
Proof.
  unfold without_tree. destruct (decide (d `prefix_of` k)) as [Hp|Hp].
  - apply map_lookup_filter_None_2. right. intros x _ Hx. by apply Hx.
  - destruct (f !! k) as [x|] eqn:Hk.
    + by apply map_lookup_filter_Some_2.
    + apply map_lookup_filter_None_2. by left.
Qed.

Lemma segment_dir_prefix a b :
  segment_dir a `prefix_of` segment_dir b -> segment_dir a = segment_dir b.
Proof. intros H. by apply prefix_length_eq. Qed.

(** X6. Deleting a window.  With no valid selection nothing happens.
    Otherwise the first occurrence of the selected window leaves the
    schedule and the schedule file is written anew.  Every file in the
    directory of the window or below it is gone and every other file is as
    it was, but for one: [refresh_segments] selects the first window that
    is left, and so resolves its playlist and writes its order file.  The
    player is stopped and playback goes idle exactly when the deleted
    window was the current one - a window that is only pending stays
    pending. *)
Theorem delete_segment_effect idx w :
  match selected w idx with
  | None => delete_segment idx w = Ok tt w
  | Some seg =>
      exists l1 l2 w',
        time_ranges (self w) = l1 ++ seg :: l2 /\ (seg ∉ l1)
        /\ delete_segment idx w = Ok tt w'
        /\ time_ranges (self w') = l1 ++ l2
        /\ csv_rows w' = Some (schedule_rows (l1 ++ l2))
        /\ (forall d n,
              (forall hd, head (l1 ++ l2) = Some hd ->
                          (d, n) ≠ (segment_dir hd, ORDER_FILE)) ->
              file_at w' d n
              = if decide (segment_dir seg `prefix_of` d) then None
                else file_at w d n)
        /\ (forall hd,
              head (l1 ++ l2) = Some hd ->
              segment_dir hd ≠ segment_dir seg ->
              is_Some (fs w !! segment_dir hd) ->
              file_at w' (segment_dir hd) ORDER_FILE
              = Some (order_text (resolved_names (mp4_names (entries w hd))
                                    (recorded_names (entries w hd)))))
        /\ (if decide (current_segment (self w) = Some seg)
            then playback (self w') = (None, [], 0, None)
                 /\ calls w' = calls w ++ [PlayerStop]
            else playback (self w') = playback (self w) /\ calls w' = calls w)
  end.
Proof.
  destruct (selected w idx) as [seg|] eqn:Hsel; [|by apply delete_segment_none].
  destruct (delete_segment_some idx seg w Hsel)
    as (rs' & w' & Hd & Hrm & Ht & Hfs & Hcsv & _ & _ & Hpb).
  destruct (list_remove_Some _ _ _ Hrm) as (l1 & l2 & Hl & Hx & ->).
  exists l1, l2, w'. do 5 (split; [done|]). split; [|split; [|done]].
  - intros d n Hdn. unfold file_at. rewrite Hfs.
    destruct (l1 ++ l2) as [|hd rest].
    + rewrite lookup_without_tree.
      by destruct (decide (segment_dir seg `prefix_of` d)).
    + specialize (Hdn hd eq_refl).
      destruct (decide (d = segment_dir hd)) as [->|Hne].
      * rewrite lookup_insert_eq. cbn. unfold resolved_dir.
        rewrite lookup_insert_ne by (intros <-; by apply Hdn).
        rewrite lookup_without_tree.
        destruct (decide (segment_dir seg `prefix_of` segment_dir hd)); [done|].
        by destruct (fs w !! segment_dir hd).
      * rewrite lookup_insert_ne by done. rewrite lookup_without_tree.
        by destruct (decide (segment_dir seg `prefix_of` d)).
  - intros hd Hhd Hne _. unfold file_at. rewrite Hfs.
    destruct (l1 ++ l2) as [|hd' rest]; [done|]. injection Hhd as ->.
    rewrite lookup_insert_eq. cbn. unfold resolved_dir. rewrite lookup_insert_eq.
    rewrite lookup_without_tree.
    rewrite decide_False by (intros Hp%segment_dir_prefix; by apply Hne).
    done.
Qed.

(** X7. With a schedule that has no overlap, [find_active_segment] returns
    a window exactly when it is in the schedule and holds the minute of
    the clock, its end excluded: no other window can be returned in its
    place. *)
Theorem find_active_segment_unique w seg :
  no_overlap (time_ranges (self w)) ->
  find_active_segment w = Ok (Some seg) w
  <-> seg ∈ time_ranges (self w)
      /\ seg.1 <= (now w).1 * 60 + (now w).2 < seg.2.
Proof.
  intros Hno. rewrite find_active_segment_eq. unfold active_segment.
  set (m := (now w).1 * 60 + (now w).2).
  split.
  - intros [= H]. apply find_some in H as [Hin Hm].
    apply bool_decide_eq_true in Hm. by rewrite list_elem_of_In.
  - intros [Hin Hm].
    destruct (List.find _ _) as [a|] eqn:Hf.
    + apply find_some in Hf as [Ha Hma]. apply bool_decide_eq_true in Hma.
      apply list_elem_of_In, list_elem_of_lookup in Ha as [i Hi].
      apply list_elem_of_lookup in Hin as [j Hj].
      destruct (decide (i = j)) as [->|Hij]; [by simplify_eq|].
      destruct (Hno i j a seg Hij Hi Hj). lia.
    + pose proof (find_none _ _ Hf seg) as Hn. cbv beta in Hn.
      rewrite bool_decide_eq_false in Hn. destruct Hn; [by apply list_elem_of_In|done].
Qed.

Lemma find_active_segment_unique_witness :
  find_active_segment demo_world = Ok (Some (540, 600)) demo_world
  <-> (540, 600) ∈ time_ranges (self demo_world)
      /\ (540, 600).1 <= (now demo_world).1 * 60 + (now demo_world).2 < (540, 600).2.
Proof.
  apply find_active_segment_unique.
  intros [|[|[|i]]] [|[|[|j]]] a b Hij Hi Hj; cbn in Hi, Hj; simplify_eq; cbn; lia.
Defined.

(** ** The attributes agree with each other *)

Lemma switch_run_eq w :
  switch_run w =
    if running (self w)
    then Ok tt (with_calls (fun l => l ++ [RunBtnSetText false; TimerStop; PlayerStop])
                  (with_self (fun s => idle (set_running s false)) w))
    else check_real_time
           (with_calls (fun l => l ++ [RunBtnSetText true; TimerStart 1000])
              (with_self (fun s => set_running s true) w)).
Proof.
  unfold switch_run. unfold_monad. cbn [self with_self].
  destruct (running (self w)) eqn:Hr; cbn [negb running set_running].
  - rewrite stop_playback_state_eq. f_equal. apply world_eq; try reflexivity.
    + cbn [self with_calls with_self]. by rewrite Hr.
    + cbn [calls with_calls with_self]. by rewrite <- ?app_assoc.
  - f_equal. apply world_eq; try reflexivity.
    + cbn [self with_calls with_self]. by rewrite Hr.
    + cbn [calls with_calls with_self]. by rewrite <- ?app_assoc.
Qed.

#[global] Arguments switch_run : simpl never.

Lemma toggle_run_eq w :
  exists has : bool,
    (has = true <-> exists seg n, seg ∈ time_ranges (self w) /\ playable w seg n)
    /\ toggle_run w =
         if running (self w) then switch_run w
         else if decide (time_ranges (self w) = [])
              then Ok tt (with_calls (fun l => l ++ [MessageBox MsgNoSegments]) w)
              else if has then switch_run w
                   else Ok tt (with_calls (fun l => l ++ [MessageBox MsgNoVideos]) w).
Proof.
  destruct (any_segment_has_video_in_spec (time_ranges (self w)) w) as (b & Hb & Hiff).
  exists b. split; [done|].
  unfold toggle_run, any_segment_has_video. unfold_monad. cbn [self id].
  destruct (running (self w)); cbn [negb]; [done|].
  destruct (decide _); [done|]. rewrite Hb. by destruct b.
Qed.

#[global] Arguments toggle_run : simpl never.

Section Coherent.
Local Abbreviation I := (fun w => coherent (self w)).

Lemma keeps_coherent_of_self {A} (m : M A) :
  (forall s, keeps (fun w => self w = s) m) -> keeps I m.
Proof. apply (keeps_of_self m coherent). Qed.

Lemma start_segment_coherent seg w :
  running (self w) = true -> I w -> I (world_of (start_segment seg w)).
Proof.
  intros Hrun (_ & _ & Hod).
  destruct (start_segment_spec seg w)
    as (w' & -> & Hc & Hn & Hpl & Hi & (_&_&_&Hr&Hii&_&Hood&_) & _).
  cbn [world_of]. unfold coherent. rewrite Hc, Hr, Hii, Hood, Hrun. done.
Qed.

Lemma check_real_time_coherent : keeps I check_real_time.
Proof.
  intros w Hw. rewrite check_real_time_eq.
  destruct (running (self w)) eqn:Hr; [|done]. cbn [negb orb].
  destruct (in_interrupt (self w)); [done|].
  destruct (active_segment w) as [a|]; [|done].
  destruct (decide _); [|done].
  destruct (bool_decide _ && _) eqn:Hg; [|by apply start_segment_coherent].
  apply andb_prop in Hg as [[c Hc]%bool_decide_eq_true _].
  destruct Hw as (H1 & H2 & H3). cbn [world_of]. unfold coherent, playback. cbn.
  rewrite Hr, Hc. done.
Qed.

Lemma on_media_status_coherent st : keeps I (on_media_status st).
Proof.
  intros w Hw. destruct (decide (st = EndOfMedia)) as [->|Hne];
    [|by rewrite on_media_status_other].
  rewrite on_media_status_eq.
  destruct (running (self w)) eqn:Hr; [|done]. cbn [negb orb].
  destruct (in_interrupt (self w)); [done|].
  destruct (waiting_next_segment (self w)); [by apply start_segment_coherent|].
  destruct (decide _) as [|Hne]; [done|].
  apply (keeps_coherent_of_self play_current); [auto with keeps|].
  destruct Hw as (H1 & H2 & H3). unfold coherent, playback. cbn.
  rewrite Hr. split; [done|]. split; [|done].
  intros Hc. by destruct (H2 Hc).
Qed.

Lemma switch_run_coherent : keeps I switch_run.
Proof.
  intros w Hw. rewrite switch_run_eq. destruct (running (self w)) eqn:Hr.
  - destruct Hw as (_ & _ & H3). by cbn.
  - apply check_real_time_coherent. destruct Hw as (H1 & H2 & H3).
    unfold coherent, playback. by cbn.
Qed.

Lemma toggle_run_coherent : keeps I toggle_run.
Proof.
  intros w Hw. destruct (toggle_run_eq w) as (has & _ & ->).
  destruct (running (self w)); [by apply switch_run_coherent|].
  destruct (decide _); [done|].
  destruct has; [by apply switch_run_coherent|done].
Qed.

Lemma add_segment_coherent st et : keeps I (add_segment st et).
Proof.
  intros w Hw.
  destruct (decide (qtime_to_min et < qtime_to_min st)) as [Hlt|Hge].
  { by rewrite add_segment_invalid. }
  destruct (has_overlap (time_ranges (self w)) (qtime_to_min st, qtime_to_min et)) eqn:Ho.
  { by rewrite add_segment_overlap. }
  destruct (add_segment_accepted st et w Hge Ho) as (w' & -> & Hs & _).
  cbn [world_of]. by rewrite Hs.
Qed.

Lemma delete_segment_coherent idx : keeps I (delete_segment idx).
Proof.
  intros w Hw. destruct (selected w idx) as [seg|] eqn:Hsel;
    [|by rewrite delete_segment_none].
  destruct (delete_segment_some idx seg w Hsel)
    as (rs' & w' & -> & _ & _ & _ & _ & _ & Hrs & Hpb).
  cbn [world_of]. destruct Hw as (H1 & H2 & H3).
  unfold coherent, run_state, playback in *.
  injection Hrs as Hr Hi _ Ho. rewrite Hr, Hi, Ho.
  destruct (decide _) as [Hc|Hc]; destruct Hpb as [Hpb _].
  - by injection Hpb as -> -> -> ->.
  - by injection Hpb as -> -> -> ->.
Qed.

Lemma start_on_demand_coherent : keeps I start_on_demand.
Proof.
  intros w Hw. unfold start_on_demand. unfold_monad. cbn.
  destruct (in_interrupt (self w)) eqn:Hi; [done|].
  destruct Hw as (H1 & H2 & H3). by cbn.
Qed.

Lemma resume_from_interrupt_coherent t : keeps I (resume_from_interrupt t).
Proof.
  intros w (H1 & H2 & H3). rewrite resume_from_interrupt_eq. cbv zeta.
  destruct (running (self w)) eqn:Hr; cbn [negb].
  2:{ unfold coherent, playback in *. cbn. rewrite Hr. auto. }
  destruct (interrupt_state (self w)) as [[[[[seg plist] idx] pos] wnext]|] eqn:Hst.
  - destruct (_ && _ && bool_decide (plist ≠ [])) eqn:Hc.
    + apply andb_prop in Hc as [[[c ->]%bool_decide_eq_true _]%andb_prop _].
      destruct (Py.getitem plist _); unfold coherent, playback; cbn; by rewrite Hr.
    + apply check_real_time_coherent. unfold coherent, playback. cbn. by rewrite Hr.
  - apply check_real_time_coherent. unfold coherent, playback in *. cbn.
    rewrite Hr. auto.
Qed.

Lemma handle_coherent ev : keeps I (handle ev).
Proof.
  destruct ev; cbn [handle].
  - apply add_segment_coherent.
  - apply delete_segment_coherent.
  - apply keeps_coherent_of_self. intros s. solve_keeps.
  - apply keeps_coherent_of_self. auto with keeps.
  - apply keeps_coherent_of_self. auto with keeps.
  - apply keeps_coherent_of_self. auto with keeps.
  - apply toggle_run_coherent.
  - apply check_real_time_coherent.
  - apply on_media_status_coherent.
  - apply start_on_demand_coherent.
  - intros w Hw. unfold_monad. cbn [self].
    destruct (ondemand_window (self w)); [by apply resume_from_interrupt_coherent|done].
  - intros w Hw. by rewrite set_volume_self.
  - intros w Hw. by rewrite toggle_mute_self.
  - apply keeps_coherent_of_self. auto with keeps.
  - by apply keeps_modify.
  - by apply keeps_modify.
Qed.
End Coherent.

Lemma coherent_of_reachable w : reachable w -> coherent (self w).
Proof.
  intros (w0 & evs & [ranges Hinit] & ->).
  assert (coherent (self w0)) as H0 by (by rewrite Hinit).
  revert H0. clear Hinit. revert w0.
  induction evs as [|ev evs IH]; intros w Hw; [done|].
  rewrite run_cons. by apply IH, handle_coherent.
Qed.

(** X8. In every reachable world the attributes agree with each other:
    while the run is stopped there is no current window, no playlist, index
    0 and no pending window; without a current window the playlist is
    empty, the index 0 and nothing is pending; and an interruption is on
    exactly while the on-demand window is referred to. *)
Theorem reachable_coherent w : reachable w -> coherent (self w).
Proof. apply coherent_of_reachable. Qed.

Lemma reachable_coherent_witness :
  coherent (self (run [EvToggleRun; EvStartOnDemand; EvDeleteSegment 0] demo_world)).
Proof.
  apply reachable_coherent.
  exists demo_world, [EvToggleRun; EvStartOnDemand; EvDeleteSegment 0].
  split; [by exists [(540, 600); (600, 660)]|reflexivity].
Defined.

(** ** What the player is given *)

Lemma sources_app cs1 cs2 : sources (cs1 ++ cs2) = sources cs1 ++ sources cs2.
Proof. apply omap_app. Qed.

Lemma sources_volume_calls s : sources (volume_calls s) = [].
Proof. unfold volume_calls. by destruct (muted s). Qed.

Lemma getitem_elem_of {A} (l : list A) i x : Py.getitem l i = Some x -> x ∈ l.
Proof.
  unfold Py.getitem. repeat destruct (decide _); try done;
    apply list_elem_of_lookup_2.
Qed.

Section SourcesUnchanged.
Context (ps : list (list string)).
Local Abbreviation I := (fun w => sources (calls w) = ps).

Lemma keeps_call_other c : source_of c = None -> keeps I (call c).
Proof.
  intros Hc. apply keeps_modify. intros w Hw. cbn.
  rewrite sources_app. cbn. rewrite Hc. cbn. by rewrite app_nil_r.
Qed.

Ltac sources_step :=
  lazymatch goal with
  | |- keeps _ (mbind _ _) => apply keeps_bind; [|intros ?]
  | |- keeps _ (mret _) => apply keeps_ret
  | |- keeps _ pass => apply keeps_ret
  | |- keeps _ (raise _) => apply keeps_raise
  | |- keeps _ get => apply keeps_get
  | |- keeps _ (gets _) => apply keeps_gets
  | |- keeps _ (call _) => apply keeps_call_other; reflexivity
  | |- keeps _ (assign _) => apply keeps_modify; intros ? ?; assumption
  | |- keeps _ (modify _) => apply keeps_modify; intros ? ?; assumption
  | |- keeps _ (for_each _ _) => apply keeps_for_each; intros ?
  | |- keeps _ (match ?x with _ => _ end) => destruct x
  | |- keeps _ _ => solve [auto with nocore sources]
  end.
Ltac solve_sources := repeat sources_step.

Lemma mkdir_sources d : keeps I (mkdir d).
Proof. unfold mkdir. solve_sources. Qed.
Lemma path_exists_sources p : keeps I (path_exists p).
Proof. unfold path_exists. solve_sources. Qed.
Lemma write_text_sources p t : keeps I (write_text p t).
Proof. unfold write_text. solve_sources. Qed.
Lemma read_text_sources p : keeps I (read_text p).
Proof. unfold read_text. solve_sources. Qed.
Lemma unlink_sources p : keeps I (unlink p).
Proof. unfold unlink. solve_sources. Qed.
Lemma copy_sources a b : keeps I (copy a b).
Proof.
  unfold copy. apply keeps_bind; [apply read_text_sources|intros ?].
  apply write_text_sources.
Qed.
Lemma write_order_sources seg names : keeps I (write_order seg names).
Proof. unfold write_order. apply write_text_sources. Qed.
Lemma load_ordered_files_sources seg : keeps I (load_ordered_files seg).
Proof. intros w Hw. by rewrite load_ordered_files_eq. Qed.
Lemma selected_segment_sources idx : keeps I (selected_segment idx).
Proof. intros w Hw. by rewrite selected_segment_eq. Qed.
Lemma apply_volume_sources : keeps I apply_volume_to_main_audio.
Proof.
  intros w Hw. rewrite apply_volume_eq. cbn.
  by rewrite sources_app, sources_volume_calls, app_nil_r.
Qed.
Lemma push_volume_sources : keeps I push_volume_to_ondemand.
Proof. unfold push_volume_to_ondemand. solve_sources. Qed.

Lemma refresh_playlist_view_sources idx : keeps I (refresh_playlist_view idx).
Proof.
  unfold refresh_playlist_view.
  apply keeps_bind; [apply selected_segment_sources|intros [seg|]]; [|apply keeps_ret].
  apply keeps_bind; [apply load_ordered_files_sources|intros ?]. apply keeps_ret.
Qed.
Lemma save_ui_order_sources idx view :
  keeps I (save_ui_order_for_selected_segment idx view).
Proof.
  unfold save_ui_order_for_selected_segment.
  apply keeps_bind; [apply selected_segment_sources|intros [seg|]]; [|apply keeps_ret].
  apply write_order_sources.
Qed.
Lemma add_video_sources idx paths : keeps I (add_video idx paths).
Proof.
  unfold add_video.
  apply keeps_bind; [apply selected_segment_sources|intros [seg|]];
    [|by apply keeps_call_other].
  destruct (decide _); [apply keeps_ret|].
  apply keeps_bind.
  { apply keeps_for_each. intros src.
    apply keeps_bind; [apply path_exists_sources|intros []];
      [apply keeps_ret|apply copy_sources]. }
  intros _. apply keeps_bind; [apply load_ordered_files_sources|intros _].
  apply keeps_bind; [apply refresh_playlist_view_sources|intros _]. apply keeps_ret.
Qed.
Lemma delete_video_sources idx view r : keeps I (delete_video idx view r).
Proof.
  unfold delete_video.
  apply keeps_bind; [apply selected_segment_sources|intros [seg|]]; [|apply keeps_ret].
  destruct (decide _); [apply keeps_ret|].
  destruct (view !! _); [|apply keeps_raise].
  apply keeps_bind; [apply keeps_get|intros w0].
  apply keeps_bind; [|intros _; apply save_ui_order_sources].
  destruct (decide _); [apply unlink_sources|apply keeps_ret].
Qed.
Lemma toggle_pause_dispatch_sources : keeps I toggle_pause_dispatch.
Proof. unfold toggle_pause_dispatch, toggle_main_pause. solve_sources. Qed.
Lemma set_volume_sources v : keeps I (set_volume v).
Proof.
  unfold set_volume. apply keeps_bind; [by apply keeps_modify|intros _].
  apply keeps_bind; [apply apply_volume_sources|intros _; apply push_volume_sources].
Qed.
Lemma toggle_mute_sources : keeps I toggle_mute.
Proof.
  unfold toggle_mute. apply keeps_bind; [by apply keeps_modify|intros _].
  apply keeps_bind; [apply apply_volume_sources|intros _; apply push_volume_sources].
Qed.
End SourcesUnchanged.

(** What [play_current] leaves behind, whether it returns or raises: the
    window as it was, and at most one item given to the player, taken from
    the playlist. *)
Lemma play_current_sources w :
  self (world_of (play_current w)) = self w
  /\ exists given,
       sources (calls (world_of (play_current w))) = sources (calls w) ++ given
       /\ forall p, p ∈ given -> p ∈ current_playlist (self w).
Proof.
  split; [by apply play_current_self|].
  destruct (Py.getitem (current_playlist (self w)) (current_index (self w)))
    as [p|] eqn:Hp.
  - rewrite (play_current_ok w p Hp). cbn [world_of calls with_calls]. exists [p].
    rewrite sources_app. unfold play_calls.
    rewrite sources_app, sources_volume_calls. split; [done|].
    intros q ->%list_elem_of_singleton. by eapply getitem_elem_of.
  - exists []. rewrite app_nil_r. split; [|by intros ? ?%elem_of_nil].
    unfold play_current. unfold_monad. cbn [self].
    destruct (decide _); [done|]. rewrite apply_volume_eq. cbn [self with_calls].
    unfold item. rewrite Hp. unfold raise. cbn [world_of calls with_calls].
    by rewrite sources_app, sources_volume_calls, app_nil_r.
Qed.

Lemma merged_playlist_of seg es :
  playlist_of (Some seg) (merged (segment_dir seg) es).
Proof.
  split.
  - rewrite merged_eq. apply NoDup_fmap_2; [apply path_div_inj|].
    apply NoDup_resolved_names.
  - apply Forall_forall. intros p (n & -> & _ & Hn)%merged_elem_of.
    unfold window_item. by rewrite path_name_div.
Qed.

Lemma playlist_of_items seg pl p :
  playlist_of seg pl -> p ∈ pl -> exists sg, window_item sg p.
Proof.
  intros [_ H] Hp. destruct seg as [sg|]; [|subst; by apply elem_of_nil in Hp].
  exists sg. rewrite Forall_forall in H. by apply H.
Qed.

Ltac sources_calc :=
  cbn [calls with_calls with_self world_of];
  unfold resume_calls, play_calls;
  rewrite ?sources_app, ?sources_volume_calls;
  cbn [sources omap source_of app option_bind mbind];
  rewrite ?app_nil_r; try done.

Section WellSourced.
Context (base : nat).
Local Abbreviation I := (well_sourced base).

Lemma keeps_well_sourced_frame {A} (m : M A) :
  (forall s, keeps (fun w => self w = s) m) ->
  (forall ps, keeps (fun w => sources (calls w) = ps) m) ->
  keeps I m.
Proof.
  intros Hs Hc w [Hp Hsrc]. unfold well_sourced.
  by rewrite (Hs (self w) w eq_refl), (Hc (sources (calls w)) w eq_refl).
Qed.

Lemma well_sourced_more w w' given :
  playlists_ok (self w') ->
  sources (calls w') = sources (calls w) ++ given ->
  (forall p, p ∈ given -> exists sg, window_item sg p) ->
  I w -> I w'.
Proof.
  intros Hp Hc Hg [_ Hsrc]. split; [done|]. rewrite Hc, drop_app.
  apply Forall_app. split; [done|]. apply Forall_drop. by apply Forall_forall.
Qed.

Lemma start_segment_well_sourced seg : keeps I (start_segment seg).
Proof.
  intros w Hw.
  destruct (start_segment_spec seg w)
    as (w' & -> & Hc & Hn & Hpl & Hi & (_&_&_&_&_&Hst&_&_) & _ & _ & Hcalls).
  cbn [world_of].
  pose proof (merged_playlist_of seg (entries w seg)) as Hm.
  apply (well_sourced_more w w'
           (match merged (segment_dir seg) (entries w seg) with
            | [] => [] | p :: _ => [p] end)); [| |  |done].
  - unfold playlists_ok. rewrite Hc, Hpl, Hst. split; [done|]. by destruct Hw as [[_ ?] _].
  - rewrite Hcalls, sources_app. f_equal.
    destruct (merged _ _) as [|p pl]; [done|].
    unfold play_calls. by rewrite !sources_app, sources_volume_calls.
  - intros p Hp. apply (playlist_of_items _ _ _ Hm).
    destruct (merged _ _) as [|q pl]; [by apply elem_of_nil in Hp|].
    apply list_elem_of_singleton in Hp as ->. by left.
Qed.

Lemma check_real_time_well_sourced : keeps I check_real_time.
Proof.
  intros w Hw. rewrite check_real_time_eq.
  destruct (_ || _); [done|]. destruct (active_segment w) as [a|]; [|done].
  destruct (decide _); [|done].
  destruct (_ && _); [done|by apply start_segment_well_sourced].
Qed.

Lemma on_media_status_well_sourced st : keeps I (on_media_status st).
Proof.
  intros w Hw. destruct (decide (st = EndOfMedia)) as [->|Hne];
    [|by rewrite on_media_status_other].
  rewrite on_media_status_eq.
  destruct (_ || _); [done|].
  destruct (waiting_next_segment (self w)); [by apply start_segment_well_sourced|].
  destruct (decide _) as [|Hne]; [done|].
  match goal with |- I (world_of (play_current ?w1)) =>
    destruct (play_current_sources w1) as (Hs & given & Hc & Hg) end.
  eapply well_sourced_more; [| exact Hc | | ].
  - rewrite Hs. by destruct Hw.
  - intros p Hp%Hg. destruct Hw as [[Hpl _] _]. by eapply playlist_of_items.
  - done.
Qed.

Lemma switch_run_well_sourced : keeps I switch_run.
Proof.
  intros w Hw. rewrite switch_run_eq. destruct (running (self w)).
  - cbn [world_of]. apply (well_sourced_more w _ []); [| |by intros ? ?%elem_of_nil|done].
    + destruct Hw as [[_ Hst] _]. split; [|done]. split; [constructor|done].
    + sources_calc.
  - apply check_real_time_well_sourced.
    apply (well_sourced_more w _ []); [| |by intros ? ?%elem_of_nil|done].
    + by destruct Hw.
    + sources_calc.
Qed.

Lemma with_calls_well_sourced c w :
  source_of c = None -> I w -> I (with_calls (fun l => l ++ [c]) w).
Proof.
  intros Hc Hw. apply (well_sourced_more w _ []); [| |by intros ? ?%elem_of_nil|done].
  - by destruct Hw.
  - cbn [calls with_calls]. rewrite sources_app. cbn. by rewrite Hc.
Qed.

Lemma toggle_run_well_sourced : keeps I toggle_run.
Proof.
  intros w Hw. destruct (toggle_run_eq w) as (has & _ & ->).
  destruct (running (self w)); [by apply switch_run_well_sourced|].
  destruct (decide _); [by apply with_calls_well_sourced|].
  destruct has; [by apply switch_run_well_sourced|by apply with_calls_well_sourced].
Qed.

Lemma add_segment_well_sourced st et : keeps I (add_segment st et).
Proof.
  intros w Hw.
  destruct (decide (qtime_to_min et < qtime_to_min st)) as [Hlt|Hge].
  { rewrite add_segment_invalid by done. by apply with_calls_well_sourced. }
  destruct (has_overlap (time_ranges (self w)) (qtime_to_min st, qtime_to_min et)) eqn:Ho.
  { rewrite add_segment_overlap by done. by apply with_calls_well_sourced. }
  destruct (add_segment_accepted st et w Hge Ho) as (w' & -> & Hs & Hc).
  cbn [world_of]. destruct Hw as [Hp Hsrc]. unfold well_sourced. by rewrite Hs, Hc.
Qed.

Lemma delete_segment_well_sourced idx : keeps I (delete_segment idx).
Proof.
  intros w Hw. destruct (selected w idx) as [seg|] eqn:Hsel;
    [|by rewrite delete_segment_none].
  destruct (delete_segment_some idx seg w Hsel)
    as (rs' & w' & -> & _ & _ & _ & _ & _ & Hrs & Hpb).
  cbn [world_of]. unfold run_state, playback in *.
  injection Hrs as _ _ Hst _.
  apply (well_sourced_more w w' []); [| |by intros ? ?%elem_of_nil|done].
  - destruct Hw as [[Hpl Hsn] _]. unfold playlists_ok. rewrite Hst.
    destruct (decide _) as [Hc|Hc]; destruct Hpb as [Hpb _];
      injection Hpb as -> -> _ _; (split; [|done]); [|done].
    split; [constructor|done].
  - rewrite app_nil_r. destruct (decide _); destruct Hpb as [_ ->]; [|done].
    by rewrite sources_app, app_nil_r.
Qed.

Lemma start_on_demand_well_sourced : keeps I start_on_demand.
Proof.
  intros w Hw. unfold start_on_demand. unfold_monad. cbn [self].
  destruct (in_interrupt (self w)); [done|].
  apply (well_sourced_more w _ []); [| |by intros ? ?%elem_of_nil|done].
  - destruct Hw as [[Hpl Hsn] _]. by split.
  - sources_calc.
Qed.

Lemma resume_from_interrupt_well_sourced t : keeps I (resume_from_interrupt t).
Proof.
  intros w Hw. rewrite resume_from_interrupt_eq. cbv zeta.
  destruct (negb (running (self w))).
  { destruct Hw as [[Hpl Hsn] Hsrc]. by split. }
  destruct (interrupt_state (self w)) as [[[[[seg plist] idx] pos] wnext]|] eqn:Hst.
  - destruct (_ && _ && bool_decide (plist ≠ [])) eqn:Hc.
    + pose proof Hw as [[Hpl Hsn] Hsrc]. rewrite Hst in Hsn.
      destruct (Py.getitem plist _) as [p|] eqn:Hp; cbn [world_of].
      * apply (well_sourced_more w _ [p]); [| | |done].
        -- by split.
        -- sources_calc.
        -- intros q ->%list_elem_of_singleton.
           eapply playlist_of_items; [exact Hsn|by eapply getitem_elem_of].
      * apply (well_sourced_more w _ []); [| |by intros ? ?%elem_of_nil|done].
        -- by split.
        -- sources_calc.
    + apply check_real_time_well_sourced.
      destruct Hw as [[Hpl Hsn] Hsrc]. split; [|done]. split; [|done].
      split; [constructor|done].
  - apply check_real_time_well_sourced.
    destruct Hw as [[Hpl Hsn] Hsrc]. split; [|done]. split; [done|]. cbn. by rewrite Hst.
Qed.

Lemma handle_well_sourced ev : keeps I (handle ev).
Proof.
  destruct ev; cbn [handle].
  - apply add_segment_well_sourced.
  - apply delete_segment_well_sourced.
  - apply keeps_well_sourced_frame; intros ?.
    + solve_keeps.
    + apply keeps_bind; [apply refresh_playlist_view_sources|intros ?; apply keeps_ret].
  - apply keeps_well_sourced_frame; intros ?;
      [auto with keeps|apply save_ui_order_sources].
  - apply keeps_well_sourced_frame; intros ?;
      [auto with keeps|apply add_video_sources].
  - apply keeps_well_sourced_frame; intros ?;
      [auto with keeps|apply delete_video_sources].
  - apply toggle_run_well_sourced.
  - apply check_real_time_well_sourced.
  - apply on_media_status_well_sourced.
  - apply start_on_demand_well_sourced.
  - intros w Hw. unfold_monad. cbn [self].
    destruct (ondemand_window (self w));
      [by apply resume_from_interrupt_well_sourced|done].
  - intros w [Hp Hsrc]. split.
    + rewrite set_volume_self. by destruct Hp.
    + by rewrite (set_volume_sources (sources (calls w)) v w eq_refl).
  - intros w [Hp Hsrc]. split.
    + rewrite toggle_mute_self. by destruct Hp.
    + by rewrite (toggle_mute_sources (sources (calls w)) w eq_refl).
  - apply keeps_well_sourced_frame; intros ?;
      [auto with keeps|apply toggle_pause_dispatch_sources].
  - apply keeps_modify. by intros w [[? ?] ?].
  - apply keeps_modify. by intros w [[? ?] ?].
Qed.

Lemma run_well_sourced evs w : I w -> I (run evs w).
Proof.
  revert w. induction evs as [|ev evs IH]; intros w Hw; [done|].
  rewrite run_cons. by apply IH, handle_well_sourced.
Qed.
End WellSourced.

(** X9. In every reachable world the playlist holds no item twice, and
    its items are entries of the directory of one and the same window,
    with names that end in [.mp4]: it is never a mixture of two windows -
    also after an interruption has put an earlier playlist back. *)
Theorem playlist_holds_window_items w :
  reachable w ->
  NoDup (current_playlist (self w))
  /\ exists seg,
       forall p, p ∈ current_playlist (self w) ->
         p = segment_dir seg </> path_name p
         /\ Py.endswith (path_name p) ".mp4" = true.
Proof.
  intros (w0 & evs & [ranges Hinit] & ->).
  assert (well_sourced (length (sources (calls w0))) w0) as H0.
  { unfold well_sourced, playlists_ok. rewrite Hinit, drop_all. cbn.
    split; [|constructor]. split; [|done]. split; [constructor|done]. }
  destruct (run_well_sourced _ evs w0 H0) as [[[Hnd Hpl] _] _].
  split; [done|].
  destruct (current_segment (self (run evs w0))) as [seg|].
  - exists seg. intros p Hp. rewrite Forall_forall in Hpl. by apply Hpl.
  - exists (0, 0). rewrite Hpl. by intros p ?%elem_of_nil.
Qed.

Lemma playlist_holds_window_items_witness :
  NoDup (current_playlist (self (run [EvToggleRun] demo_world)))
  /\ exists seg,
       forall p, p ∈ current_playlist (self (run [EvToggleRun] demo_world)) ->
         p = segment_dir seg </> path_name p
         /\ Py.endswith (path_name p) ".mp4" = true.
Proof.
  apply playlist_holds_window_items.
  exists demo_world, [EvToggleRun].
  split; [by exists [(540, 600); (600, 660)]|reflexivity].
Defined.

(** X10. The player is never given anything but an [.mp4] entry of the
    directory of some window: whatever the events, every source set since
    the start is one. *)
Theorem player_is_given_window_items w0 evs p :
  initial w0 -> calls w0 = [] ->
  PlayerSetSource p ∈ calls (run evs w0) ->
  exists seg,
    p = segment_dir seg </> path_name p
    /\ Py.endswith (path_name p) ".mp4" = true.
Proof.
  intros [ranges Hinit] Hc Hp.
  assert (well_sourced 0 w0) as H0.
  { unfold well_sourced, playlists_ok. rewrite Hinit, Hc. cbn.
    split; [|constructor]. split; [|done]. split; [constructor|done]. }
  destruct (run_well_sourced 0 evs w0 H0) as [_ Hsrc].
  rewrite drop_0, Forall_forall in Hsrc. apply Hsrc.
  unfold sources. apply list_elem_of_omap. by exists (PlayerSetSource p).
Qed.

Lemma player_is_given_window_items_witness :
  exists seg,
    segment_dir (540, 600) </> "a.mp4"
    = segment_dir seg </> path_name (segment_dir (540, 600) </> "a.mp4")
    /\ Py.endswith (path_name (segment_dir (540, 600) </> "a.mp4")) ".mp4" = true.
Proof.
  apply (player_is_given_window_items demo_world [EvToggleRun]).
  - by exists [(540, 600); (600, 660)].
  - reflexivity.
  - vm_compute. apply list_elem_of_In. vm_compute. tauto.
Defined.

(** ** An interruption from its start to its end *)

(** During an interruption a quiet event leaves playback, run and snapshot
    as they are. *)
Lemma quiet_during_interrupt ev w :
  quiet ev -> in_interrupt (self w) = true ->
  playback (self (world_of (handle ev w))) = playback (self w)
  /\ run_state (self (world_of (handle ev w))) = run_state (self w).
Proof.
  intros Hq Hi.
  assert (forall m : M unit, (forall s, keeps (fun w => self w = s) m) ->
            playback (self (world_of (m w))) = playback (self w)
            /\ run_state (self (world_of (m w))) = run_state (self w)) as Hframe.
  { intros m Hm. by rewrite (Hm (self w) w eq_refl). }
  destruct ev; try done; cbn [handle].
  - destruct (decide (qtime_to_min end_t < qtime_to_min start_t)) as [Hlt|Hge].
    { by rewrite add_segment_invalid. }
    destruct (has_overlap (time_ranges (self w)) (qtime_to_min start_t, qtime_to_min end_t)) eqn:Ho.
    { by rewrite add_segment_overlap. }
    destruct (add_segment_accepted start_t end_t w Hge Ho) as (w' & -> & Hs & _).
    cbn [world_of]. by rewrite Hs.
  - apply Hframe. intros s. solve_keeps.
  - apply Hframe. auto with keeps.
  - apply Hframe. auto with keeps.
  - apply Hframe. auto with keeps.
  - rewrite check_real_time_eq, Hi. by destruct (running (self w)).
  - destruct (decide (status = EndOfMedia)) as [->|Hne];
      [|by rewrite on_media_status_other].
    rewrite on_media_status_eq, Hi. by destruct (running (self w)).
  - unfold start_on_demand. unfold_monad. cbn [self]. by rewrite Hi.
  - by rewrite set_volume_self.
  - by rewrite toggle_mute_self.
  - apply Hframe. auto with keeps.
Qed.

Lemma quiet_run_during_interrupt evs w :
  Forall quiet evs -> in_interrupt (self w) = true ->
  playback (self (run evs w)) = playback (self w)
  /\ run_state (self (run evs w)) = run_state (self w).
Proof.
  intros Hq. revert w. induction Hq as [|ev evs Hev Hevs IH]; intros w Hi; [done|].
  rewrite run_cons.
  destruct (quiet_during_interrupt ev w Hev Hi) as [Hp Hr].
  destruct (IH (world_of (handle ev w))) as [Hp' Hr'].
  { unfold run_state in Hr. injection Hr as _ -> _ _. done. }
  split; congruence.
Qed.

(** X11. An interruption is transparent to the schedule.  Start the
    on-demand window while an item of a window plays; let the timer tick,
    the player report, the clock and the files change, the user edit
    videos, volume or schedule - anything but stopping the run, deleting a
    window or closing the on-demand window; then close the on-demand
    window while the same window is active.  Playback is then exactly
    where it was - window, playlist, index and pending window - and the
    player is given the interrupted item again, at the offset it had
    reached when the interruption began. *)
Theorem interruption_is_transparent w evs terminated seg :
  reachable w ->
  running (self w) = true -> in_interrupt (self w) = false ->
  current_segment (self w) = Some seg -> current_playlist (self w) ≠ [] ->
  Forall quiet evs ->
  active_segment (run (EvStartOnDemand :: evs) w) = Some seg ->
  exists p w',
    Py.getitem (current_playlist (self w)) (current_index (self w)) = Some p
    /\ handle (EvOnDemandFinish terminated) (run (EvStartOnDemand :: evs) w) = Ok tt w'
    /\ playback (self w') = playback (self w)
    /\ in_interrupt (self w') = false
    /\ running (self w') = true
    /\ calls w' = calls (run (EvStartOnDemand :: evs) w)
                  ++ resume_calls (self (run (EvStartOnDemand :: evs) w)) p
                       (player_position w).
Proof.
  intros Hreach Hrun Hi Hseg Hne Hq Hact.
  destruct (reachable_playback_inv w Hreach) as (Hidx & _ & _).
  specialize (Hidx Hne).
  destruct (getitem_is_Some _ _ Hidx) as [p Hp].
  rewrite run_cons in *. cbn [handle] in *.
  destruct (start_on_demand_snapshot w Hi) as (w1 & Hw1 & Hst & Hi1 & Hod1 & Hr1 & _).
  rewrite Hw1 in *. cbn [world_of] in *.
  assert (playback (self w1) = playback (self w)) as Hpb1.
  { revert Hw1. unfold start_on_demand. unfold_monad. cbn [self]. rewrite Hi.
    by intros [= <-]. }
  destruct (quiet_run_during_interrupt evs w1 Hq Hi1) as [Hpb Hrs].
  set (w2 := run evs w1) in *.
  unfold run_state in Hrs. injection Hrs as Hr2 Hi2 Hst2 Hod2.
  exists p.
  assert ((od ← gets ondemand_window;
           if od : bool then resume_from_interrupt terminated else pass) w2
          = resume_from_interrupt terminated w2) as ->.
  { unfold_monad. cbn [self]. by rewrite Hod2, Hod1. }
  rewrite resume_from_interrupt_eq. cbv zeta.
  rewrite Hr2, Hr1, Hrun, Hst2, Hst, Hseg, Hact. cbn [negb].
  rewrite !bool_decide_eq_true_2 by done. cbn [andb].
  rewrite Z.min_l by lia. rewrite Hp.
  eexists. split; [reflexivity|]. split; [reflexivity|].
  unfold playback. cbn. by rewrite Hseg, Hr2, Hr1, Hrun.
Qed.

Lemma interruption_is_transparent_witness :
  exists p w',
    Py.getitem (current_playlist (self demo_running)) (current_index (self demo_running))
    = Some p
    /\ handle (EvOnDemandFinish true)
         (run (EvStartOnDemand :: [EvTick; EvMediaStatus EndOfMedia; EvSetVolume 10])
            demo_running) = Ok tt w'
    /\ playback (self w') = playback (self demo_running)
    /\ in_interrupt (self w') = false
    /\ running (self w') = true
    /\ calls w' = calls (run (EvStartOnDemand :: [EvTick; EvMediaStatus EndOfMedia; EvSetVolume 10])
                           demo_running)
                  ++ resume_calls
                       (self (run (EvStartOnDemand :: [EvTick; EvMediaStatus EndOfMedia; EvSetVolume 10])
                                demo_running)) p
                       (player_position demo_running).
Proof.
  apply (interruption_is_transparent demo_running
           [EvTick; EvMediaStatus EndOfMedia; EvSetVolume 10] true (540, 600)).
  - exists demo_world, [EvToggleRun].
    split; [by exists [(540, 600); (600, 660)]|vm_compute; reflexivity].
  - vm_compute. reflexivity.
  - vm_compute. reflexivity.
  - vm_compute. reflexivity.
  - vm_compute. discriminate.
  - repeat constructor.
  - vm_compute. reflexivity.
Defined.

(** ** Videos and the files around them *)

Lemma file_at_insert_order w seg text d n :
  (d = segment_dir seg -> n ≠ ORDER_FILE) ->
  <[segment_dir seg := <[ORDER_FILE := text]> (entries w seg)]> (fs w) !! d ≫= (.!! n)
  = file_at w d n.
Proof.
  intros Hn. unfold file_at, entries.
  destruct (decide (d = segment_dir seg)) as [->|Hd].
  - rewrite (lookup_insert_eq (fs w)). cbn.
    rewrite lookup_insert_ne by (intros <-; by apply Hn).
    by destruct (fs w !! segment_dir seg).
  - by rewrite (lookup_insert_ne (fs w)).
Qed.

(** X12. Resolving the playlist of a window whose directory is there
    returns every entry of the directory whose name ends in [.mp4], each
    exactly once, and touches nothing but the order file of that
    directory: every other file, the window and the record of calls are
    as before. *)
Theorem load_ordered_files_complete seg w :
  is_Some (fs w !! segment_dir seg) ->
  exists pl w',
    load_ordered_files seg w = Ok pl w'
    /\ NoDup pl
    /\ (forall p, p ∈ pl <-> exists n, p = segment_dir seg </> n /\ playable w seg n)
    /\ self w' = self w /\ calls w' = calls w
    /\ (forall d n, (d = segment_dir seg -> n ≠ ORDER_FILE) ->
          file_at w' d n = file_at w d n).
Proof.
  intros _. rewrite load_ordered_files_eq. eexists _, _. split; [reflexivity|].
  split; [apply (merged_playlist_of seg)|].
  split.
  - intros p. rewrite merged_eq, list_elem_of_fmap.
    split; intros (n & -> & Hn); exists n; (split; [done|]).
    + by apply elem_of_resolved_names, elem_of_mp4_names in Hn.
    + by apply elem_of_resolved_names, elem_of_mp4_names.
  - split; [done|]. split; [done|]. intros d n Hn.
    unfold file_at at 1. cbn [fs with_fs]. by apply file_at_insert_order.
Qed.

Lemma load_ordered_files_complete_witness :
  exists pl w',
    load_ordered_files (540, 600) demo_world = Ok pl w'
    /\ NoDup pl
    /\ (forall p, p ∈ pl
          <-> exists n, p = segment_dir (540, 600) </> n /\ playable demo_world (540, 600) n)
    /\ self w' = self demo_world /\ calls w' = calls demo_world
    /\ (forall d n, (d = segment_dir (540, 600) -> n ≠ ORDER_FILE) ->
          file_at w' d n = file_at demo_world d n).
Proof.
  apply (load_ordered_files_complete (540, 600) demo_world).
  eexists. vm_compute. reflexivity.
Defined.

Section FileKept.
Context (d : list string) (n text : string).
Hypothesis n_not_order : n ≠ ORDER_FILE.
Local Abbreviation I := (fun w => file_at w d n = Some text).

Lemma load_ordered_files_kept seg : keeps I (load_ordered_files seg).
Proof.
  intros w Hw. rewrite load_ordered_files_eq. cbn [world_of].
  unfold file_at at 1. cbn [fs with_fs]. by rewrite file_at_insert_order.
Qed.

Lemma copy_if_absent_kept src dst :
  keeps I (ex ← path_exists dst; if ex : bool then pass else copy src dst).
Proof.
  intros w Hw. unfold path_exists, copy, read_text, write_text. unfold_monad.
  cbn [fs]. destruct (bool_decide _) eqn:Hex; [done|].
  apply bool_decide_eq_false in Hex.
  destruct (fs w !! path_parent src) as [se|]; cbn [option_bind world_of]; [|done].
  destruct (se !! path_name src) as [s|]; cbn [world_of]; [|done].
  destruct (fs w !! path_parent dst) as [es|] eqn:Hd; cbn [world_of]; [|done].
  cbn [option_bind] in Hex. unfold file_at in *. cbn [fs with_fs].
  destruct (decide (d = path_parent dst)) as [->|Hne].
  - rewrite (lookup_insert_eq (fs w)). cbn. rewrite Hd in Hw. cbn in Hw.
    rewrite lookup_insert_ne; [done|]. intros <-. apply Hex. by rewrite Hw.
  - by rewrite (lookup_insert_ne (fs w)).
Qed.

Lemma add_video_kept idx paths : keeps I (add_video idx paths).
Proof.
  unfold add_video.
  apply keeps_bind; [intros w Hw; by rewrite selected_segment_eq|intros [seg|]];
    [|by apply keeps_modify].
  destruct (decide _); [apply keeps_ret|].
  apply keeps_bind; [apply keeps_for_each; intros src; apply copy_if_absent_kept|].
  intros _. apply keeps_bind; [apply load_ordered_files_kept|intros _].
  apply keeps_bind; [|intros _; apply keeps_ret].
  unfold refresh_playlist_view.
  apply keeps_bind; [intros w Hw; by rewrite selected_segment_eq|intros [sg|]];
    [|apply keeps_ret].
  apply keeps_bind; [apply load_ordered_files_kept|intros ?; apply keeps_ret].
Qed.
End FileKept.

(** X13. Adding videos never overwrites: whatever files are chosen, and
    whether the copying goes through or raises on the way, every file
    that was there before - in any directory, the order files apart - is
    still there with the text it had. *)
Theorem add_video_never_overwrites idx paths w d n text :
  n ≠ ORDER_FILE ->
  file_at w d n = Some text ->
  file_at (world_of (add_video idx paths w)) d n = Some text.
Proof. intros Hn Hf. by apply (add_video_kept d n text Hn idx paths w). Qed.

Lemma add_video_never_overwrites_witness :
  file_at (world_of (add_video 0 [["home"; "videos"; "new.mkv"]; ["gone"; "old.mkv"]] mkv_world))
    (segment_dir (540, 600)) "old.mkv" = Some "video".
Proof.
  apply add_video_never_overwrites; [discriminate|vm_compute; reflexivity].
Defined.

Lemma unlink_existing d n es w :
  fs w !! d = Some es -> is_Some (es !! n) ->
  unlink (d </> n) w = Ok tt (with_fs <[d := delete n es]> w).
Proof.
  intros Hd Hn. unfold unlink. unfold_monad.
  rewrite path_parent_div, path_name_div, Hd. by rewrite decide_True.
Qed.

Lemma delete_video_spec idx view r seg name es w :
  selected w idx = Some seg -> 0 <= r -> view !! Z.to_nat r = Some name ->
  fs w !! segment_dir seg = Some es ->
  delete_video idx view r w
  = Ok tt (with_fs <[segment_dir seg :=
                      <[ORDER_FILE := order_text (delete (Z.to_nat r) view)]>
                        (delete name es)]> w).
Proof.
  intros Hsel Hr Hname Hd. unfold delete_video.
  rewrite (bind_ok _ _ _ _ _ (selected_segment_eq idx w)), Hsel.
  rewrite decide_False by lia. rewrite Hname.
  unfold save_ui_order_for_selected_segment.
  assert (forall w1 es1, self w1 = self w -> fs w1 !! segment_dir seg = Some es1 ->
            (seg0 ← selected_segment idx;
             match seg0 with
             | Some sg => write_order sg (delete (Z.to_nat r) view)
             | None => pass
             end) w1
            = Ok tt (with_fs <[segment_dir seg :=
                                <[ORDER_FILE := order_text (delete (Z.to_nat r) view)]> es1]>
                       w1)) as Hsave.
  { intros w1 es1 Hs Hd1.
    rewrite (bind_ok _ _ _ _ _ (selected_segment_eq idx w1)).
    unfold selected. rewrite Hs. fold (selected w idx). rewrite Hsel.
    by apply write_order_existing. }
  unfold mbind at 1, M_bind, get. rewrite Hd. cbn [mbind option_bind].
  destruct (decide (is_Some (es !! name))) as [Hin|Hnot].
  - rewrite (bind_ok _ _ _ _ _ (unlink_existing _ _ _ _ Hd Hin)).
    etrans; [apply (Hsave _ (delete name es)); [done|]|].
    + cbn [fs with_fs]. by rewrite (lookup_insert_eq (fs w)).
    + f_equal. apply world_eq; try reflexivity. cbn [fs with_fs].
      by rewrite insert_insert_eq.
  - rewrite (bind_ok pass _ w tt w eq_refl). cbv beta.
    rewrite (delete_id es name) by by apply eq_None_not_Some.
    exact (Hsave w es eq_refl Hd).
Qed.

Lemma elem_of_delete_NoDup {A} (l : list A) i x y :
  NoDup l -> l !! i = Some x -> y ∈ delete i l <-> y ∈ l /\ y ≠ x.
Proof.
  intros Hnd Hi. rewrite delete_take_drop.
  rewrite <- (take_drop_middle l i x Hi) in Hnd at 1.
  rewrite <- (take_drop_middle l i x Hi) at 3.
  apply NoDup_app in Hnd as (_ & Hx & Hnd). apply NoDup_cons in Hnd as [Hx' _].
  rewrite !elem_of_app, elem_of_cons. split.
  - intros [Hy|Hy]; (split; [tauto|]); intros ->; [|done].
    apply (Hx x Hy). by left.
  - intros [[?|[?|?]] ?]; tauto.
Qed.

Lemma mp4_names_delete es name :
  mp4_names (delete name es) = mp4_names es ∖ {[name]}.
Proof.
  apply set_eq. intros n.
  rewrite elem_of_difference, !elem_of_mp4_names, elem_of_singleton.
  rewrite lookup_delete_is_Some. split.
  - intros [[Hne H1] H2]. split; [done|]. by intros ->.
  - intros [[H1 H2] Hne]. split; [|done]. split; [by intros ->|done].
Qed.

(** X14. Deleting a video.  Let the list widget show the playlist of the
    selected window - its [.mp4] entries, each once, every name clean - and
    let row [r] be the current one.  Then [delete_video] removes that
    file and nothing else but the order file, and the playlist resolved
    next is what the widget showed without row [r], in the same order. *)
Theorem delete_video_then_resolve idx view r seg name w :
  selected w idx = Some seg -> 0 <= r -> view !! Z.to_nat r = Some name ->
  NoDup view -> Forall clean_name view ->
  (forall n, n ∈ view <-> playable w seg n) ->
  exists w1 w2,
    delete_video idx view r w = Ok tt w1
    /\ file_at w1 (segment_dir seg) name = None
    /\ (forall d n, n ≠ ORDER_FILE -> (d, n) ≠ (segment_dir seg, name) ->
          file_at w1 d n = file_at w d n)
    /\ self w1 = self w
    /\ load_ordered_files seg w1
       = Ok ((fun n => segment_dir seg </> n) <$> delete (Z.to_nat r) view) w2.
Proof.
  intros Hsel Hr Hname Hnd Hclean Hview.
  assert (playable w seg name) as [[t Ht] Hmp4].
  { apply Hview. by eapply list_elem_of_lookup_2. }
  unfold entries in Ht.
  destruct (fs w !! segment_dir seg) as [es|] eqn:Hd; cbn in Ht; [|done].
  assert (name ≠ ORDER_FILE) as Hno.
  { intros ->. by vm_compute in Hmp4. }
  rewrite (delete_video_spec idx view r seg name es w Hsel Hr Hname Hd).
  set (view' := delete (Z.to_nat r) view).
  set (w1 := with_fs _ w).
  assert (entries w1 seg = <[ORDER_FILE := order_text view']> (delete name es)) as He.
  { unfold entries, w1. cbn [fs with_fs]. by rewrite (lookup_insert_eq (fs w)). }
  exists w1, (world_of (load_ordered_files seg w1)).
  split; [done|]. split.
  { unfold file_at, w1. cbn [fs with_fs]. rewrite (lookup_insert_eq (fs w)). cbn.
    rewrite lookup_insert_ne by done. apply lookup_delete_eq. }
  split.
  { intros d n Hn Hdn. unfold file_at, w1. cbn [fs with_fs].
    destruct (decide (d = segment_dir seg)) as [->|Hne].
    - rewrite (lookup_insert_eq (fs w)), Hd. cbn.
      rewrite lookup_insert_ne by done. apply lookup_delete_ne. congruence.
    - by rewrite (lookup_insert_ne (fs w)). }
  split; [done|].
  rewrite load_ordered_files_eq. cbn [world_of]. f_equal.
  rewrite merged_eq, He, mp4_names_insert_order, recorded_names_insert.
  rewrite order_names_order_text by by apply Forall_delete.
  f_equal. apply resolved_names_fixpoint.
  - eapply sublist_NoDup; [exact Hnd|apply sublist_delete].
  - intros n. unfold view'. rewrite (elem_of_delete_NoDup view _ name) by done.
    rewrite mp4_names_delete, elem_of_difference, elem_of_singleton, elem_of_mp4_names.
    rewrite Hview. unfold playable, entries. rewrite Hd. done.
Qed.

Lemma demo_view_clean : Forall clean_name ["a.mp4"; "b.mp4"; "c.mp4"].
Proof.
  repeat (constructor; [repeat split; [by intros [=]|vm_compute; reflexivity..]|]).
  constructor.
Qed.

Lemma demo_view_playable n :
  n ∈ ["a.mp4"; "b.mp4"; "c.mp4"] <-> playable demo_world (540, 600) n.
Proof.
  split.
  - rewrite !elem_of_cons, elem_of_nil.
    intros [->|[->|[->|[]]]]; (split; [eexists|]; vm_compute; reflexivity).
  - intros [[x Hx] _]. unfold entries in Hx. vm_compute default in Hx.
    change (({[ "a.mp4" := "video"; "b.mp4" := "video"; "c.mp4" := "video" ]}
             : gmap string string) !! n = Some x) in Hx.
    rewrite !elem_of_cons.
    apply lookup_insert_Some in Hx as [[<- _]|[_ Hx]]; [by left|].
    apply lookup_insert_Some in Hx as [[<- _]|[_ Hx]]; [right; by left|].
    apply lookup_singleton_Some in Hx as [<- _]. right. right. by left.
Qed.

Lemma delete_video_then_resolve_witness :
  exists w1 w2,
    delete_video 0 ["a.mp4"; "b.mp4"; "c.mp4"] 1 demo_world = Ok tt w1
    /\ file_at w1 (segment_dir (540, 600)) "b.mp4" = None
    /\ (forall d n, n ≠ ORDER_FILE -> (d, n) ≠ (segment_dir (540, 600), "b.mp4") ->
          file_at w1 d n = file_at demo_world d n)
    /\ self w1 = self demo_world
    /\ load_ordered_files (540, 600) w1
       = Ok ((fun n => segment_dir (540, 600) </> n)
               <$> delete (Z.to_nat 1) ["a.mp4"; "b.mp4"; "c.mp4"]) w2.
Proof.
  apply (delete_video_then_resolve 0 ["a.mp4"; "b.mp4"; "c.mp4"] 1 (540, 600) "b.mp4").
  - vm_compute. reflexivity.
  - lia.
  - reflexivity.
  - repeat (constructor; [rewrite ?elem_of_cons, elem_of_nil; intuition discriminate|]).
    constructor.
  - exact demo_view_clean.
  - exact demo_view_playable.
Defined.

(** ** Resolving settles *)

(** *** What [strip] leaves *)

Lemma one_line_eq s :
  Py.one_line s = string_forall (fun c => negb (Py.is_linebreak c)) s.
Proof. induction s as [|c s IH]; [done|]. cbn. by rewrite IH. Qed.

Lemma string_forall_lstrip P s :
  string_forall P s = true -> string_forall P (Py.lstrip s) = true.
Proof.
  induction s as [|c s IH]; [done|]. cbn [string_forall Py.lstrip].
  intros [Hc Hs]%andb_prop.
  destruct (Py.is_space c); [by apply IH|]. cbn [string_forall]. by rewrite Hc, Hs.
Qed.

Lemma string_forall_strip P s :
  string_forall P s = true -> string_forall P (Py.strip s) = true.
Proof.
  intros H. unfold Py.strip, Py.rstrip.
  rewrite string_forall_rev. apply string_forall_lstrip.
  rewrite string_forall_rev. by apply string_forall_lstrip.
Qed.

Lemma lstrip_head_ok s : head_ok (Py.lstrip s).
Proof.
  induction s as [|c s IH]; [done|]. cbn [Py.lstrip].
  by destruct (Py.is_space c) eqn:Hc.
Qed.

Lemma lstrip_fix t : head_ok t -> Py.lstrip t = t.
Proof. destruct t as [|c t]; [done|]. cbn [head_ok Py.lstrip]. by intros ->. Qed.

Lemma lstrip_snoc x c :
  Py.is_space c = false ->
  exists u, Py.lstrip (x +:+ String c EmptyString) = u +:+ String c EmptyString.
Proof.
  intros Hc. induction x as [|d x IH].
  - exists EmptyString. rewrite append_nil_l. cbn [Py.lstrip]. by rewrite Hc.
  - rewrite append_cons. cbn [Py.lstrip]. destruct (Py.is_space d); [done|].
    by exists (String d x).
Qed.

Lemma rstrip_head_ok t : head_ok t -> head_ok (Py.rstrip t).
Proof.
  destruct t as [|c t]; [done|]. cbn [head_ok]. intros Hc. unfold Py.rstrip.
  rewrite rev_cons. destruct (lstrip_snoc (String.rev t) c Hc) as [u ->].
  by rewrite rev_append.
Qed.

Lemma strip_idempotent s : Py.strip (Py.strip s) = Py.strip s.
Proof.
  unfold Py.strip.
  rewrite (lstrip_fix (Py.rstrip (Py.lstrip s)))
    by apply rstrip_head_ok, lstrip_head_ok.
  unfold Py.rstrip. rewrite rev_involutive.
  by rewrite (lstrip_fix (Py.lstrip _)) by apply lstrip_head_ok.
Qed.

(** *** The lines of a text *)

Lemma splitlines_go_one_line cur s :
  Py.one_line cur = true ->
  Forall (fun l => Py.one_line l = true) (Py.splitlines_go cur s).
Proof.
  remember (String.length s) as k eqn:Hk. revert cur s Hk.
  induction k as [k IH] using lt_wf_ind. intros cur [|c s] Hk Hcur.
  - cbn. destruct (decide _); [constructor|]. by constructor.
  - cbn in Hk. cbn [Py.splitlines_go]. destruct (Py.is_linebreak c) eqn:Hc.
    + constructor; [done|]. destruct s as [|c' s'']; [constructor|].
      cbn in Hk. destruct (decide _).
      * apply (IH (String.length s'')); [lia|done..].
      * apply (IH (String.length (String c' s''))); [cbn; lia|done..].
    + apply (IH (String.length s)); [lia|done|].
      rewrite one_line_eq, string_forall_app, <- one_line_eq, Hcur. cbn.
      by rewrite Hc.
Qed.

Lemma order_names_clean text : Forall clean_name (order_names text).
Proof.
  unfold order_names. apply Forall_forall. intros n.
  rewrite list_elem_of_fmap. intros (l & -> & Hl).
  apply list_elem_of_filter in Hl as [Hne Hl].
  split; [done|]. split; [apply strip_idempotent|].
  rewrite one_line_eq. apply string_forall_strip. rewrite <- one_line_eq.
  pose proof (splitlines_go_one_line EmptyString text eq_refl) as Hall.
  rewrite Forall_forall in Hall. by apply Hall.
Qed.

(** Blank lines apart, the lines of two texts joined by a line feed are
    the lines of the first and the lines of the second. *)
Lemma splitlines_go_join cur n rest :
  filter (fun line => Py.strip line ≠ EmptyString)
    (Py.splitlines_go cur (n +:+ String Py.LF rest))
  = filter (fun line => Py.strip line ≠ EmptyString) (Py.splitlines_go cur n)
    ++ filter (fun line => Py.strip line ≠ EmptyString)
         (Py.splitlines_go EmptyString rest).
Proof.
  remember (String.length n) as k eqn:Hk. revert cur n Hk.
  induction k as [k IH] using lt_wf_ind. intros cur [|c n] Hk.
  - rewrite append_nil_l. cbn [Py.splitlines_go]. 
    change (Py.is_linebreak Py.LF) with true. cbn match.
    assert (match rest with
            | String c' s'' =>
                if decide (Py.LF = Py.CR /\ c' = Py.LF)
                then Py.splitlines_go EmptyString s''
                else Py.splitlines_go EmptyString rest
            | EmptyString => []
            end = Py.splitlines_go EmptyString rest) as ->.
    { destruct rest as [|c' s'']; [done|].
      rewrite decide_False; [done|]. by intros [? _]. }
    destruct (decide (cur = EmptyString)) as [->|Hne].
    + by rewrite filter_cons_False by (intros H; by apply H).
    + by rewrite <- filter_app.
  - cbn in Hk. rewrite append_cons. cbn [Py.splitlines_go].
    destruct (Py.is_linebreak c) eqn:Hc.
    + rewrite !filter_cons.
      assert (forall X Y : list string,
                filter (fun line => Py.strip line ≠ EmptyString) X
                = filter (fun line => Py.strip line ≠ EmptyString) Y
                  ++ filter (fun line => Py.strip line ≠ EmptyString)
                       (Py.splitlines_go EmptyString rest) ->
                (if decide (Py.strip cur ≠ EmptyString)
                 then cur :: filter (fun line => Py.strip line ≠ EmptyString) X
                 else filter (fun line => Py.strip line ≠ EmptyString) X)
                = (if decide (Py.strip cur ≠ EmptyString)
                   then cur :: filter (fun line => Py.strip line ≠ EmptyString) Y
                   else filter (fun line => Py.strip line ≠ EmptyString) Y)
                  ++ filter (fun line => Py.strip line ≠ EmptyString)
                       (Py.splitlines_go EmptyString rest)) as Hcur.
      { intros X Y ->. by destruct (decide _). }
      apply Hcur. clear Hcur. destruct n as [|c' s''].
      * rewrite append_nil_l. rewrite filter_nil, app_nil_l.
        destruct (decide (c = Py.CR /\ Py.LF = Py.LF)) as [_|Hno]; [done|].
        cbn [Py.splitlines_go]. change (Py.is_linebreak Py.LF) with true. cbn match.
        rewrite filter_cons_False by (intros H; by apply H).
        destruct rest as [|c' s'']; [done|].
        rewrite decide_False; [done|]. by intros [? _].
      * rewrite append_cons. cbn in Hk.
        destruct (decide (c = Py.CR /\ c' = Py.LF)).
        -- apply (IH (String.length s'')); [lia|done].
        -- rewrite <- append_cons.
           apply (IH (String.length (String c' s''))); [cbn; lia|done].
    + apply (IH (String.length n)); [lia|done].
Qed.

Lemma order_names_join n rest :
  order_names (n +:+ String Py.LF rest) = order_names n ++ order_names rest.
Proof.
  unfold order_names, Py.splitlines. by rewrite splitlines_go_join, fmap_app.
Qed.

(** *** What an order file gives back *)

Lemma order_names_order_text_cons n names :
  order_names (order_text (n :: names))
  = order_names n ++ order_names (order_text names).
Proof. by rewrite order_text_cons, order_names_join. Qed.

Lemma order_names_of_clean n : clean_name n -> order_names n = [n].
Proof.
  intros Hn.
  pose proof (order_names_order_text [n]) as H.
  rewrite order_names_order_text_cons in H. cbn in H.
  rewrite app_nil_r in H. apply H. by constructor.
Qed.

Lemma order_names_order_text_clean_app A B :
  Forall clean_name A ->
  order_names (order_text (A ++ B)) = A ++ order_names (order_text B).
Proof.
  induction 1 as [|a A Ha _ IH]; [done|].
  rewrite <- app_comm_cons, order_names_order_text_cons, IH.
  by rewrite order_names_of_clean.
Qed.

Lemma elem_of_order_names_order_text x names :
  x ∈ order_names (order_text names)
  <-> exists n, n ∈ names /\ x ∈ order_names n.
Proof.
  induction names as [|m names IH].
  - split; [by intros ?%elem_of_nil|]. by intros (n & ?%elem_of_nil & _).
  - rewrite order_names_order_text_cons, elem_of_app, IH. split.
    + intros [H|(n & Hn & H)]; [exists m; split; [by left|done]|].
      exists n. split; [by right|done].
    + intros (n & [->|Hn]%elem_of_cons & H); [by left|]. right. by exists n.
Qed.

Lemma take_names_none avail names :
  (forall n, n ∈ names -> n ∉ avail) -> take_names avail names = [].
Proof.
  induction names as [|m names IH]; [done|]. intros H. cbn.
  rewrite decide_False by (apply H; by left).
  apply IH. intros n Hn. apply H. by right.
Qed.

Lemma take_names_prefix avail A X :
  NoDup A -> (forall n, n ∈ A -> n ∈ avail) ->
  take_names avail (A ++ X) = A ++ take_names (avail ∖ list_to_set A) X.
Proof.
  intros Hnd. revert avail. induction Hnd as [|a A Ha Hnd IH]; intros avail Hin.
  - cbn. f_equal. apply set_eq. intros n.
    rewrite elem_of_difference, elem_of_empty. tauto.
  - cbn. rewrite decide_True by (apply Hin; by left). f_equal.
    rewrite IH.
    + f_equal. f_equal. apply set_eq. intros n.
      rewrite !elem_of_difference, elem_of_union, elem_of_singleton. tauto.
    + intros n Hn. rewrite elem_of_difference, elem_of_singleton.
      split; [apply Hin; by right|]. by intros ->.
Qed.

(** The names resolved on the second call are resolved again on the
    third, whatever the names and whatever the order file held at first. *)
Lemma resolved_names_settle avail names :
  let l1 := resolved_names avail names in
  let l2 := resolved_names avail (order_names (order_text l1)) in
  resolved_names avail (order_names (order_text l2)) = l2.
Proof.
  intros l1 l2.
  set (rec1 := order_names (order_text l1)) in *.
  set (A := take_names avail rec1).
  set (B := sorted_names (elements (avail ∖ list_to_set rec1))).
  assert (l2 = A ++ B) as Hl2 by done.
  assert (Forall clean_name A) as HA.
  { apply Forall_forall. intros n [_ Hn]%elem_of_take_names.
    pose proof (order_names_clean (order_text l1)) as Hc.
    rewrite Forall_forall in Hc. by apply Hc. }
  assert (forall x, x ∈ order_names (order_text B) -> x ∈ rec1) as HB.
  { intros x (b & Hb & Hx)%elem_of_order_names_order_text.
    apply elem_of_order_names_order_text. exists b. split; [|done].
    apply elem_of_resolved_names.
    apply elem_of_sorted_names, elem_of_elements, elem_of_difference in Hb.
    by destruct Hb. }
  rewrite Hl2, order_names_order_text_clean_app by done.
  unfold resolved_names at 1.
  rewrite take_names_prefix.
  2: apply NoDup_take_names.
  2: { intros n Hn. by apply elem_of_take_names in Hn as [? _]. }
  rewrite take_names_none.
  2: { intros n Hn. rewrite elem_of_difference, elem_of_list_to_set.
       intros [Hav HnA]. apply HnA, elem_of_take_names. split; [done|]. by apply HB. }
  rewrite app_nil_r. f_equal. unfold B. f_equal. f_equal.
  apply set_eq. intros n.
  rewrite !elem_of_difference, !elem_of_list_to_set, elem_of_app.
  unfold A. rewrite elem_of_take_names. split.
  - intros [Hav Hn]. split; [done|]. intros Hr. apply Hn. left. by split.
  - intros [Hav Hn]. split; [done|]. intros [[_ ?]|?]; [done|]. by apply Hn, HB.
Qed.

Lemma load_ordered_files_after seg w :
  exists w1,
    load_ordered_files seg w
    = Ok ((fun n => segment_dir seg </> n)
            <$> resolved_names (mp4_names (entries w seg)) (recorded_names (entries w seg)))
        w1
    /\ mp4_names (entries w1 seg) = mp4_names (entries w seg)
    /\ recorded_names (entries w1 seg)
       = order_names (order_text (resolved_names (mp4_names (entries w seg))
                                    (recorded_names (entries w seg))))
    /\ fs w1 = <[segment_dir seg := entries w1 seg]> (fs w)
    /\ self w1 = self w /\ calls w1 = calls w.
Proof.
  exists (world_of (load_ordered_files seg w)).
  rewrite entries_after_load, mp4_names_insert_order, recorded_names_insert.
  rewrite load_ordered_files_eq. cbn [world_of fs with_fs self calls].
  by rewrite merged_eq, path_name_div_fmap.
Qed.

Lemma load_ordered_files_fixed seg w names :
  fs w !! segment_dir seg
  = Some (<[ORDER_FILE := order_text names]> (entries w seg)) ->
  resolved_names (mp4_names (entries w seg)) (recorded_names (entries w seg)) = names ->
  load_ordered_files seg w = Ok ((fun n => segment_dir seg </> n) <$> names) w.
Proof.
  intros Hd Hr. rewrite load_ordered_files_eq, merged_eq, Hr, path_name_div_fmap.
  f_equal. apply world_eq; try reflexivity. cbn [fs with_fs].
  by apply insert_id.
Qed.

(** X15. Resolving settles after two calls.  The first call may return a
    list that the second does not return again - names are read back from
    the order file without the white space around them - but what the
    second call returns, the third returns again and leaves the storage
    as it is, for every directory and every order file. *)
Theorem resolve_settles seg w :
  exists pl1 w1 pl2 w2,
    load_ordered_files seg w = Ok pl1 w1
    /\ load_ordered_files seg w1 = Ok pl2 w2
    /\ load_ordered_files seg w2 = Ok pl2 w2.
Proof.
  destruct (load_ordered_files_after seg w) as (w1 & H1 & HM1 & HR1 & _).
  destruct (load_ordered_files_after seg w1) as (w2 & H2 & HM2 & HR2 & Hfs2 & _).
  eexists _, w1, _, w2. split; [exact H1|]. split; [exact H2|].
  rewrite HM1, HR1 in H2, HR2. rewrite HM1 in HM2.
  set (M := mp4_names (entries w seg)) in *.
  set (l1 := resolved_names M (recorded_names (entries w seg))) in *.
  set (l2 := resolved_names M (order_names (order_text l1))) in *.
  rewrite HM1, HR1. fold l1 l2.
  apply load_ordered_files_fixed.
  - assert (entries w2 seg = <[ORDER_FILE := order_text l2]> (entries w1 seg)) as He.
    { pose proof (entries_after_load seg w1) as He. rewrite H2 in He.
      cbn [world_of] in He. by rewrite He, HM1, HR1. }
    rewrite Hfs2, (lookup_insert_eq (fs w1)), He. by rewrite insert_insert_eq.
  - rewrite HM2, HR2. apply resolved_names_settle.
Qed.

(** ** The on-demand window *)

Lemma od_play_current_ok w p :
  Py.getitem (OnDemandWindow.playlist w) (OnDemandWindow.index w) = Some p ->
  OnDemandWindow.play_current w
  = OnDemandWindow.Ok
      (OnDemandWindow.advanced (OnDemandWindow.index w)
         (OnDemandWindow.play_calls w p) w).
Proof.
  intros Hp. unfold OnDemandWindow.play_current, OnDemandWindow.apply_volume_state,
    OnDemandWindow.play_calls, OnDemandWindow.advanced.
  destruct (OnDemandWindow.get_muted w) eqn:Hm; cbn; rewrite Hp;
    unfold OnDemandWindow.call; cbn; rewrite ?Hm, <- ?app_assoc; reflexivity.
Qed.

Lemma od_reports_cons st sts w :
  OnDemandWindow.reports (st :: sts) w
  = OnDemandWindow.reports sts (OnDemandWindow.window_of (OnDemandWindow.on_status st w)).
Proof. reflexivity. Qed.

Lemma od_on_status_next w (i : nat) p :
  OnDemandWindow.index w = Z.of_nat i ->
  OnDemandWindow.playlist w !! S i = Some p ->
  OnDemandWindow.on_status EndOfMedia w
  = OnDemandWindow.Ok
      (OnDemandWindow.advanced (Z.of_nat (S i)) (OnDemandWindow.play_calls w p) w).
Proof.
  intros Hi Hp. unfold OnDemandWindow.on_status.
  rewrite decide_False by (by intros H; apply H).
  pose proof (lookup_lt_Some _ _ _ Hp) as Hlt.
  cbn [OnDemandWindow.index OnDemandWindow.playlist OnDemandWindow.set_index].
  rewrite decide_False by (unfold Py.len; lia).
  rewrite (od_play_current_ok _ p).
  - unfold OnDemandWindow.advanced. cbn. do 2 f_equal. lia.
  - cbn. rewrite getitem_in_range by (unfold Py.len; lia).
    by replace (Z.to_nat (OnDemandWindow.index w + 1)) with (S i) by lia.
Qed.

Lemma od_on_status_last w :
  OnDemandWindow.index w + 1 >= Py.len (OnDemandWindow.playlist w) ->
  OnDemandWindow.on_status EndOfMedia w
  = OnDemandWindow.Ok
      (OnDemandWindow.advanced (OnDemandWindow.index w + 1)
         [OnDemandWindow.Close; OnDemandWindow.OnFinish false] w).
Proof.
  intros Hi. unfold OnDemandWindow.on_status.
  rewrite decide_False by (by intros H; apply H).
  cbn [OnDemandWindow.index OnDemandWindow.playlist OnDemandWindow.set_index].
  rewrite decide_True by done.
  unfold OnDemandWindow.advanced, OnDemandWindow.call. cbn.
  by rewrite <- app_assoc.
Qed.

Lemma od_reports_from k : forall w (i : nat),
  OnDemandWindow.index w = Z.of_nat i ->
  (i + S k = length (OnDemandWindow.playlist w))%nat ->
  OnDemandWindow.calls (OnDemandWindow.reports (replicate (S k) EndOfMedia) w)
  = OnDemandWindow.calls w
    ++ concat (OnDemandWindow.play_calls w <$> drop (S i) (OnDemandWindow.playlist w))
    ++ [OnDemandWindow.Close; OnDemandWindow.OnFinish false].
Proof.
  induction k as [|k IH]; intros w i Hi Hlen.
  - cbn [replicate]. rewrite od_reports_cons, od_on_status_last
      by (unfold Py.len; lia).
    cbn. by rewrite drop_ge by lia.
  - change (replicate (S (S k)) EndOfMedia) with (EndOfMedia :: replicate (S k) EndOfMedia).
    destruct (lookup_lt_is_Some_2 (OnDemandWindow.playlist w) (S i)) as [p Hp]; [lia|].
    rewrite od_reports_cons, (od_on_status_next w i p Hi Hp).
    cbn [OnDemandWindow.window_of].
    rewrite (IH _ (S i)); [|done|cbn; lia].
    cbn [OnDemandWindow.calls OnDemandWindow.playlist OnDemandWindow.advanced].
    rewrite (drop_S _ p (S i)) by done. cbn [fmap list_fmap concat].
    by rewrite <- !app_assoc.
Qed.

(** X16. The on-demand window plays its list once and hands back.  Once
    [start_play] has a playlist, reporting the end of media as many times
    as there are items makes the player play every item, each once, in the
    order of the list; then the window closes and calls [on_finish(False)],
    once - it does not loop as the schedule does. *)
Theorem on_demand_plays_through w :
  OnDemandWindow.rows_playlist w ≠ [] ->
  exists w1,
    OnDemandWindow.start_play w = OnDemandWindow.Ok w1
    /\ OnDemandWindow.playlist w1 = OnDemandWindow.rows_playlist w
    /\ OnDemandWindow.calls
         (OnDemandWindow.reports
            (replicate (length (OnDemandWindow.rows_playlist w)) EndOfMedia) w1)
       = OnDemandWindow.calls w
         ++ [OnDemandWindow.ShowFullScreen; OnDemandWindow.RightPanelHide]
         ++ concat (OnDemandWindow.play_calls w <$> OnDemandWindow.rows_playlist w)
         ++ [OnDemandWindow.Close; OnDemandWindow.OnFinish false].
Proof.
  unfold OnDemandWindow.rows_playlist.
  set (pl := omap _ _). intros Hpl. unfold OnDemandWindow.start_play.
  rewrite decide_False by (intros Hv; apply Hpl; unfold pl; by rewrite Hv).
  cbn [OnDemandWindow.playlist OnDemandWindow.set_playlist]. fold pl.
  rewrite decide_False by done.
  destruct pl as [|p pl'] eqn:Hp; [done|].
  rewrite (od_play_current_ok _ p) by done.
  eexists. split; [reflexivity|]. split; [reflexivity|].
  cbn [length]. rewrite (od_reports_from (length pl') _ 0%nat); [|done|done].
  unfold OnDemandWindow.play_calls. cbn. rewrite <- !app_assoc. cbn.
  destruct (OnDemandWindow.get_muted w); cbn; by rewrite <- ?app_assoc.
Qed.

Lemma on_demand_plays_through_witness :
  exists w1,
    OnDemandWindow.start_play
      (OnDemandWindow.add_video [["v"; "x.mp4"]; ["v"; "y.mkv"]] (OnDemandWindow.init 50 false))
    = OnDemandWindow.Ok w1
    /\ OnDemandWindow.playlist w1 = [["v"; "x.mp4"]; ["v"; "y.mkv"]]
    /\ OnDemandWindow.calls
         (OnDemandWindow.reports (replicate 2 EndOfMedia) w1)
       = OnDemandWindow.calls
           (OnDemandWindow.add_video [["v"; "x.mp4"]; ["v"; "y.mkv"]] (OnDemandWindow.init 50 false))
         ++ [OnDemandWindow.ShowFullScreen; OnDemandWindow.RightPanelHide]
         ++ concat (OnDemandWindow.play_calls
                      (OnDemandWindow.add_video [["v"; "x.mp4"]; ["v"; "y.mkv"]]
                         (OnDemandWindow.init 50 false))
                    <$> [["v"; "x.mp4"]; ["v"; "y.mkv"]])
         ++ [OnDemandWindow.Close; OnDemandWindow.OnFinish false].
Proof.
  apply (on_demand_plays_through
           (OnDemandWindow.add_video [["v"; "x.mp4"]; ["v"; "y.mkv"]]
              (OnDemandWindow.init 50 false))).
  vm_compute. discriminate.
Defined.

Lemma od_name_to_path_snoc pl q :
  OnDemandWindow.name_to_path (pl ++ [q])
  = <[path_name q := q]> (OnDemandWindow.name_to_path pl).
Proof. unfold OnDemandWindow.name_to_path. by rewrite foldl_snoc. Qed.

Lemma od_name_to_path_lookup pl n p :
  NoDup (path_name <$> pl) ->
  OnDemandWindow.name_to_path pl !! n = Some p <-> p ∈ pl /\ path_name p = n.
Proof.
  induction pl as [|q pl IH] using rev_ind; intros Hnd.
  - unfold OnDemandWindow.name_to_path. cbn. rewrite lookup_empty, elem_of_nil.
    split; [done|tauto].
  - rewrite fmap_app in Hnd. apply NoDup_app in Hnd as (Hnd & Hq & _).
    rewrite od_name_to_path_snoc, lookup_insert_Some, (IH Hnd), elem_of_app,
      list_elem_of_singleton.
    split.
    + intros [[Hn Hq']|[Hne [Hp Hn]]]; subst; [by split; [right|]|by split; [left|]].
    + intros [[Hp| Hpq] Hn]; subst; [|by left]. right. split; [|done].
      intros Heq. apply (Hq (path_name p)).
      * apply list_elem_of_fmap. by exists p.
      * cbn. rewrite Heq. by left.
Qed.

Lemma fmap_omap_names (m : gmap string (list string)) (view : list string) :
  (forall n, n ∈ view -> exists p, m !! n = Some p /\ path_name p = n) ->
  path_name <$> omap (fun n => m !! n) view = view.
Proof.
  induction view as [|n view IH]; intros H; [done|]. cbn.
  destruct (H n) as (p & -> & Hp); [by left|]. cbn. rewrite Hp. f_equal.
  apply IH. intros n' Hn'. apply H. by right.
Qed.

(** X17. The on-demand window plays in the order of its list widget.  When
    the items have distinct names and the widget shows them in some order
    (the user may have dragged the rows), [start_play] puts the playlist
    in the order of the rows, losing no item, sets the index to 0 and
    plays the item of the first row. *)
Theorem start_play_follows_view w :
  NoDup (path_name <$> OnDemandWindow.playlist w) ->
  OnDemandWindow.list_view w ≡ₚ path_name <$> OnDemandWindow.playlist w ->
  OnDemandWindow.list_view w ≠ [] ->
  exists w1 p,
    OnDemandWindow.start_play w = OnDemandWindow.Ok w1
    /\ path_name <$> OnDemandWindow.playlist w1 = OnDemandWindow.list_view w
    /\ OnDemandWindow.playlist w1 ≡ₚ OnDemandWindow.playlist w
    /\ OnDemandWindow.index w1 = 0
    /\ OnDemandWindow.playlist w1 !! 0%nat = Some p
    /\ OnDemandWindow.calls w1
       = OnDemandWindow.calls w
         ++ [OnDemandWindow.ShowFullScreen; OnDemandWindow.RightPanelHide]
         ++ OnDemandWindow.play_calls w p.
Proof.
  intros Hnd Hperm Hne.
  set (m := OnDemandWindow.name_to_path (OnDemandWindow.playlist w)).
  set (pl := omap (fun n => m !! n) (OnDemandWindow.list_view w)).
  assert (path_name <$> pl = OnDemandWindow.list_view w) as Hnames.
  { apply fmap_omap_names. intros n Hn. rewrite Hperm in Hn.
    apply list_elem_of_fmap in Hn as (p & -> & Hp). exists p. split; [|done].
    by apply od_name_to_path_lookup. }
  assert (pl ≡ₚ OnDemandWindow.playlist w) as Hpl.
  { apply NoDup_Permutation.
    - apply (NoDup_fmap_1 path_name). rewrite Hnames, Hperm. done.
    - by apply (NoDup_fmap_1 path_name).
    - intros p. unfold pl. rewrite list_elem_of_omap. split.
      + intros (n & _ & Hn). by apply od_name_to_path_lookup in Hn as [? _].
      + intros Hp. exists (path_name p). split.
        * rewrite Hperm. apply list_elem_of_fmap. by exists p.
        * by apply od_name_to_path_lookup. }
  destruct pl as [|p pl'] eqn:Hp.
  { destruct (OnDemandWindow.list_view w); [done|]. discriminate Hnames. }
  exists (OnDemandWindow.advanced 0
            ([OnDemandWindow.ShowFullScreen; OnDemandWindow.RightPanelHide]
             ++ OnDemandWindow.play_calls w p)
            (OnDemandWindow.set_playlist (p :: pl') w)), p.
  split.
  { unfold OnDemandWindow.start_play. rewrite decide_False by done.
    cbn [OnDemandWindow.playlist OnDemandWindow.set_playlist].
    fold m. fold pl. rewrite Hp. rewrite decide_False by done.
    rewrite (od_play_current_ok _ p) by done.
    unfold OnDemandWindow.advanced, OnDemandWindow.play_calls. cbn.
    by rewrite <- !app_assoc. }
  by cbn.
Qed.

Lemma start_play_follows_view_witness :
  exists w1 p,
    OnDemandWindow.start_play
      (OnDemandWindow.set_list_view ["y.mkv"; "x.mp4"]
         (OnDemandWindow.add_video [["v"; "x.mp4"]; ["v"; "y.mkv"]]
            (OnDemandWindow.init 50 false)))
    = OnDemandWindow.Ok w1
    /\ path_name <$> OnDemandWindow.playlist w1 = ["y.mkv"; "x.mp4"]
    /\ OnDemandWindow.playlist w1 ≡ₚ [["v"; "x.mp4"]; ["v"; "y.mkv"]]
    /\ OnDemandWindow.index w1 = 0
    /\ OnDemandWindow.playlist w1 !! 0%nat = Some p
    /\ OnDemandWindow.calls w1
       = OnDemandWindow.calls (OnDemandWindow.init 50 false)
         ++ [OnDemandWindow.ShowFullScreen; OnDemandWindow.RightPanelHide]
         ++ OnDemandWindow.play_calls (OnDemandWindow.init 50 false) p.
Proof.
  apply (start_play_follows_view
           (OnDemandWindow.set_list_view ["y.mkv"; "x.mp4"]
              (OnDemandWindow.add_video [["v"; "x.mp4"]; ["v"; "y.mkv"]]
                 (OnDemandWindow.init 50 false)))).
  - vm_compute.
    repeat (constructor; [rewrite ?elem_of_cons, elem_of_nil; intuition discriminate|]).
    constructor.
  - vm_compute. apply perm_swap.
  - discriminate.
Defined.

Lemma od_add_video_aligned paths : forall w,
  OnDemandWindow.aligned w -> OnDemandWindow.aligned (OnDemandWindow.add_video paths w).
Proof.
  unfold OnDemandWindow.add_video.
  induction paths as [|fp paths IH]; intros w Hw; [done|].
  cbn [foldl]. apply IH. unfold OnDemandWindow.aligned in *. cbn.
  by rewrite Hw, fmap_app.
Qed.

(** X18. As long as the rows of the list widget are the playlist in its
    order, adding videos and deleting the selected row keep them so:
    [delete_selected] does not raise, removes from the playlist the item
    of the row it removes, and leaves the index inside the playlist. *)
Theorem on_demand_list_stays_aligned w paths r :
  OnDemandWindow.aligned w ->
  0 <= OnDemandWindow.index w ->
  r < Py.len (OnDemandWindow.list_view w) ->
  OnDemandWindow.aligned (OnDemandWindow.add_video paths w)
  /\ exists w',
       OnDemandWindow.delete_selected r w = OnDemandWindow.Ok w'
       /\ OnDemandWindow.aligned w'
       /\ 0 <= OnDemandWindow.index w'
       /\ (r < 0 -> w' = w)
       /\ (0 <= r ->
           OnDemandWindow.playlist w'
           = delete (Z.to_nat r) (OnDemandWindow.playlist w)
           /\ (OnDemandWindow.playlist w' ≠ [] ->
               OnDemandWindow.index w' < Py.len (OnDemandWindow.playlist w'))).
Proof.
  intros Hal Hidx Hr. split; [by apply od_add_video_aligned|].
  unfold OnDemandWindow.delete_selected.
  destruct (decide (r < 0)) as [Hneg|Hpos].
  { exists w. repeat split; try done; lia. }
  cbn [OnDemandWindow.playlist OnDemandWindow.set_list_view OnDemandWindow.set_playlist
         OnDemandWindow.index].
  assert (Py.len (OnDemandWindow.list_view w) = Py.len (OnDemandWindow.playlist w)) as Hlen.
  { rewrite Hal. unfold Py.len. by rewrite length_fmap. }
  rewrite decide_True by lia.
  set (pl' := delete (Z.to_nat r) (OnDemandWindow.playlist w)).
  assert (path_name <$> pl' = delete (Z.to_nat r) (OnDemandWindow.list_view w)) as Hal'.
  { unfold pl'. rewrite Hal. by rewrite list_fmap_delete. }
  destruct (decide (OnDemandWindow.index w >= Py.len pl')) as [Hge|Hlt].
  - eexists. split; [reflexivity|]. unfold OnDemandWindow.aligned. cbn.
    split; [done|]. split; [lia|]. split; [lia|]. intros _. split; [done|].
    intros Hne. apply len_pos in Hne. lia.
  - eexists. split; [reflexivity|]. unfold OnDemandWindow.aligned. cbn.
    split; [done|]. split; [done|]. split; [lia|]. intros _. split; [done|]. lia.
Qed.

Lemma on_demand_list_stays_aligned_witness :
  OnDemandWindow.aligned
    (OnDemandWindow.add_video [["v"; "z.avi"]]
       (OnDemandWindow.add_video [["v"; "x.mp4"]; ["v"; "y.mkv"]] (OnDemandWindow.init 50 false)))
  /\ exists w',
       OnDemandWindow.delete_selected 1
         (OnDemandWindow.add_video [["v"; "x.mp4"]; ["v"; "y.mkv"]] (OnDemandWindow.init 50 false))
       = OnDemandWindow.Ok w'
       /\ OnDemandWindow.aligned w'
       /\ 0 <= OnDemandWindow.index w'
       /\ (1 < 0 -> w' = OnDemandWindow.add_video [["v"; "x.mp4"]; ["v"; "y.mkv"]]
                          (OnDemandWindow.init 50 false))
       /\ (0 <= 1 ->
           OnDemandWindow.playlist w'
           = delete (Z.to_nat 1)
               (OnDemandWindow.playlist
                  (OnDemandWindow.add_video [["v"; "x.mp4"]; ["v"; "y.mkv"]]
                     (OnDemandWindow.init 50 false)))
           /\ (OnDemandWindow.playlist w' ≠ [] ->
               OnDemandWindow.index w' < Py.len (OnDemandWindow.playlist w'))).
Proof.
  apply (on_demand_list_stays_aligned
           (OnDemandWindow.add_video [["v"; "x.mp4"]; ["v"; "y.mkv"]]
              (OnDemandWindow.init 50 false)) [["v"; "z.avi"]] 1).
  - vm_compute. reflexivity.
  - vm_compute. discriminate.
  - vm_compute. reflexivity.
Defined.

(** ** Starting the run *)

(** X19. Starting the run starts the active window at once.  When the run
    is stopped, no interruption is on, some window has a playable item and
    a window is active, [toggle_run] sets the run going, starts the timer
    and makes the active window the current one with its resolved playlist
    at index 0; the first item is played if there is one - a window that is
    active but empty is entered all the same, and nothing plays. *)
Theorem toggle_run_starts_active w a :
  reachable w ->
  running (self w) = false -> in_interrupt (self w) = false ->
  active_segment w = Some a ->
  (exists seg n, seg ∈ time_ranges (self w) /\ playable w seg n) ->
  exists w',
    toggle_run w = Ok tt w'
    /\ running (self w') = true
    /\ playback (self w') = (Some a, merged (segment_dir a) (entries w a), 0, None)
    /\ calls w' = calls w ++ [RunBtnSetText true; TimerStart 1000]
                  ++ match merged (segment_dir a) (entries w a) with
                     | [] => []
                     | p :: _ => [ShowFullScreen; LeftPanelHide] ++ play_calls (self w) p
                     end.
Proof.
  intros Hreach Hrun Hi Hact Hplay.
  destruct (coherent_of_reachable w Hreach) as (Hidle & _ & _).
  specialize (Hidle Hrun). unfold playback in Hidle. injection Hidle as Hcur _ _ _.
  destruct (toggle_run_eq w) as (has & Hhas & ->).
  rewrite Hrun. destruct Hplay as (seg & n & Hseg & Hn).
  rewrite decide_False by (intros He; rewrite He in Hseg; by apply elem_of_nil in Hseg).
  assert (has = true) as -> by (apply Hhas; by exists seg, n).
  rewrite switch_run_eq, Hrun.
  set (w1 := with_calls _ (with_self _ w)).
  rewrite check_real_time_eq.
  change (running (self w1)) with true.
  change (in_interrupt (self w1)) with (in_interrupt (self w)).
  change (active_segment w1) with (active_segment w).
  change (current_segment (self w1)) with (current_segment (self w)).
  change (graceful_switch_box (self w1)) with (graceful_switch_box (self w)).
  rewrite Hi, Hact, Hcur. cbn [negb orb].
  rewrite decide_True by done.
  rewrite bool_decide_eq_false_2 by (by intros [? ?]). cbn [andb].
  destruct (start_segment_spec a w1)
    as (w' & -> & Hc & Hn' & Hpl & Hidx & (_&_&_&Hr&_) & _ & _ & Hcalls).
  exists w'. split; [done|]. split; [by rewrite Hr|].
  split; [unfold playback; by rewrite Hc, Hpl, Hidx, Hn'|].
  rewrite Hcalls. change (entries w1 a) with (entries w a).
  change (calls w1) with (calls w ++ [RunBtnSetText true; TimerStart 1000]).
  rewrite <- app_assoc. reflexivity.
Qed.

Lemma toggle_run_starts_active_witness :
  exists w',
    toggle_run demo_world = Ok tt w'
    /\ running (self w') = true
    /\ playback (self w')
       = (Some (540, 600), merged (segment_dir (540, 600)) (entries demo_world (540, 600)),
          0, None)
    /\ calls w' = calls demo_world ++ [RunBtnSetText true; TimerStart 1000]
                  ++ match merged (segment_dir (540, 600)) (entries demo_world (540, 600)) with
                     | [] => []
                     | p :: _ => [ShowFullScreen; LeftPanelHide] ++ play_calls (self demo_world) p
                     end.
Proof.
  apply (toggle_run_starts_active demo_world (540, 600)).
  - exists demo_world, []. split; [by exists [(540, 600); (600, 660)]|reflexivity].
  - reflexivity.
  - reflexivity.
  - vm_compute. reflexivity.
  - exists (540, 600), "a.mp4". split; [by left|].
    split; [eexists|]; vm_compute; reflexivity.
Defined.

(** ** Windows of no length *)

(** X20. A window that ends when it starts is inert.  [add_segment]
    accepts it whatever the schedule holds - it overlaps nothing, not even
    a window around it - and files it in its place; and no such window is
    ever the active one, since [find_active_segment] excludes the end. *)
Theorem degenerate_window_is_inert t w :
  (exists w',
     add_segment t t w = Ok tt w'
     /\ time_ranges (self w')
        = sort_segments (time_ranges (self w) ++ [(qtime_to_min t, qtime_to_min t)]))
  /\ forall seg, find_active_segment w = Ok (Some seg) w -> seg.1 < seg.2.
Proof.
  split.
  - destruct (add_segment_accepted t t w) as (w' & Hw' & Hs & _); [lia| |].
    + apply has_overlap_false_iff. intros a _. cbn. lia.
    + exists w'. split; [done|]. by rewrite Hs.
  - intros seg. rewrite find_active_segment_eq. intros [= H].
    unfold active_segment in H. apply find_some in H as [_ H].
    apply bool_decide_eq_true in H. lia.
Qed.

(** ** Stopping the run during an interruption *)

(** X21. Stopping wins over resuming.  When the run is stopped while the
    on-demand window is open, closing that window afterwards resumes
    nothing: the run stays stopped, playback stays idle, and the player is
    told nothing more than to stop. *)
Theorem stop_during_interrupt_wins w terminated :
  running (self w) = true -> ondemand_window (self w) = true ->
  let w' := run [EvToggleRun; EvOnDemandFinish terminated] w in
  running (self w') = false
  /\ playback (self w') = (None, [], 0, None)
  /\ in_interrupt (self w') = false /\ ondemand_window (self w') = false
  /\ calls w' = calls w ++ [RunBtnSetText false; TimerStop; PlayerStop].
Proof.
  intros Hrun Hod. cbv zeta. rewrite run_cons. cbn [handle].
  destruct (toggle_run_eq w) as (has & _ & ->). rewrite Hrun, switch_run_eq, Hrun.
  cbn [world_of]. set (w1 := with_calls _ _).
  rewrite run_cons, run_nil. cbn [handle].
  assert ((od ← gets ondemand_window;
           if od : bool then resume_from_interrupt terminated else pass) w1
          = resume_from_interrupt terminated w1) as ->.
  { unfold_monad. cbn [self]. change (ondemand_window (self w1)) with (ondemand_window (self w)).
    by rewrite Hod. }
  rewrite resume_from_interrupt_eq. cbv zeta.
  change (running (self w1)) with false. cbn [negb world_of].
  by cbn.
Qed.

Lemma stop_during_interrupt_wins_witness :
  let w' := run [EvToggleRun; EvOnDemandFinish true] demo_interrupted in
  running (self w') = false
  /\ playback (self w') = (None, [], 0, None)
  /\ in_interrupt (self w') = false /\ ondemand_window (self w') = false
  /\ calls w' = calls demo_interrupted ++ [RunBtnSetText false; TimerStop; PlayerStop].
Proof.
  apply (stop_during_interrupt_wins demo_interrupted true); vm_compute; reflexivity.
Defined.
